(** * eth-loadtester: the wallet manager and the load tester

    A shallow embedding of [src/WalletManager.js], [src/LoadTester.js]
    and the validation of [src/config.js].

    - JavaScript [BigInt] values (balances, amounts in wei) are [Z].
    - JavaScript [number] values that hold counts (nonces, counters, array
      lengths) are [Z]; all of them stay far below 2^53, where [+ 1] is
      exact.  The one genuinely fractional computation of the program,
      [0.01 * this.childWallets.length], is modelled on IEEE-754 doubles
      in module [JSNumber].
    - The [Map] of nonces is a [gmap] keyed by the address string.
    - [async] functions are trees of suspension points ([prog]); the
      ledger client, the random wallet generator and the event loop's
      choice of the next promise to settle form the environment. *)

From Stdlib Require Import ZArith String Ascii List Lia Bool.
From stdpp Require Import base option list gmap strings.

Local Open Scope Z_scope.

(** ** Doubles, [Number.prototype.toString] and [ethers.parseEther] *)

Module JSNumber.

Local Open Scope string_scope.
Local Open Scope Z_scope.

(** A non-negative finite double of the normal range: zero, or
    [mant * 2^expo] with [2^52 <= mant < 2^53]. *)
Inductive number : Type :=
| Zero
| Pos (mant expo : Z).

Definition pow2 (k : Z) : Z := 2 ^ Z.max 0 k.
Definition pow10 (k : Z) : Z := 10 ^ Z.max 0 k.

(** [floor (log2 (num / den))] for positive [num], [den]. *)
Definition ilog2_ratio (num den : Z) : Z :=
  let l := Z.log2 num - Z.log2 den in
  if num * pow2 (- l) <? den * pow2 l then l - 1 else l.

(** Round the positive rational [num / den] to the nearest double,
    ties to even (the rounding of every JavaScript arithmetic
    operation and of numeric literals). *)
Definition round_nearest_even (num den : Z) : number :=
  if (num <=? 0) || (den <=? 0) then Zero else
  let e := ilog2_ratio num den - 52 in
  let n' := num * pow2 (- e) in
  let d' := den * pow2 e in
  let q := n' / d' in
  let r := n' mod d' in
  let m := if 2 * r <? d' then q
           else if d' <? 2 * r then q + 1
           else if Z.even q then q else q + 1 in
  if m =? 2 ^ 53 then Pos (2 ^ 52) (e + 1) else Pos m e.

(** The literal [0.01] and the conversion of an array length. *)
Definition lit_0_01 : number := round_nearest_even 1 100.
Definition of_Z (n : Z) : number := round_nearest_even n 1.

(** [a * b] on doubles. *)
Definition mul (a b : number) : number :=
  match a, b with
  | Pos m1 e1, Pos m2 e2 =>
      round_nearest_even (m1 * m2 * pow2 (e1 + e2)) (pow2 (- (e1 + e2)))
  | _, _ => Zero
  end.

(** Comparison of the rationals [a/b] and [c/d] (positive denominators). *)
Definition qlt (a b c d : Z) : bool := a * d <? c * b.
Definition qeq (a b c d : Z) : bool := a * d =? c * b.

(** Does the decimal [D * 10^E] read back as the double [m * 2^e]?  It
    does when it lies in the rounding interval of the double; the end
    points belong to the interval when the mantissa is even. *)
Definition reads_back (m e D E : Z) : bool :=
  let sh := e - 2 in
  let lo := if m =? 2 ^ 52 then 4 * m - 1 else 4 * m - 2 in
  let hi := 4 * m + 2 in
  let bn := pow2 sh in
  let bd := pow2 (- sh) in
  let vn := D * pow10 E in
  let vd := pow10 (- E) in
  (qlt (lo * bn) bd vn vd && qlt vn vd (hi * bn) bd)
  || (Z.even m && (qeq (lo * bn) bd vn vd || qeq vn vd (hi * bn) bd)).

(** Number of decimal digits of a positive integer. *)
Fixpoint ndigits_aux (fuel : nat) (n : Z) : Z :=
  match fuel with
  | O => 0
  | S f => if n <? 10 then 1 else 1 + ndigits_aux f (n / 10)
  end.
Definition ndigits (n : Z) : Z := ndigits_aux (Z.to_nat (Z.log2 n) + 1) n.

(** For [0 < x < 1], the least [j >= 1] with [x * 10^j >= 1]. *)
Fixpoint lead_aux (fuel : nat) (j num den : Z) : Z :=
  match fuel with
  | O => j
  | S f => if den <=? num * 10 ^ j then j else lead_aux f (j + 1) num den
  end.

(** The [n] of the language definition: [10^(n-1) <= x < 10^n]. *)
Definition decimal_exponent (m e : Z) : Z :=
  let num := m * pow2 e in
  let den := pow2 (- e) in
  if den <=? num then ndigits (num / den)
  else 1 - lead_aux 400 1 num den.

(** Candidate with [k] digits: the multiples of [10^(n-k)] on both sides
    of [x]; of those that read back, the nearest one, the even one on a
    tie. *)
Definition candidate (m e n k : Z) : option (Z * Z) :=
  let E := n - k in
  let num := m * pow2 e * pow10 (- E) in
  let den := pow2 (- e) * pow10 E in
  let s := num / den in
  let r := num mod den in
  let ok1 := (0 <? s) && reads_back m e s E in
  let ok2 := reads_back m e (s + 1) E in
  match ok1, ok2 with
  | true, false => Some (s, E)
  | false, true => Some (s + 1, E)
  | true, true =>
      if 2 * r <? den then Some (s, E)
      else if den <? 2 * r then Some (s + 1, E)
      else if Z.even s then Some (s, E) else Some (s + 1, E)
  | false, false => None
  end.

Fixpoint shortest_aux (fuel : nat) (m e n k : Z) : Z * Z :=
  match fuel with
  | O => (m * pow2 e, 0)
  | S f =>
      match candidate m e n k with
      | Some c => c
      | None => shortest_aux f m e n (k + 1)
      end
  end.

Fixpoint strip_zeros (fuel : nat) (D E : Z) : Z * Z :=
  match fuel with
  | O => (D, E)
  | S f => if (D mod 10 =? 0) && (0 <? D) then strip_zeros f (D / 10) (E + 1)
           else (D, E)
  end.

(** The shortest decimal [D * 10^E] that reads back as the double. *)
Definition shortest (m e : Z) : Z * Z :=
  let '(D, E) := shortest_aux 17 m e (decimal_exponent m e) 1 in
  strip_zeros 20 D E.

Definition digit_char (d : Z) : ascii :=
  ascii_of_nat (48 + Z.to_nat d).

Fixpoint digits_aux (fuel : nat) (n : Z) (acc : string) : string :=
  match fuel with
  | O => acc
  | S f =>
      let acc' := String (digit_char (n mod 10)) acc in
      if n <? 10 then acc' else digits_aux f (n / 10) acc'
  end.

(** Decimal digits of a non-negative integer. *)
Definition digits (n : Z) : string :=
  digits_aux (Z.to_nat (Z.log2 n) + 1) n "".

Fixpoint zeros (n : nat) : string :=
  match n with
  | O => ""
  | S n' => String "0" (zeros n')
  end.

(** [Number::toString] of the language definition (radix 10). *)
Definition toString (x : number) : string :=
  match x with
  | Zero => "0"
  | Pos m e =>
      let '(D, E) := shortest m e in
      let ds := digits D in
      let k := Z.of_nat (String.length ds) in
      let n := E + k in
      if (k <=? n) && (n <=? 21) then
        ds ++ zeros (Z.to_nat (n - k))
      else if (0 <? n) && (n <=? 21) then
        substring 0 (Z.to_nat n) ds ++ "." ++
        substring (Z.to_nat n) (Z.to_nat (k - n)) ds
      else if (-6 <? n) && (n <=? 0) then
        "0." ++ zeros (Z.to_nat (- n)) ++ ds
      else
        let ex := (if 0 <=? n - 1 then "e+" else "e-") ++ digits (Z.abs (n - 1)) in
        if k =? 1 then ds ++ ex
        else substring 0 1 ds ++ "." ++
             substring 1 (Z.to_nat (k - 1)) ds ++ ex
  end.

Definition is_digit (c : ascii) : bool :=
  let n := nat_of_ascii c in (48 <=? n)%nat && (n <=? 57)%nat.

Fixpoint all_digits (s : string) : bool :=
  match s with
  | EmptyString => true
  | String c s' => is_digit c && all_digits s'
  end.

Fixpoint digits_value (s : string) (acc : Z) : Z :=
  match s with
  | EmptyString => acc
  | String c s' => digits_value s' (10 * acc + Z.of_nat (nat_of_ascii c - 48))
  end.

(** Split at the first dot. *)
Fixpoint split_dot (s : string) : string * option string :=
  match s with
  | EmptyString => ("", None)
  | String c s' =>
      if Ascii.eqb c "."%char then ("", Some s')
      else let '(w, f) := split_dot s' in (String c w, f)
  end.

(** [ethers.parseEther] on an unsigned decimal string: the value times
    10^18 as a [BigInt].  It throws (here [None]) on anything that is
    not [digits[.digits]] with at least one digit, and on more than 18
    decimals. *)
Definition parseEther (s : string) : option Z :=
  let '(whole, frac) := split_dot s in
  let frac := default "" frac in
  if negb (all_digits whole && all_digits frac) then None
  else if (String.length whole + String.length frac =? 0)%nat then None
  else
    let pad := frac ++ zeros (18 - String.length frac) in
    if negb (all_digits (substring 18 (String.length pad - 18) pad)
             && (digits_value (substring 18 (String.length pad - 18) pad) 0 =? 0))
    then None
    else Some (digits_value (whole ++ substring 0 18 pad) 0).

End JSNumber.

(** ** Values exchanged with the ledger client *)

Definition Address := string.

(** An [ethers.Wallet]: the address stands for the signing capability. *)
Record Wallet : Type := mkWallet { address : Address }.

(** The argument of [wallet.sendTransaction]; [tx_from] is the wallet the
    method is called on. *)
Record TxRequest : Type := mkTxRequest {
  tx_from : Address;
  tx_to : Address;
  tx_value : Z;
  tx_nonce : Z
}.

Record TxResponse : Type := mkTxResponse { tx_hash : string }.

Record Receipt : Type := mkReceipt { status : Z; blockNumber : Z }.

Record Error : Type := mkError { message : string }.

(** Requests to the environment.  The first six are awaited (suspension
    points); [CreateRandom] and [DateNow] answer synchronously.
    [Sleep num den] is [this.sleep(num / den)]. *)
Inductive Call : Type :=
| GetBalance (a : Address)
| GetTransactionCount (a : Address)
| GetFeeData
| SendTransaction (req : TxRequest)
| WaitTx (tx : TxResponse)
| Sleep (num den : Z)
| CreateRandom
| DateNow.

Inductive Value : Type :=
| VBigInt (n : Z)
| VNumber (n : Z)
| VFeeData (gasPrice : option Z)
| VTx (tx : TxResponse)
| VReceipt (r : Receipt)
| VWallet (w : Wallet)
| VUndefined.

(** A settled promise: fulfilled with a value or rejected with an error. *)
Inductive Response : Type :=
| Fulfilled (v : Value)
| Rejected (e : Error).

(** ** Asynchronous functions as trees of suspension points *)

Section Prog.
Context {St : Type}.

(** An [async] function body over the object state [St]: it returns,
    throws, suspends on a request, or reads and writes [this]. *)
Inductive prog (A : Type) : Type :=
| Done (a : A)
| Fail (e : Error)
| Await (c : Call) (k : Response → prog A)
| Get (k : St → prog A)
| Put (s : St) (k : prog A).

Global Arguments Done {A} a.
Global Arguments Fail {A} e.
Global Arguments Await {A} c k.
Global Arguments Get {A} k.
Global Arguments Put {A} s k.

Fixpoint pbind {A B} (p : prog A) (f : A → prog B) : prog B :=
  match p with
  | Done a => f a
  | Fail e => Fail e
  | Await c k => Await c (λ r, pbind (k r) f)
  | Get k => Get (λ s, pbind (k s) f)
  | Put s k => Put s (pbind k f)
  end.

(** [try { p } catch (error) { h error }] *)
Fixpoint try_catch {A} (p : prog A) (h : Error → prog A) : prog A :=
  match p with
  | Done a => Done a
  | Fail e => h e
  | Await c k => Await c (λ r, try_catch (k r) h)
  | Get k => Get (λ s, try_catch (k s) h)
  | Put s k => Put s (try_catch k h)
  end.

Definition modify (f : St → St) : prog unit :=
  Get (λ s, Put (f s) (Done tt)).

Definition gets {A} (f : St → A) : prog A :=
  Get (λ s, Done (f s)).

End Prog.

Global Arguments prog St A : clear implicits.

Global Instance prog_ret {St} : MRet (prog St) := λ A a, Done a.
Global Instance prog_bind {St} : MBind (prog St) := λ A B f p, pbind p f.

(** A method of a member object run on the enclosing object:
    [this.walletManager.updateNonce(...)] inside the load tester. *)
Fixpoint zoom {St T A} (get : T → St) (set : St → T → T) (p : prog St A) : prog T A :=
  match p with
  | Done a => Done a
  | Fail e => Fail e
  | Await c k => Await c (λ r, zoom get set (k r))
  | Get k => Get (λ t, zoom get set (k (get t)))
  | Put s k => Get (λ t, Put (set s t) (zoom get set k))
  end.

(** Typed views of the client's methods: a response of the wrong shape
    surfaces as a thrown [TypeError]. *)
Definition type_error : Error := mkError "TypeError"%string.

Definition getBalance {St} (a : Address) : prog St Z :=
  Await (GetBalance a) (λ r,
    match r with
    | Fulfilled (VBigInt n) => Done n
    | Fulfilled _ => Fail type_error
    | Rejected e => Fail e
    end).

Definition getTransactionCount {St} (a : Address) : prog St Z :=
  Await (GetTransactionCount a) (λ r,
    match r with
    | Fulfilled (VNumber n) => Done n
    | Fulfilled _ => Fail type_error
    | Rejected e => Fail e
    end).

Definition getFeeData {St} : prog St (option Z) :=
  Await GetFeeData (λ r,
    match r with
    | Fulfilled (VFeeData g) => Done g
    | Fulfilled _ => Fail type_error
    | Rejected e => Fail e
    end).

Definition sendTx {St} (req : TxRequest) : prog St TxResponse :=
  Await (SendTransaction req) (λ r,
    match r with
    | Fulfilled (VTx tx) => Done tx
    | Fulfilled _ => Fail type_error
    | Rejected e => Fail e
    end).

Definition wait {St} (tx : TxResponse) : prog St Receipt :=
  Await (WaitTx tx) (λ r,
    match r with
    | Fulfilled (VReceipt rc) => Done rc
    | Fulfilled _ => Fail type_error
    | Rejected e => Fail e
    end).

(** [setTimeout] always fires: the promise of [sleep] is never rejected. *)
Definition sleep {St} (num den : Z) : prog St unit :=
  Await (Sleep num den) (λ _, Done tt).

(** ** The event loop *)

(** Who runs a piece of code: the function that awaits, or the promise
    with a given index in a [Promise.all]. *)
Inductive actor : Type :=
| Main
| Task (n : nat).

(** What the environment observes: a request being issued, and a request
    being answered. *)
Inductive Event : Type :=
| Issue (a : actor) (c : Call)
| Settle (a : actor) (c : Call) (r : Response).

Inductive Outcome (A : Type) : Type :=
| Returned (a : A)
| Threw (e : Error)
| OutOfFuel.

Global Arguments Returned {A} a.
Global Arguments Threw {A} e.
Global Arguments OutOfFuel {A}.

(** Run synchronously up to the next suspension point. *)
Fixpoint start {St A} (p : prog St A) (s : St) : St * prog St A :=
  match p with
  | Get k => start (k s) s
  | Put s' k => start k s'
  | _ => (s, p)
  end.

Definition is_pending {St A} (p : prog St A) : bool :=
  match p with Await _ _ => true | _ => false end.

Definition result_of {St A} (p : prog St A) : option A :=
  match p with Done a => Some a | _ => None end.

Definition failure_of {St A} (p : prog St A) : option Error :=
  match p with Fail e => Some e | _ => None end.

(** The request a suspended function has just issued. *)
Definition issue_of {St A} (who : actor) (p : prog St A) : list Event :=
  match p with Await c _ => [Issue who c] | _ => [] end.

Fixpoint pending_from {St A} (i : nat) (pool : list (prog St A)) : list nat :=
  match pool with
  | [] => []
  | p :: ps =>
      if is_pending p then i :: pending_from (S i) ps
      else pending_from (S i) ps
  end.

(** Indices of the promises of the pool that are still suspended. *)
Definition pending_ids {St A} (pool : list (prog St A)) : list nat :=
  pending_from 0 pool.

(** The results, when every promise of the pool is fulfilled. *)
Definition all_done {St A} (pool : list (prog St A)) : option (list A) :=
  mapM result_of pool.

Definition first_failed {St A} (pool : list (prog St A)) : option Error :=
  list_find (λ p, is_Some (failure_of p)) pool ≫= (λ ip, failure_of ip.2).

Section Semantics.
Context {World : Type}.

(** The environment: its answer to a request, and which of the
    suspended promises it settles next. *)
Variable respond : World → Call → Response * World.
Variable choose : World → list nat → nat.

Context {St : Type}.

(** Code of the function that is being awaited by the caller: state of
    the object and of the world are threaded, events are collected. *)
Definition M (A : Type) : Type :=
  St → World → Outcome A * St * World * list Event.

Definition M_ret {A} (a : A) : M A := λ s w, (Returned a, s, w, []).

Definition M_bind {A B} (m : M A) (f : A → M B) : M B := λ s w,
  match m s w with
  | (Returned a, s1, w1, tr1) =>
      let '(o, s2, w2, tr2) := f a s1 w1 in (o, s2, w2, tr1 ++ tr2)
  | (Threw e, s1, w1, tr1) => (Threw e, s1, w1, tr1)
  | (OutOfFuel, s1, w1, tr1) => (OutOfFuel, s1, w1, tr1)
  end.

Definition throw {A} (e : Error) : M A := λ s w, (Threw e, s, w, []).
Definition out_of_fuel {A} : M A := λ s w, (OutOfFuel, s, w, []).
Definition get_state : M St := λ s w, (Returned s, s, w, []).
Definition put_state (s' : St) : M unit := λ s w, (Returned tt, s', w, []).

(** [try { m } catch (error) { h error }] *)
Definition M_catch {A} (m : M A) (h : Error → M A) : M A := λ s w,
  match m s w with
  | (Threw e, s1, w1, tr1) =>
      let '(o, s2, w2, tr2) := h e s1 w1 in (o, s2, w2, tr1 ++ tr2)
  | r => r
  end.

(** [try { m } finally { fin }] *)
Definition M_finally {A} (m : M A) (fin : M unit) : M A := λ s w,
  match m s w with
  | (OutOfFuel, s1, w1, tr1) => (OutOfFuel, s1, w1, tr1)
  | (o, s1, w1, tr1) =>
      match fin s1 w1 with
      | (Returned _, s2, w2, tr2) => (o, s2, w2, tr1 ++ tr2)
      | (Threw e, s2, w2, tr2) => (Threw e, s2, w2, tr1 ++ tr2)
      | (OutOfFuel, s2, w2, tr2) => (OutOfFuel, s2, w2, tr1 ++ tr2)
      end
  end.

(** A synchronous request ([Date.now()], [Wallet.createRandom()]). *)
Definition ask (c : Call) : M Response := λ s w,
  let '(r, w') := respond w c in
  (Returned r, s, w', [Issue Main c; Settle Main c r]).

(** [await p] for a single asynchronous function. *)
Fixpoint exec {A} (p : prog St A) : M A := λ s w,
  match p with
  | Done a => (Returned a, s, w, [])
  | Fail e => (Threw e, s, w, [])
  | Await c k =>
      let '(r, w1) := respond w c in
      let '(o, s2, w2, tr) := exec (k r) s w1 in
      (o, s2, w2, Issue Main c :: Settle Main c r :: tr)
  | Get k => exec (k s) s w
  | Put s' k => exec k s' w
  end.

(** The promise the environment settles next: its choice when it names
    a suspended one, the first suspended one otherwise. *)
Definition pick (w : World) (ids : list nat) : option nat :=
  let c := choose w ids in
  if bool_decide (c ∈ ids) then Some c else head ids.

(** The settling of the promises of a pool, one answer at a time.  The
    function that awaits the pool resumes when all are fulfilled, or as
    soon as one is rejected; promises still suspended at that moment
    are left in flight, and what they do later is not followed.  [fuel]
    bounds the number of answers, [base] numbers the actors. *)
Fixpoint pool_run {A} (fuel : nat) (base : nat) (pool : list (prog St A))
    : M (list A) := λ s w,
  match all_done pool with
  | Some results => (Returned results, s, w, [])
  | None =>
      match fuel with
      | O => (OutOfFuel, s, w, [])
      | S fuel' =>
          match pick w (pending_ids pool) ≫= (λ i, (i,.) <$> pool !! i) with
          | Some (i, Await c k) =>
              let '(r, w1) := respond w c in
              let '(s1, q) := start (k r) s in
              let evs := Settle (Task (base + i)) c r
                         :: issue_of (Task (base + i)) q in
              match q with
              | Fail e => (Threw e, s1, w1, evs)
              | _ =>
                  let '(o, s2, w2, tr) :=
                    pool_run fuel' base (<[i := q]> pool) s1 w1 in
                  (o, s2, w2, evs ++ tr)
              end
          | _ => (OutOfFuel, s, w, [])
          end
      end
  end.

(** [list.map(async ...)]: every function runs up to its first
    suspension point, in list order. *)
Fixpoint start_all {A} (who : nat) (ps : list (prog St A)) (s : St)
    : St * list (prog St A) * list Event :=
  match ps with
  | [] => (s, [], [])
  | p :: ps' =>
      let '(s1, q) := start p s in
      let '(s2, qs, evs) := start_all (S who) ps' s1 in
      (s2, q :: qs, issue_of (Task who) q ++ evs)
  end.

(** [await Promise.all(ps)] where [ps] were just created by [map]. *)
Definition promise_all {A} (fuel : nat) (base : nat) (ps : list (prog St A))
    : M (list A) := λ s w,
  let '(s1, pool, evs) := start_all base ps s in
  match first_failed pool with
  | Some e => (Threw e, s1, w, evs)
  | None =>
      let '(o, s2, w2, tr) := pool_run fuel base pool s1 w in
      (o, s2, w2, evs ++ tr)
  end.

End Semantics.

Global Instance M_mret {World St} : MRet (@M World St) := λ A a, M_ret a.
Global Instance M_mbind {World St} : MBind (@M World St) := λ A B f m, M_bind m f.

(** ** [src/config.js]: validation of the configuration *)

Record AppConfig : Type := mkAppConfig {
  privateKey : option string;
  rpcUrl : string;
  numWallets : Z;
  cfg_transactionsPerWallet : Z;
  cfg_intervalMs : Z
}.

(** [!s] for a string that may be undefined. *)
Definition falsy (s : option string) : bool :=
  match s with
  | None => true
  | Some s' => bool_decide (s' = ""%string)
  end.

Definition config_errors (c : AppConfig) : list string :=
  (if falsy (privateKey c)
   then ["PRIVATE_KEY is required in .env file"%string] else [])
  ++ (if falsy (Some (rpcUrl c))
      then ["RPC_URL is required in .env file"%string] else [])
  ++ (if numWallets c <=? 0
      then ["NUM_WALLETS must be greater than 0"%string] else [])
  ++ (if cfg_transactionsPerWallet c <=? 0
      then ["TRANSACTIONS_PER_WALLET must be greater than 0"%string] else [])
  ++ (if cfg_intervalMs c <? 0
      then ["TRANSACTION_INTERVAL_MS must be non-negative"%string] else []).

Definition newline : string := String (ascii_of_nat 10) EmptyString.

Definition validateConfig (c : AppConfig) : Outcome unit :=
  match config_errors c with
  | [] => Returned tt
  | errors =>
      Threw (mkError ("Configuration validation failed:" +:+ newline
                      +:+ String.concat newline errors))
  end.

(** ** [src/WalletManager.js] *)

Record WalletManager : Type := mkWalletManager {
  masterWallet : Wallet;
  childWallets : list Wallet;
  nonces : gmap Address Z
}.

Definition WalletManager_new (master : Wallet) : WalletManager :=
  {| masterWallet := master; childWallets := []; nonces := ∅ |}.

Definition push_wallet (w : Wallet) (wm : WalletManager) : WalletManager :=
  {| masterWallet := masterWallet wm;
     childWallets := childWallets wm ++ [w];
     nonces := nonces wm |}.

(** [this.nonces.set(a, n)] *)
Definition set_nonce (a : Address) (n : Z) (wm : WalletManager) : WalletManager :=
  {| masterWallet := masterWallet wm;
     childWallets := childWallets wm;
     nonces := <[a := n]> (nonces wm) |}.

Definition updateNonce (walletAddress : Address) : prog WalletManager Z :=
  currentNonce ← getTransactionCount walletAddress;
  modify (set_nonce walletAddress currentNonce);;
  mret currentNonce.

(** [this.nonces.get(a) || 0]: an absent entry reads as 0. *)
Definition getNextNonce (walletAddress : Address) : prog WalletManager Z :=
  wm ← Get Done;
  let currentNonce := default 0 (nonces wm !! walletAddress) in
  Put (set_nonce walletAddress (currentNonce + 1) wm) (Done currentNonce).

Definition batchSize : nat := 20.

(** [ethers.parseEther((0.01 * this.childWallets.length).toString())] *)
Definition gasReserve (len : nat) : option Z :=
  JSNumber.parseEther
    (JSNumber.toString
       (JSNumber.mul JSNumber.lit_0_01 (JSNumber.of_Z (Z.of_nat len)))).

(** The function mapped over a batch by [distributeFunds]. *)
Definition transfer (master : Address) (wallet : Wallet)
    (amountPerWallet txNonce : Z) : prog WalletManager TxResponse :=
  try_catch
    (tx ← sendTx {| tx_from := master; tx_to := address wallet;
                    tx_value := amountPerWallet; tx_nonce := txNonce |};
     _ ← wait tx;
     mret tx)
    (λ error, Fail error).

(** [array.slice(from, to)] *)
Definition slice {A} (from to : nat) (l : list A) : list A :=
  take (to - from) (drop from l).

Record CollectResult : Type := mkCollectResult {
  success : bool;
  amount : Z
}.

Record CollectSummary : Type := mkCollectSummary {
  successfulCollections : Z;
  totalWallets : Z;
  totalCollected : Z;
  finalMasterBalance : Z
}.

(** [gasPrice.gasPrice || BigInt(20000000000)]: [null] and [0n] both
    fall back to 20 gwei. *)
Definition gasPrice_or_default (g : option Z) : Z :=
  match g with
  | Some p => if p =? 0 then 20000000000 else p
  | None => 20000000000
  end.

(** The function mapped over the wallets by [collectAllFunds]. *)
Definition collectOne (master : Address) (wallet : Wallet)
    : prog WalletManager CollectResult :=
  try_catch
    (balance ← getBalance (address wallet);
     if balance =? 0 then mret {| success := true; amount := 0 |}
     else
       gasPrice ← getFeeData;
       let estimatedGasCost := 1000000 * gasPrice_or_default gasPrice in
       if balance <=? estimatedGasCost
       then mret {| success := true; amount := 0 |}
       else
         let amountToSend := balance - estimatedGasCost in
         walletNonce ← getTransactionCount (address wallet);
         tx ← sendTx {| tx_from := address wallet; tx_to := master;
                        tx_value := amountToSend; tx_nonce := walletNonce |};
         receipt ← wait tx;
         if status receipt =? 1
         then mret {| success := true; amount := amountToSend |}
         else mret {| success := false; amount := 0 |})
    (λ error, mret {| success := false; amount := 0 |}).

(** [results.forEach(...)]: the two accumulators of [collectAllFunds]. *)
Definition aggregate (results : list CollectResult) : Z * Z :=
  fold_left
    (λ '(successful, total) result,
       if success result then (successful + 1, total + amount result)
       else (successful, total))
    results (0, 0).

Section WalletManagerMethods.
Context {World : Type}.
Variable respond : World → Call → Response * World.
Variable choose : World → list nat → nat.

Local Abbreviation M := (@M World WalletManager).

Fixpoint createWallets_loop (n : nat) : M unit :=
  match n with
  | O => mret tt
  | S n' =>
      r ← ask respond CreateRandom;
      match r with
      | Fulfilled (VWallet wallet) =>
          wm ← get_state;
          put_state (set_nonce (address wallet) 0 (push_wallet wallet wm));;
          createWallets_loop n'
      | Fulfilled _ => throw type_error
      | Rejected e => throw e
      end
  end.

(** [for (let i = 0; i < numWallets; i++)] runs [max 0 numWallets]
    times. *)
Definition createWallets (numWallets : Z) : M (list Wallet) :=
  createWallets_loop (Z.to_nat numWallets);;
  wm ← get_state;
  mret (childWallets wm).

(** The [for] loop over the batches; [fuel] bounds the number of
    batches. *)
Fixpoint distribute_batches (fuel : nat) (amountPerWallet : Z)
    (batchStart : nat) (currentNonce : Z) : M unit :=
  wm ← get_state;
  if bool_decide (batchStart < length (childWallets wm))%nat then
    match fuel with
    | O => out_of_fuel
    | S fuel' =>
        let batchEnd := ((batchStart + batchSize) `min` length (childWallets wm))%nat in
        let batch := slice batchStart batchEnd (childWallets wm) in
        promise_all respond choose (2 * length batch) batchStart
          (imap (λ batchIndex wallet,
                   let txNonce := currentNonce + Z.of_nat batchIndex in
                   transfer (address (masterWallet wm)) wallet
                            amountPerWallet txNonce)
                batch);;
        distribute_batches fuel' amountPerWallet
          (batchStart + batchSize)%nat (currentNonce + Z.of_nat (length batch))
    end
  else mret tt.

Definition distributeFunds : M unit :=
  wm ← get_state;
  masterBalance ← exec respond (getBalance (address (masterWallet wm)));
  if masterBalance =? 0
  then throw (mkError "Master wallet has no funds to distribute")
  else
    match gasReserve (length (childWallets wm)) with
    | None => throw (mkError "invalid FixedNumber string value")
    | Some gasReserve =>
        let availableBalance := masterBalance - gasReserve in
        if availableBalance <=? 0
        then throw (mkError "Insufficient funds after reserving gas")
        else if bool_decide (length (childWallets wm) = 0%nat)
        then throw (mkError "Division by zero")
        else
          let amountPerWallet :=
            availableBalance `quot` Z.of_nat (length (childWallets wm)) in
          currentNonce ←
            exec respond (getTransactionCount (address (masterWallet wm)));
          distribute_batches (length (childWallets wm)) amountPerWallet
            0%nat currentNonce
    end.

Definition collectAllFunds : M CollectSummary :=
  wm ← get_state;
  let wallets := childWallets wm in
  results ← promise_all respond choose (5 * length wallets) 0
              (map (collectOne (address (masterWallet wm))) wallets);
  let '(successful, total) := aggregate results in
  finalBalance ← exec respond (getBalance (address (masterWallet wm)));
  mret {| successfulCollections := successful;
          totalWallets := Z.of_nat (length wallets);
          totalCollected := total;
          finalMasterBalance := finalBalance |}.

End WalletManagerMethods.

(** ** [src/LoadTester.js] *)

Record Config : Type := mkConfig {
  transactionsPerWallet : Z;
  intervalMs : Z
}.

Record Stats : Type := mkStats {
  totalTransactions : Z;
  successfulTransactions : Z;
  failedTransactions : Z;
  startTime : option Z;
  endTime : option Z
}.

Record LoadTester : Type := mkLoadTester {
  walletManager : WalletManager;
  config : Config;
  isRunning : bool;
  stats : Stats
}.

Definition LoadTester_new (wm : WalletManager) (cfg : Config) : LoadTester :=
  {| walletManager := wm;
     config := cfg;
     isRunning := false;
     stats := {| totalTransactions := 0;
                 successfulTransactions := 0;
                 failedTransactions := 0;
                 startTime := None;
                 endTime := None |} |}.

Definition set_walletManager (wm : WalletManager) (lt : LoadTester) : LoadTester :=
  {| walletManager := wm; config := config lt;
     isRunning := isRunning lt; stats := stats lt |}.

Definition set_isRunning (b : bool) (lt : LoadTester) : LoadTester :=
  {| walletManager := walletManager lt; config := config lt;
     isRunning := b; stats := stats lt |}.

Definition set_stats (st : Stats) (lt : LoadTester) : LoadTester :=
  {| walletManager := walletManager lt; config := config lt;
     isRunning := isRunning lt; stats := st |}.

(** [this.stats.totalTransactions++] and its siblings *)
Definition incr_total (lt : LoadTester) : LoadTester :=
  set_stats {| totalTransactions := totalTransactions (stats lt) + 1;
               successfulTransactions := successfulTransactions (stats lt);
               failedTransactions := failedTransactions (stats lt);
               startTime := startTime (stats lt);
               endTime := endTime (stats lt) |} lt.

Definition incr_successful (lt : LoadTester) : LoadTester :=
  set_stats {| totalTransactions := totalTransactions (stats lt);
               successfulTransactions := successfulTransactions (stats lt) + 1;
               failedTransactions := failedTransactions (stats lt);
               startTime := startTime (stats lt);
               endTime := endTime (stats lt) |} lt.

Definition incr_failed (lt : LoadTester) : LoadTester :=
  set_stats {| totalTransactions := totalTransactions (stats lt);
               successfulTransactions := successfulTransactions (stats lt);
               failedTransactions := failedTransactions (stats lt) + 1;
               startTime := startTime (stats lt);
               endTime := endTime (stats lt) |} lt.

(** The assignments at the top of [startLoadTest]. *)
Definition reset_stats (now : Z) (lt : LoadTester) : LoadTester :=
  set_stats {| totalTransactions := 0;
               successfulTransactions := 0;
               failedTransactions := 0;
               startTime := Some now;
               endTime := endTime (stats lt) |} lt.

Definition set_endTime (now : Z) (lt : LoadTester) : LoadTester :=
  set_stats {| totalTransactions := totalTransactions (stats lt);
               successfulTransactions := successfulTransactions (stats lt);
               failedTransactions := failedTransactions (stats lt);
               startTime := startTime (stats lt);
               endTime := Some now |} lt.

(** [this.walletManager.m(...)] *)
Definition on_walletManager {A} (p : prog WalletManager A) : prog LoadTester A :=
  zoom walletManager set_walletManager p.

(** [hay.includes(needle)] *)
Fixpoint includes (needle hay : string) : bool :=
  String.prefix needle hay ||
  match hay with
  | EmptyString => false
  | String _ hay' => includes needle hay'
  end.

(** [ethers.parseEther('0.0001')] *)
Definition transactionAmount : Z := 100000000000000.

Definition is_nonce_issue (error : Error) : bool :=
  includes "nonce" (message error) || includes "replacement" (message error).

Definition sendTransaction (wallet : Wallet) : prog LoadTester unit :=
  nonce ← on_walletManager (getNextNonce (address wallet));
  recipient ← gets (λ lt, address (masterWallet (walletManager lt)));
  let amount := transactionAmount in
  try_catch
    (tx ← sendTx {| tx_from := address wallet; tx_to := recipient;
                    tx_value := amount; tx_nonce := nonce |};
     modify incr_total;;
     receipt ← wait tx;
     if status receipt =? 1
     then modify incr_successful
     else modify incr_failed)
    (λ error,
       modify incr_failed;;
       (if is_nonce_issue error
        then on_walletManager (updateNonce (address wallet));; mret tt
        else mret tt);;
       Fail error).

(** The [for] loop of [runWalletTransactions]: [n] iterations remain,
    the loop variable is [i]. *)
Fixpoint wallet_loop (wallet : Wallet) (cfg : Config) (n : nat) (i : Z)
    : prog LoadTester unit :=
  match n with
  | O => mret tt
  | S n' =>
      running ← gets isRunning;
      if negb running then mret tt
      else
        try_catch
          (sendTransaction wallet;;
           if i <? transactionsPerWallet cfg - 1
           then sleep (intervalMs cfg) 1
           else mret tt)
          (λ error, modify incr_failed);;
        wallet_loop wallet cfg n' (i + 1)
  end.

(** [this.config] is assigned by the constructor only; it is read once
    here. *)
Definition runWalletTransactions (wallet : Wallet) (walletIndex : nat)
    : prog LoadTester unit :=
  lt ← Get Done;
  let cfg := config lt in
  sleep (Z.of_nat walletIndex * intervalMs cfg)
        (Z.of_nat (length (childWallets (walletManager lt))));;
  wallet_loop wallet cfg (Z.to_nat (transactionsPerWallet cfg)) 0.

(** A bound on the suspension points of one [runWalletTransactions]:
    the stagger, and per iteration the broadcast, the confirmation, the
    nonce update and the interval. *)
Definition wallet_fuel (cfg : Config) : nat :=
  1 + 4 * Z.to_nat (transactionsPerWallet cfg).

Definition stop (lt : LoadTester) : LoadTester := set_isRunning false lt.

Definition getStats (lt : LoadTester) : Stats := stats lt.

Section LoadTesterMethods.
Context {World : Type}.
Variable respond : World → Call → Response * World.
Variable choose : World → list nat → nat.

Local Abbreviation M := (@M World LoadTester).

(** [Date.now()] *)
Definition date_now : M Z :=
  r ← ask respond DateNow;
  match r with
  | Fulfilled (VNumber n) => mret n
  | Fulfilled _ => throw type_error
  | Rejected e => throw e
  end.

Definition initializeNonces (wallets : list Wallet) : M unit :=
  promise_all respond choose (length wallets) 0
    (map (λ wallet,
            on_walletManager (updateNonce (address wallet));; mret tt)
         wallets);;
  mret tt.

(** [wallets.map((wallet, index) => this.runWalletTransactions(wallet,
    index))] followed by [await Promise.all(walletPromises)]. *)
Definition dispatch (wallets : list Wallet) (cfg : Config) : M (list unit) :=
  promise_all respond choose (length wallets * wallet_fuel cfg) 0
    (imap (λ index wallet, runWalletTransactions wallet index) wallets).

Definition startLoadTest : M unit :=
  lt ← get_state;
  if isRunning lt then throw (mkError "Load test is already running")
  else
    put_state (set_isRunning true lt);;
    now ← date_now;
    lt ← get_state;
    put_state (reset_stats now lt);;
    lt ← get_state;
    let wallets := childWallets (walletManager lt) in
    initializeNonces wallets;;
    M_finally
      (M_catch
         (dispatch wallets (config lt);; mret tt)
         (λ error, mret tt))
      (lt ← get_state;
       put_state (set_isRunning false lt);;
       now ← date_now;
       lt ← get_state;
       put_state (set_endTime now lt)).

End LoadTesterMethods.

(** ** Auxiliary definitions for the statements *)

(** A sequence of [getNextNonce] calls, one per listed address. *)
Fixpoint allocate_each (addrs : list Address) : prog WalletManager (list Z) :=
  match addrs with
  | [] => mret []
  | a :: rest =>
      v ← getNextNonce a;
      vs ← allocate_each rest;
      mret (v :: vs)
  end.

(** The values that the calls for address [a] returned. *)
Fixpoint allocated_to (a : Address) (addrs : list Address) (vs : list Z) : list Z :=
  match addrs, vs with
  | b :: addrs', v :: vs' =>
      if decide (b = a) then v :: allocated_to a addrs' vs'
      else allocated_to a addrs' vs'
  | _, _ => []
  end.


(** ** Histories of requests and path properties of asynchronous functions *)

Global Instance actor_eq_dec : EqDecision actor.
Proof. solve_decision. Defined.

Definition actor_of (e : Event) : actor :=
  match e with
  | Issue a _ => a
  | Settle a _ _ => a
  end.

(** The requests of one actor that were answered, with the answers. *)
Definition hist : Type := list (Call * Response).

Fixpoint local (who : actor) (tr : list Event) : hist :=
  match tr with
  | [] => []
  | Settle a c r :: tr' =>
      if decide (a = who) then (c, r) :: local who tr' else local who tr'
  | Issue _ _ :: tr' => local who tr'
  end.

(** A property of every event of a trace, given the events before it. *)
Definition each_event (Φ : list Event → Event → Prop) (tr : list Event) : Prop :=
  ∀ t1 e t2, tr = t1 ++ e :: t2 → Φ t1 e.

Section Obeys.
Context {St A : Type}.

(** [P h c]: request [c] may be issued after the answered requests [h];
    [Q h a]: result [a] may be returned after [h];
    [R h e]: error [e] may be thrown after [h]. *)
Variable P : hist → Call → Prop.
Variable Q : hist → A → Prop.
Variable R : hist → Error → Prop.

(** Every path through the function respects [P], [Q] and [R],
    whatever the answers are and whatever state the object is found in
    (other promises may have changed it in between). *)
Inductive obeys : hist → prog St A → Prop :=
| obeys_done h a : Q h a → obeys h (Done a)
| obeys_fail h e : R h e → obeys h (Fail e)
| obeys_await h c k :
    P h c → (∀ r, obeys (h ++ [(c, r)]) (k r)) → obeys h (Await c k)
| obeys_get h k : (∀ s, obeys h (k s)) → obeys h (Get k)
| obeys_put h s k : obeys h k → obeys h (Put s k).

End Obeys.

(** At most [n] suspension points on every path. *)
Inductive depth_le {St A} : nat → prog St A → Prop :=
| depth_done n a : depth_le n (Done a)
| depth_fail n e : depth_le n (Fail e)
| depth_await n c k : (∀ r, depth_le n (k r)) → depth_le (S n) (Await c k)
| depth_get n k : (∀ s, depth_le n (k s)) → depth_le n (Get k)
| depth_put n s k : depth_le n k → depth_le n (Put s k).

(** A promise of a running pool: fulfilled or suspended. *)
Definition is_live {St A} (p : prog St A) : Prop :=
  match p with
  | Done _ | Await _ _ => True
  | _ => False
  end.

Section PoolEvents.
Context {A : Type}.
Variable P : nat → hist → Call → Prop.
Variable Q : nat → hist → A → Prop.

(** What holds of an event [e] of a pool after the events [t1], when
    the promises started with the histories [hs]: it belongs to a
    promise of the pool; a request is issued right after the answer to
    the previous request of the same promise, and is allowed there; and
    the promise that was answered just before [e] either issues [e] or
    is fulfilled. *)
Definition step_ok (base : nat) (hs : list hist)
    (t1 : list Event) (e : Event) : Prop :=
  (∃ i h, actor_of e = Task (base + i) ∧ hs !! i = Some h ∧
     ∀ c, e = Issue (Task (base + i)) c →
       P i (h ++ local (Task (base + i)) t1) c ∧
       ∃ t0 c0 r0, t1 = t0 ++ [Settle (Task (base + i)) c0 r0]) ∧
  (∀ t0 j hj c r,
     t1 = t0 ++ [Settle (Task (base + j)) c r] → hs !! j = Some hj →
     (∃ c', e = Issue (Task (base + j)) c') ∨
     (∃ a, Q j (hj ++ local (Task (base + j)) t1) a)).
End PoolEvents.

(** A function that never touches [this]. *)
Inductive stateless {St A} : prog St A → Prop :=
| stateless_done a : stateless (Done a)
| stateless_fail e : stateless (Fail e)
| stateless_await c k : (∀ r, stateless (k r)) → stateless (Await c k).

(** ** Vocabulary of the statements about fund distribution *)

(** An answer that makes the awaiting function throw [e]. *)
Definition bad_answer (r : Response) (e : Error) : Prop :=
  r = Rejected e ∨ ∃ v, r = Fulfilled v ∧ e = type_error.

(** The path of one transfer of [distributeFunds]: the broadcast of
    [req], then the wait for the transaction it returned. *)
Definition transfer_may_issue (req : TxRequest) (h : hist) (c : Call) : Prop :=
  (h = [] ∧ c = SendTransaction req) ∨
  ∃ tx, h = [(SendTransaction req, Fulfilled (VTx tx))] ∧ c = WaitTx tx.

Definition transfer_done (req : TxRequest) (h : hist) (tx : TxResponse) : Prop :=
  ∃ rc, h = [(SendTransaction req, Fulfilled (VTx tx));
             (WaitTx tx, Fulfilled (VReceipt rc))].

Definition transfer_failed (h : hist) (e : Error) : Prop :=
  ∃ h0 c r, h = h0 ++ [(c, r)] ∧ bad_answer r e.

(** The request of the transfer to the wallet at index [i] of the pool. *)
Definition transfer_request (wm : WalletManager) (amountPerWallet n0 : Z)
    (i : nat) (wallet : Wallet) : TxRequest :=
  {| tx_from := address (masterWallet wm);
     tx_to := address wallet;
     tx_value := amountPerWallet;
     tx_nonce := n0 + Z.of_nat i |}.

(** The transfer of actor [i] was broadcast / reached a terminal state. *)
Definition issued_transfer (i : nat) (tr : list Event) : Prop :=
  ∃ req, Issue (Task i) (SendTransaction req) ∈ tr.

Definition confirmed (i : nat) (tr : list Event) : Prop :=
  ∃ tx rc, Settle (Task i) (WaitTx tx) (Fulfilled (VReceipt rc)) ∈ tr.

(** The two errors [distributeFunds] throws for lack of funds. *)
Definition InsufficientFunds (e : Error) : Prop :=
  message e = "Master wallet has no funds to distribute"%string ∨
  message e = "Insufficient funds after reserving gas"%string.

Section DistributionEvents.
Variable wm : WalletManager.
Variables share n0 : Z.

(** The promises of the batch that starts at wallet [b]. *)
Definition batch_tasks (b : nat) (batch : list Wallet)
    : list (prog WalletManager TxResponse) :=
  imap (λ batchIndex wallet,
          transfer (address (masterWallet wm)) wallet share
                   (n0 + Z.of_nat b + Z.of_nat batchIndex))
       batch.

(** The path properties of the promise at position [i] of that batch. *)
Definition batch_may_issue (b : nat) (batch : list Wallet) (i : nat)
    (h : hist) (c : Call) : Prop :=
  ∃ wallet, batch !! i = Some wallet ∧
    transfer_may_issue (transfer_request wm share n0 (b + i) wallet) h c.

Definition batch_done (b : nat) (batch : list Wallet) (i : nat)
    (h : hist) (tx : TxResponse) : Prop :=
  ∃ wallet, batch !! i = Some wallet ∧
    transfer_done (transfer_request wm share n0 (b + i) wallet) h tx.

(** What holds of an event [e] of the batches starting at wallet [b],
    given the events [t1] that precede it: it belongs to the transfer
    of a wallet from [b] on; a request is a broadcast or a wait; a
    broadcast is the one planned for its wallet; when a transfer is
    answered, all transfers of its batch have been broadcast; when a
    request is issued, all transfers of earlier batches are confirmed;
    batches do not overlap; and nothing follows a rejection. *)
Definition distribution_event_ok (b : nat) (t1 : list Event) (e : Event) : Prop :=
  (∃ j, actor_of e = Task j ∧ (b ≤ j < length (childWallets wm))%nat) ∧
  (∀ who c, e = Issue who c →
     (∃ req, c = SendTransaction req) ∨ (∃ tx, c = WaitTx tx)) ∧
  (∀ i req, e = Issue (Task i) (SendTransaction req) →
     ∃ wallet, childWallets wm !! i = Some wallet ∧
               req = transfer_request wm share n0 i wallet) ∧
  (∀ j c r, e = Settle (Task j) c r →
     ∀ i, (b ≤ i < length (childWallets wm))%nat → (i / 20 = j / 20)%nat →
          issued_transfer i t1) ∧
  (∀ j c, e = Issue (Task j) c →
     ∀ i, (b ≤ i)%nat → (i / 20 < j / 20)%nat → confirmed i t1) ∧
  (∀ e' i j, e' ∈ t1 → actor_of e' = Task i → actor_of e = Task j →
             (i / 20 ≤ j / 20)%nat) ∧
  (∀ t0 j c e0, t1 ≠ t0 ++ [Settle (Task j) c (Rejected e0)]).
End DistributionEvents.

(** ** A scripted environment for concrete runs *)

(** The world is the list of answers still to come; requests are
    answered in order, whatever they are. *)
Definition scripted_respond (w : list Response) (c : Call)
    : Response * list Response :=
  match w with
  | r :: w' => (r, w')
  | [] => (Fulfilled VUndefined, [])
  end.

(** The event loop settles the oldest / the youngest suspended promise. *)
Definition oldest_first (w : list Response) (ids : list nat) : nat :=
  default 0%nat (head ids).

Definition youngest_first (w : list Response) (ids : list nat) : nat :=
  default 0%nat (last ids).

Definition demo_master : Wallet := mkWallet "0xMASTER".

(** A manager with [n] child wallets named by their index. *)
Definition demo_manager (n : nat) : WalletManager :=
  {| masterWallet := demo_master;
     childWallets := (λ i, mkWallet (JSNumber.digits (Z.of_nat i))) <$> seq 0 n;
     nonces := ∅ |}.

Definition ether : Z := 10 ^ 18.

(** ** Vocabulary of the statements about fund collection *)

Definition estimated_cost (g : option Z) : Z := 1000000 * gasPrice_or_default g.

(** The request that sweeps [bal] out of wallet [a], given the fee data
    [g] and the pending nonce [n]. *)
Definition sweep_request (a master : Address) (bal : Z) (g : option Z) (n : Z)
    : TxRequest :=
  {| tx_from := a; tx_to := master;
     tx_value := bal - estimated_cost g; tx_nonce := n |}.

(** The record of one wallet, from the answers it received: nothing to
    collect, balance within the estimated gas cost, swept and confirmed,
    swept and reverted, or an error on the way. *)
Inductive collected (a master : Address) : hist → CollectResult → Prop :=
| collected_empty :
    collected a master
      [(GetBalance a, Fulfilled (VBigInt 0))]
      {| success := true; amount := 0 |}
| collected_dust bal g :
    bal ≠ 0 → bal ≤ estimated_cost g →
    collected a master
      [(GetBalance a, Fulfilled (VBigInt bal));
       (GetFeeData, Fulfilled (VFeeData g))]
      {| success := true; amount := 0 |}
| collected_swept bal g n tx rc :
    bal ≠ 0 → estimated_cost g < bal → status rc = 1 →
    collected a master
      [(GetBalance a, Fulfilled (VBigInt bal));
       (GetFeeData, Fulfilled (VFeeData g));
       (GetTransactionCount a, Fulfilled (VNumber n));
       (SendTransaction (sweep_request a master bal g n), Fulfilled (VTx tx));
       (WaitTx tx, Fulfilled (VReceipt rc))]
      {| success := true; amount := bal - estimated_cost g |}
| collected_reverted bal g n tx rc :
    bal ≠ 0 → estimated_cost g < bal → status rc ≠ 1 →
    collected a master
      [(GetBalance a, Fulfilled (VBigInt bal));
       (GetFeeData, Fulfilled (VFeeData g));
       (GetTransactionCount a, Fulfilled (VNumber n));
       (SendTransaction (sweep_request a master bal g n), Fulfilled (VTx tx));
       (WaitTx tx, Fulfilled (VReceipt rc))]
      {| success := false; amount := 0 |}
| collected_error h c r e :
    last h = Some (c, r) → bad_answer r e →
    collected a master h {| success := false; amount := 0 |}.

(** A wallet broadcasts only after it saw a balance above the estimated
    cost, and then the sweep of exactly the difference. *)
Definition collect_may_issue (a master : Address) (h : hist) (c : Call) : Prop :=
  ∀ req, c = SendTransaction req →
    ∃ bal g n,
      h = [(GetBalance a, Fulfilled (VBigInt bal));
           (GetFeeData, Fulfilled (VFeeData g));
           (GetTransactionCount a, Fulfilled (VNumber n))] ∧
      estimated_cost g < bal ∧
      req = sweep_request a master bal g n.

(** The sum of the amounts of the successful records. *)
Definition sum_collected (results : list CollectResult) : Z :=
  foldr (λ r acc, (if success r then amount r else 0) + acc) 0 results.

Definition count_successful (results : list CollectResult) : Z :=
  Z.of_nat (length (filter (λ r, success r = true) results)).

(** ** Vocabulary of the statements about wallet creation and dispatch *)

(** The wallets the generator handed out, in order. *)
Fixpoint generated (tr : list Event) : list Wallet :=
  match tr with
  | [] => []
  | Settle Main CreateRandom (Fulfilled (VWallet wallet)) :: tr' =>
      wallet :: generated tr'
  | _ :: tr' => generated tr'
  end.

Definition zero_stats : Stats :=
  {| totalTransactions := 0; successfulTransactions := 0;
     failedTransactions := 0; startTime := None; endTime := None |}.

(** A run of one wallet, one transaction, every request answered
    favourably: the two clock readings, the nonce initialisation, the
    stagger, the broadcast and the confirmation. *)
Definition favourable_script : list Response :=
  [Fulfilled (VNumber 1000);
   Fulfilled (VNumber 7);
   Fulfilled VUndefined;
   Fulfilled (VTx (mkTxResponse "0xHASH"));
   Fulfilled (VReceipt (mkReceipt 1 42));
   Fulfilled (VNumber 2000)].

(** The transactions that were broadcast, in order. *)
Fixpoint broadcasts (tr : list Event) : list TxRequest :=
  match tr with
  | [] => []
  | Issue _ (SendTransaction req) :: tr' => req :: broadcasts tr'
  | _ :: tr' => broadcasts tr'
  end.

(** What a wallet's loop may request after the answered requests [h]:
    a sleep only at the very start (the stagger) or right after a
    fulfilled broadcast and a fulfilled confirmation; a confirmation
    only for the transaction just broadcast; a nonce query only right
    after a rejection that mentions the nonce; and broadcasts. *)
Definition dispatch_may_issue (h : hist) (c : Call) : Prop :=
  match c with
  | Sleep _ _ =>
      h = [] ∨
      ∃ h0 req tx rc,
        h = h0 ++ [(SendTransaction req, Fulfilled (VTx tx));
                   (WaitTx tx, Fulfilled (VReceipt rc))]
  | SendTransaction _ => True
  | WaitTx tx => ∃ req, last h = Some (SendTransaction req, Fulfilled (VTx tx))
  | GetTransactionCount _ =>
      ∃ c0 e, last h = Some (c0, Rejected e) ∧ is_nonce_issue e = true
  | _ => False
  end.

(** The answered requests end with a fulfilled broadcast and its
    fulfilled confirmation. *)
Definition ends_confirmed (h : hist) : Prop :=
  ∃ h0 req tx rc,
    h = h0 ++ [(SendTransaction req, Fulfilled (VTx tx));
               (WaitTx tx, Fulfilled (VReceipt rc))].

(** A generator that never fails: the world counts the wallets handed
    out so far, every other request is answered with [undefined]. *)
Definition counting_respond (w : nat) (c : Call) : Response * nat :=
  match c with
  | CreateRandom =>
      (Fulfilled (VWallet (mkWallet (JSNumber.digits (Z.of_nat w)))), S w)
  | _ => (Fulfilled VUndefined, S w)
  end.

(** A running tester with one wallet. *)
Definition demo_tester : LoadTester :=
  set_isRunning true (LoadTester_new (demo_manager 1) (mkConfig 2 0)).

Definition nonce_too_low : Error := mkError "nonce too low".

(** Ten ether for two wallets, pending nonce 5; the first transfer is
    broadcast and then rejected at confirmation. *)
Definition rejecting_script : list Response :=
  [Fulfilled (VBigInt (10 * ether));
   Fulfilled (VNumber 5);
   Fulfilled (VTx (mkTxResponse "0xT0"));
   Rejected (mkError "transaction failed")].

(** The same, with both transfers broadcast and confirmed. *)
Definition confirming_script : list Response :=
  [Fulfilled (VBigInt (10 * ether));
   Fulfilled (VNumber 5);
   Fulfilled (VTx (mkTxResponse "0xT0"));
   Fulfilled (VReceipt (mkReceipt 1 1));
   Fulfilled (VTx (mkTxResponse "0xT1"));
   Fulfilled (VReceipt (mkReceipt 1 1))].

(** Ten ether for ten wallets, pending nonce 3, every transfer broadcast
    and confirmed. *)
Definition ten_wallets_script : list Response :=
  [Fulfilled (VBigInt (10 * ether)); Fulfilled (VNumber 3)]
  ++ mjoin (replicate 10 [Fulfilled (VTx (mkTxResponse "0xT"));
                          Fulfilled (VReceipt (mkReceipt 1 1))]).

(** A collection over three wallets, settled youngest first: wallet 2
    holds 1 ether and is swept at the default fee, wallet 1 holds less
    than the estimated cost, wallet 0 is empty; the master wallet ends
    with 5 ether. *)
Definition collection_script : list Response :=
  [Fulfilled (VBigInt ether);
   Fulfilled (VFeeData None);
   Fulfilled (VNumber 4);
   Fulfilled (VTx (mkTxResponse "0xSWEEP"));
   Fulfilled (VReceipt (mkReceipt 1 8));
   Fulfilled (VBigInt 1000);
   Fulfilled (VFeeData (Some 1));
   Fulfilled (VBigInt 0);
   Fulfilled (VBigInt (5 * ether))].

(** * Further vocabulary *)

(** ** Validation of the configuration *)

(** The five rules of [validateConfig], with the line each one reports. *)
Definition rule_violations (c : AppConfig) : list (bool * string) :=
  [(falsy (privateKey c), "PRIVATE_KEY is required in .env file"%string);
   (falsy (Some (rpcUrl c)), "RPC_URL is required in .env file"%string);
   (numWallets c <=? 0, "NUM_WALLETS must be greater than 0"%string);
   (cfg_transactionsPerWallet c <=? 0,
    "TRANSACTIONS_PER_WALLET must be greater than 0"%string);
   (cfg_intervalMs c <? 0, "TRANSACTION_INTERVAL_MS must be non-negative"%string)].

(** ** Vocabulary of the statements about the nonce table *)

(** The nonce table after the registration of the listed wallets, in
    order: each one is entered with nonce 0. *)
Definition registered (wallets : list Wallet) (table : gmap Address Z)
    : gmap Address Z :=
  foldl (λ t wallet, <[address wallet := 0]> t) table wallets.

(** The number of calls for address [a] among the listed ones. *)
Definition calls_for (a : Address) (addrs : list Address) : nat :=
  length (filter (λ b, b = a) addrs).

(** ** Vocabulary of the statements about the distribution *)

(** The reserve of [len] wallets is at least the nominal 0.01 ether per
    wallet and exceeds it by at most [slack] wei. *)
Definition reserve_within (slack : Z) (len : nat) : bool :=
  match gasReserve len with
  | Some r => (Z.of_nat len * 10 ^ 16 <=? r) && (r <=? Z.of_nat len * 10 ^ 16 + slack)
  | None => false
  end.

(** The transfers [distributeFunds] plans: one per wallet of the pool,
    in pool order. *)
Definition planned_transfers (wm : WalletManager) (share n0 : Z) : list TxRequest :=
  imap (transfer_request wm share n0) (childWallets wm).

Definition total_value (reqs : list TxRequest) : Z :=
  foldr (λ req acc, tx_value req + acc) 0 reqs.

(** ** What a function does to [this] between two suspension points *)

Section Respects.
Context {St A : Type}.

(** [G c r s0 s next]: after the answer [r] to its request [c], a
    function that found the object in state [s0] leaves it in state
    [s] when it issues its next request ([next = Some c']) or ends
    ([next = None]). *)
Variable G : Call → Response → St → St → option Call → Prop.

(** [respects rel s0 s p]: [p] runs in a stretch that began in state
    [s0], the object is now in state [s]; the stretch satisfies [rel]
    when it ends, and every later stretch satisfies [G], whatever
    state the function finds when it is resumed (other promises may
    have changed the object in between). *)
Inductive respects
    : (St → St → option Call → Prop) → St → St → prog St A → Prop :=
| respects_done (rel : St → St → option Call → Prop) s0 s a :
    rel s0 s None → respects rel s0 s (Done a)
| respects_fail (rel : St → St → option Call → Prop) s0 s e :
    rel s0 s None → respects rel s0 s (Fail e)
| respects_await (rel : St → St → option Call → Prop) s0 s c k :
    rel s0 s (Some c) →
    (∀ r s', respects (G c r) s' s' (k r)) →
    respects rel s0 s (Await c k)
| respects_get rel s0 s k :
    respects rel s0 s (k s) → respects rel s0 s (Get k)
| respects_put rel s0 s s' k :
    respects rel s0 s' k → respects rel s0 s (Put s' k).

(** A suspended promise all of whose later stretches satisfy [G]. *)
Definition parked (q : prog St A) : Prop :=
  match q with
  | Await c k => ∀ r s', respects (G c r) s' s' (k r)
  | _ => True
  end.
End Respects.

(** The object along the settling of a pool: every answer to promise
    [i] takes it one [G i] stretch further. *)
Inductive evolves {St} (G : nat → Call → Response → St → St → option Call → Prop)
    (base : nat) : St → list Event → St → Prop :=
| evolves_nil s : evolves G base s [] s
| evolves_issue s s1 s' i c r c' tr :
    G i c r s s1 (Some c') → evolves G base s1 tr s' →
    evolves G base s
      (Settle (Task (base + i)) c r :: Issue (Task (base + i)) c' :: tr) s'
| evolves_end s s1 s' i c r tr :
    G i c r s s1 None → evolves G base s1 tr s' →
    evolves G base s (Settle (Task (base + i)) c r :: tr) s'.
(** ** The counters of the load tester, request by request *)

(** The error that a broadcast, or a confirmation, raises in
    [sendTransaction]: the rejection, or the type error of an answer of
    the wrong shape. *)
Definition send_failure (r : Response) : option Error :=
  match r with
  | Fulfilled (VTx _) => None
  | Fulfilled _ => Some type_error
  | Rejected e => Some e
  end.

Definition wait_failure (r : Response) : option Error :=
  match r with
  | Fulfilled (VReceipt _) => None
  | Fulfilled _ => Some type_error
  | Rejected e => Some e
  end.

(** What the answer [r] to the request [c] of a wallet's loop adds to
    [totalTransactions], [successfulTransactions] and
    [failedTransactions] before the loop is suspended again.  An error
    is counted in the handler of [sendTransaction] and once more in the
    handler of the loop; when it mentions the nonce, the nonce query
    comes in between, and the second count follows its answer. *)
Definition failure_delta (e : Error) : Z * Z * Z :=
  (0, 0, if is_nonce_issue e then 1 else 2).

Definition stats_delta (c : Call) (r : Response) : Z * Z * Z :=
  match c with
  | SendTransaction _ =>
      match send_failure r with
      | None => (1, 0, 0)
      | Some e => failure_delta e
      end
  | WaitTx _ =>
      match r with
      | Fulfilled (VReceipt rc) => if status rc =? 1 then (0, 1, 0) else (0, 0, 1)
      | Fulfilled _ => failure_delta type_error
      | Rejected e => failure_delta e
      end
  | GetTransactionCount _ => (0, 0, 1)
  | _ => (0, 0, 0)
  end.

Definition bump (d : Z * Z * Z) (st : Stats) : Stats :=
  {| totalTransactions := totalTransactions st + d.1.1;
     successfulTransactions := successfulTransactions st + d.1.2;
     failedTransactions := failedTransactions st + d.2;
     startTime := startTime st;
     endTime := endTime st |}.

(** The cached nonce after the answer [r] to [c]: the count the ledger
    reported, when [c] is the nonce query and it was answered. *)
Definition resynced (c : Call) (r : Response) (cached : option Z) : option Z :=
  match c, r with
  | GetTransactionCount _, Fulfilled (VNumber n) => Some n
  | _, _ => cached
  end.

(** One stretch of the loop of [wallet]: the configuration, the flag,
    the wallets and the clock readings are left alone; the counters grow
    by [stats_delta]; no nonce but that of [wallet] is touched; and a
    broadcast is issued only when the flag was set, for the fixed
    amount, to the master wallet, with the cached nonce, which is then
    advanced by one. *)
Definition wallet_step (wallet : Wallet) (c : Call) (r : Response)
    (s0 s : LoadTester) (next : option Call) : Prop :=
  let a := address wallet in
  let cached := resynced c r (nonces (walletManager s0) !! a) in
  config s = config s0 ∧
  isRunning s = isRunning s0 ∧
  masterWallet (walletManager s) = masterWallet (walletManager s0) ∧
  childWallets (walletManager s) = childWallets (walletManager s0) ∧
  stats s = bump (stats_delta c r) (stats s0) ∧
  (∀ b, b ≠ a →
     nonces (walletManager s) !! b = nonces (walletManager s0) !! b) ∧
  match next with
  | Some (SendTransaction req) =>
      isRunning s0 = true ∧
      req = {| tx_from := a;
               tx_to := address (masterWallet (walletManager s0));
               tx_value := transactionAmount;
               tx_nonce := default 0 cached |} ∧
      nonces (walletManager s) !! a = Some (default 0 cached + 1)
  | _ => nonces (walletManager s) !! a = cached
  end.

(** The broadcast an iteration of the loop of [wallet] makes when it
    finds the tester in state [s], and the state it leaves. *)
Definition next_request (wallet : Wallet) (s : LoadTester) : TxRequest :=
  {| tx_from := address wallet;
     tx_to := address (masterWallet (walletManager s));
     tx_value := transactionAmount;
     tx_nonce := default 0 (nonces (walletManager s) !! address wallet) |}.

Definition after_allocation (wallet : Wallet) (s : LoadTester) : LoadTester :=
  set_walletManager
    (set_nonce (address wallet)
       (default 0 (nonces (walletManager s) !! address wallet) + 1)
       (walletManager s)) s.

(** The stretches of the dispatch of [startLoadTest]: promise [i] runs
    the loop of the wallet at index [i]. *)
Definition dispatch_step (wallets : list Wallet) (i : nat) (c : Call) (r : Response)
    (s0 s : LoadTester) (next : option Call) : Prop :=
  ∃ wallet, wallets !! i = Some wallet ∧ wallet_step wallet c r s0 s next.

(** The sum of the weights of the answers received by the promises. *)
Fixpoint weigh (φ : Call → Response → Z) (tr : list Event) : Z :=
  match tr with
  | [] => 0
  | Settle (Task _) c r :: tr' => φ c r + weigh φ tr'
  | _ :: tr' => weigh φ tr'
  end.

(** A broadcast that was accepted; a confirmation with status 1; a
    confirmation with another status; a broadcast or a confirmation
    that failed; a confirmation that failed. *)
Definition accepted (c : Call) (r : Response) : Z :=
  match c, r with
  | SendTransaction _, Fulfilled (VTx _) => 1
  | _, _ => 0
  end.

Definition confirmed_ok (c : Call) (r : Response) : Z :=
  match c, r with
  | WaitTx _, Fulfilled (VReceipt rc) => if status rc =? 1 then 1 else 0
  | _, _ => 0
  end.

Definition reverted (c : Call) (r : Response) : Z :=
  match c, r with
  | WaitTx _, Fulfilled (VReceipt rc) => if status rc =? 1 then 0 else 1
  | _, _ => 0
  end.

Definition failed_wait (c : Call) (r : Response) : Z :=
  match c with
  | WaitTx _ => match wait_failure r with Some _ => 1 | None => 0 end
  | _ => 0
  end.

Definition failed_request (c : Call) (r : Response) : Z :=
  match c with
  | SendTransaction _ => match send_failure r with Some _ => 1 | None => 0 end
  | WaitTx _ => match wait_failure r with Some _ => 1 | None => 0 end
  | _ => 0
  end.

(** The first requests of the dispatch: every wallet sleeps its share
    of the interval, [walletIndex * intervalMs / wallets.length]. *)
Definition stagger (wallets : list Wallet) (lt : LoadTester) : list Event :=
  imap (λ i (_ : Wallet),
          Issue (Task i)
                (Sleep (Z.of_nat i * intervalMs (config lt))
                       (Z.of_nat (length (childWallets (walletManager lt))))))
       wallets.

(** The sum of the weights of the answers of one history. *)
Definition weigh_hist (φ : Call → Response → Z) (h : hist) : Z :=
  foldr (λ cr acc, φ cr.1 cr.2 + acc) 0 h.

Definition sum_upto (n : nat) (f : nat → Z) : Z :=
  foldr (λ i acc, f i + acc) 0 (seq 0 n).

(** A failure whose error mentions the nonce. *)
Definition nonce_failure (c : Call) (r : Response) : Z :=
  match c with
  | SendTransaction _ =>
      match send_failure r with
      | Some e => if is_nonce_issue e then 1 else 0
      | None => 0
      end
  | WaitTx _ =>
      match wait_failure r with
      | Some e => if is_nonce_issue e then 1 else 0
      | None => 0
      end
  | _ => 0
  end.

(** An answer to the nonce query; an answer to a confirmation. *)
Definition nonce_answer (c : Call) (r : Response) : Z :=
  match c with GetTransactionCount _ => 1 | _ => 0 end.

Definition wait_answer (c : Call) (r : Response) : Z :=
  match c with WaitTx _ => 1 | _ => 0 end.

(** The nonce queries still to come, and the confirmations still to
    come, after the answered requests [h] of a wallet's loop. *)
Definition owed_resyncs (h : hist) : Z :=
  weigh_hist nonce_failure h - weigh_hist nonce_answer h.

Definition owed_waits (h : hist) : Z :=
  weigh_hist accepted h - weigh_hist wait_answer h.

(** A request of the loop pays one of its debts, if any. *)
Definition pays_debts (h : hist) (c : Call) : Prop :=
  owed_resyncs h = (match c with GetTransactionCount _ => 1 | _ => 0 end) ∧
  owed_waits h = (match c with WaitTx _ => 1 | _ => 0 end).

Definition no_debts (h : hist) : Prop :=
  owed_resyncs h = 0 ∧ owed_waits h = 0.

(** ** Vocabulary of the statements about [initializeNonces] *)

(** The stretch of the promise of [initializeNonces] for address [a]:
    the answer to the nonce query is cached, and the promise ends. *)
Definition init_step (a : Address) (c : Call) (r : Response) (s0 s : LoadTester)
    (next : option Call) : Prop :=
  next = None ∧
  c = GetTransactionCount a ∧
  s = match r with
      | Fulfilled (VNumber n) =>
          set_walletManager (set_nonce a n (walletManager s0)) s0
      | _ => s0
      end.

Definition init_steps (wallets : list Wallet) (i : nat) (c : Call) (r : Response)
    (s0 s : LoadTester) (next : option Call) : Prop :=
  ∃ wallet, wallets !! i = Some wallet ∧ init_step (address wallet) c r s0 s next.

(** The count the ledger reported last for address [a], if any. *)
Fixpoint last_count (a : Address) (tr : list Event) : option Z :=
  match tr with
  | [] => None
  | Settle _ (GetTransactionCount b) (Fulfilled (VNumber n)) :: tr' =>
      match last_count a tr' with
      | Some m => Some m
      | None => if decide (b = a) then Some n else None
      end
  | _ :: tr' => last_count a tr'
  end.

(** ** Vocabulary of the statements about the broadcasts of the load test *)

(** The cached nonce of the wallet of promise [i] along a trace: a
    broadcast of the promise advances it past the nonce it used, a
    count reported to the promise replaces it. *)
Definition cache_step (i : nat) (cached : option Z) (e : Event) : option Z :=
  match e with
  | Issue (Task j) (SendTransaction req) =>
      if decide (j = i) then Some (tx_nonce req + 1) else cached
  | Settle (Task j) (GetTransactionCount _) (Fulfilled (VNumber n)) =>
      if decide (j = i) then Some n else cached
  | _ => cached
  end.

Definition cache_after (i : nat) (cached : option Z) (tr : list Event) : option Z :=
  foldl (cache_step i) cached tr.

(** What the loop of a wallet guarantees about the flag, whatever
    happens to the tester while it is suspended: no stretch changes the
    flag, and a stretch issues a broadcast only if it found the flag
    set. *)
Definition heeds_stop (c : Call) (r : Response) (s0 s : LoadTester)
    (next : option Call) : Prop :=
  isRunning s = isRunning s0 ∧
  (∀ req, next = Some (SendTransaction req) → isRunning s0 = true).

(** An environment that answers every request favourably, by its kind;
    the world is a clock that advances with every request. *)
Definition obliging_respond (w : nat) (c : Call) : Response * nat :=
  (match c with
   | GetBalance _ => Fulfilled (VBigInt ether)
   | GetTransactionCount _ => Fulfilled (VNumber 7)
   | GetFeeData => Fulfilled (VFeeData None)
   | SendTransaction _ => Fulfilled (VTx (mkTxResponse "0xHASH"))
   | WaitTx _ => Fulfilled (VReceipt (mkReceipt 1 (Z.of_nat w)))
   | Sleep _ _ => Fulfilled VUndefined
   | CreateRandom => Fulfilled (VWallet (mkWallet (JSNumber.digits (Z.of_nat w))))
   | DateNow => Fulfilled (VNumber (Z.of_nat w))
   end, S w).

(** The same, with a ledger that refuses to report nonces. *)
Definition refusing_respond (w : nat) (c : Call) : Response * nat :=
  match c with
  | GetTransactionCount _ => (Rejected (mkError "connection refused"), S w)
  | _ => obliging_respond w c
  end.

(** The event loop settles the promises in the order of the pool. *)
Definition in_order (w : nat) (ids : list nat) : nat := default 0%nat (head ids).

(** ** [src/index.js]: the main function *)

(** [getWalletBalance(wallet)] of the wallet manager. *)
Definition getWalletBalance (wallet : Wallet) : prog WalletManager Z :=
  getBalance (address wallet).

(** The variables of [main] that its handlers read: the wallet manager
    (undefined until it is constructed; the load tester is given the
    same object), the error caught by the outer handler, and the code
    passed to [process.exit]. *)
Record MainVars : Type := mkMainVars {
  walletManager_var : option WalletManager;
  error_var : option Error;
  exit_code : option Z
}.

Definition MainVars_init : MainVars :=
  {| walletManager_var := None; error_var := None; exit_code := None |}.

Definition set_walletManager_var (wm : WalletManager) (vars : MainVars) : MainVars :=
  {| walletManager_var := Some wm;
     error_var := error_var vars;
     exit_code := exit_code vars |}.

Definition set_error_var (e : Error) (vars : MainVars) : MainVars :=
  {| walletManager_var := walletManager_var vars;
     error_var := Some e;
     exit_code := exit_code vars |}.

Definition set_exit_code (code : Z) (vars : MainVars) : MainVars :=
  {| walletManager_var := walletManager_var vars;
     error_var := error_var vars;
     exit_code := Some code |}.

Section Main.
Context {World : Type}.
Variable respond : World → Call → Response * World.
Variable choose : World → list nat → nat.

(** [provider.getNetwork()]: its answer is only logged and its
    rejection is swallowed, so that all that remains of it is the
    passage of the world; it is not among the events. *)
Variable getNetwork : World → World.

(** [new ethers.Wallet(privateKey, provider)]: the wallet of a key, or
    the error the constructor throws for a malformed key. *)
Variable wallet_of_key : string → Wallet + Error.

(** A method of the wallet manager called from [main]. *)
Definition on_manager {A} (m : @M World WalletManager A) : @M World MainVars A :=
  λ vars w,
    match walletManager_var vars with
    | Some wm =>
        let '(o, wm', w', tr) := m wm w in
        (o, set_walletManager_var wm' vars, w', tr)
    | None => (Threw type_error, vars, w, [])
    end.

(** A method of the load tester [new LoadTester(walletManager, cfg)]:
    the tester works on the manager of [main], which sees what the
    tester did to it. *)
Definition with_loadTester {A} (cfg : Config) (m : @M World LoadTester A)
    : @M World WalletManager A :=
  λ wm w,
    let '(o, lt, w', tr) := m (LoadTester_new wm cfg) w in
    (o, walletManager lt, w', tr).

(** The loop that logs the balances of the first three wallets. *)
Fixpoint verify_balances (wallets : list Wallet) : @M World WalletManager unit :=
  match wallets with
  | [] => mret tt
  | wallet :: rest =>
      _ ← exec respond (getWalletBalance wallet);
      verify_balances rest
  end.

(** The [try] block of [main].  Signals are not delivered: the
    handlers of SIGINT and SIGTERM are registered but never run. *)
Definition main_try (config : AppConfig) : @M World MainVars unit :=
  match validateConfig config with
  | Threw e => throw e
  | _ =>
      (λ vars w, (Returned tt, vars, getNetwork w, []));;
      match wallet_of_key (default ""%string (privateKey config)) with
      | inr e => throw e
      | inl master =>
          vars ← get_state;
          put_state (set_walletManager_var (WalletManager_new master) vars);;
          masterBalance ← on_manager (exec respond (getBalance (address master)));
          if masterBalance =? 0
          then throw (mkError "Master wallet has no funds. Please fund the wallet before running the load test.")
          else
            on_manager (createWallets respond (numWallets config));;
            on_manager (distributeFunds respond choose);;
            on_manager (wm ← get_state;
                        verify_balances (take 3 (childWallets wm)));;
            on_manager
              (with_loadTester
                 {| transactionsPerWallet := cfg_transactionsPerWallet config;
                    intervalMs := cfg_intervalMs config |}
                 (startLoadTest respond choose))
      end
  end.

(** The [finally] block of [main]. *)
Definition main_finally : @M World MainVars unit :=
  M_catch
    (vars ← get_state;
     match walletManager_var vars with
     | Some wm =>
         if bool_decide (0 < length (childWallets wm))%nat
         then on_manager (collectAllFunds respond choose);; mret tt
         else mret tt
     | None => mret tt
     end)
    (λ collectionError, mret tt);;
  vars ← get_state;
  match error_var vars with
  | Some _ => put_state (set_exit_code 1 vars)
  | None => mret tt
  end.

Definition main (config : AppConfig) : @M World MainVars unit :=
  M_finally
    (M_catch (main_try config)
             (λ err, vars ← get_state; put_state (set_error_var err vars)))
    main_finally.
End Main.

(** The child wallets [main] has at hand. *)
Definition wallets_of (vars : MainVars) : list Wallet :=
  from_option childWallets [] (walletManager_var vars).

(** A method of the wallet manager that always comes back, keeps the
    master wallet and adds to the child wallets exactly the wallets the
    generator handed out meanwhile. *)
Definition tidy {World A} (m : @M World WalletManager A) : Prop :=
  ∀ wm w o wm' w' tr,
    m wm w = (o, wm', w', tr) →
    o ≠ OutOfFuel ∧
    masterWallet wm' = masterWallet wm ∧
    childWallets wm' = childWallets wm ++ generated tr.

(** The same for a stretch of [main], which moreover leaves the caught
    error and the exit code alone. *)
Definition orderly {World A} (m : @M World MainVars A) : Prop :=
  ∀ vars w o vars' w' tr,
    m vars w = (o, vars', w', tr) →
    o ≠ OutOfFuel ∧
    error_var vars' = error_var vars ∧
    exit_code vars' = exit_code vars ∧
    wallets_of vars' = wallets_of vars ++ generated tr.

(** A configuration that passes validation, a key constructor that
    accepts every key, and an environment whose ledger reports empty
    balances. *)
Definition demo_config : AppConfig :=
  {| privateKey := Some "0xKEY"%string;
     rpcUrl := "http://127.0.0.1:8545"%string;
     numWallets := 2;
     cfg_transactionsPerWallet := 2;
     cfg_intervalMs := 0 |}.

Definition any_key (key : string) : Wallet + Error := inl (mkWallet key).

Definition penniless_respond (w : nat) (c : Call) : Response * nat :=
  match c with
  | GetBalance _ => (Fulfilled (VBigInt 0), S w)
  | _ => obliging_respond w c
  end.

(** ** [src/config.js]: the configuration object *)

(** The variables of [process.env] that the module reads for the
    fields modelled here. *)
Record Env : Type := mkEnv {
  PRIVATE_KEY : option string;
  RPC_URL : option string;
  NUM_WALLETS : option string;
  TRANSACTIONS_PER_WALLET : option string;
  TRANSACTION_INTERVAL_MS : option string
}.

(** [s || d] for a string that may be undefined. *)
Definition or_string (s : option string) (d : string) : string :=
  if falsy s then d else default d s.

(** [n || d] for the result of [parseInt]: [None] is NaN. *)
Definition or_number (n : option Z) (d : Z) : Z :=
  match n with
  | Some n' => if n' =? 0 then d else n'
  | None => d
  end.

Section LoadConfig.
(** [parseInt] of a variable that may be undefined: an integer, or
    NaN.  The function itself is not modelled. *)
Variable parseInt : option string → option Z.

Definition load_config (env : Env) : AppConfig :=
  {| privateKey := PRIVATE_KEY env;
     rpcUrl := or_string (RPC_URL env) "http://127.0.0.1:8545";
     numWallets := or_number (parseInt (NUM_WALLETS env)) 10;
     cfg_transactionsPerWallet :=
       or_number (parseInt (TRANSACTIONS_PER_WALLET env)) 100;
     cfg_intervalMs := or_number (parseInt (TRANSACTION_INTERVAL_MS env)) 1000 |}.
End LoadConfig.

(** A variable whose integer value, if it has one, is not negative. *)
Definition not_negative (n : option Z) : Prop :=
  match n with
  | Some n' => 0 ≤ n'
  | None => True
  end.

(** ** Functions run on an object that stays within an invariant *)

Section Assuming.
Context {St A : Type}.

(** [inv] is an invariant of the object that [p] keeps: every state
    [p] assigns satisfies it, provided every state [p] reads does. *)
Variable inv : St → Prop.

Inductive preserves : prog St A → Prop :=
| preserves_done a : preserves (Done a)
| preserves_fail e : preserves (Fail e)
| preserves_await c k : (∀ r, preserves (k r)) → preserves (Await c k)
| preserves_get k : (∀ s, inv s → preserves (k s)) → preserves (Get k)
| preserves_put s k : inv s → preserves k → preserves (Put s k).

(** [assuming p] is [p] reading [normal s] wherever it reads the
    state [s]; with [normal] the identity on the states of the
    invariant, it is [p] as it runs on an object within the
    invariant. *)
Variable normal : St → St.

Fixpoint assuming (p : prog St A) : prog St A :=
  match p with
  | Done a => Done a
  | Fail e => Fail e
  | Await c k => Await c (λ r, assuming (k r))
  | Get k => Get (λ s, assuming (k (normal s)))
  | Put s k => Put s (assuming k)
  end.
End Assuming.

(** The load tester while a test with configuration [cfg] is running. *)
Definition in_test (cfg : Config) (lt : LoadTester) : Prop :=
  isRunning lt = true ∧ config lt = cfg.

Definition put_in_test (cfg : Config) (lt : LoadTester) : LoadTester :=
  {| walletManager := walletManager lt;
     config := cfg;
     isRunning := true;
     stats := stats lt |}.

(** Weight 1 for every answered broadcast request, accepted or not. *)
Definition attempted (c : Call) (r : Response) : Z :=
  match c with
  | SendTransaction _ => 1
  | _ => 0
  end.
(** * Properties *)

(** ** Basic facts about the semantics *)

Lemma M_bind_unfold {World St A B} (m : @M World St A) (f : A → @M World St B) s w :
  (m ≫= f) s w =
  match m s w with
  | (Returned a, s1, w1, tr1) =>
      let '(o, s2, w2, tr2) := f a s1 w1 in (o, s2, w2, tr1 ++ tr2)
  | (Threw e, s1, w1, tr1) => (Threw e, s1, w1, tr1)
  | (OutOfFuel, s1, w1, tr1) => (OutOfFuel, s1, w1, tr1)
  end.
Proof. reflexivity. Qed.

Lemma exec_bind {World St A B} (respond : World → Call → Response * World)
    (p : prog St A) (f : A → prog St B) s w :
  exec respond (p ≫= f) s w = (exec respond p ≫= λ a, exec respond (f a)) s w.
Proof.
  revert s w. induction p as [a|e|c k IH|k IH|s' k IH]; intros s w.
  - rewrite M_bind_unfold. cbn. by destruct (exec respond (f a) s w) as [[[? ?] ?] ?].
  - reflexivity.
  - rewrite M_bind_unfold. cbn. destruct (respond w c) as [r w1].
    change (pbind (k r) f) with (k r ≫= f). rewrite IH, M_bind_unfold.
    destruct (exec respond (k r) s w1) as [[[[a|e|] s2] w2] tr]; try done.
    by destruct (exec respond (f a) s2 w2) as [[[? ?] ?] ?].
  - cbn. apply IH.
  - cbn. apply IH.
Qed.

(** ** The sequence allocator *)

Lemma getNextNonce_exec {World} (respond : World → Call → Response * World)
    a (wm : WalletManager) w :
  exec respond (getNextNonce a) wm w =
  (Returned (default 0 (nonces wm !! a)),
   set_nonce a (default 0 (nonces wm !! a) + 1) wm, w, []).
Proof. reflexivity. Qed.

Lemma allocate_each_exec {World} (respond : World → Call → Response * World)
    a addrs : ∀ (wm : WalletManager) w,
  ∃ vs wm',
    exec respond (allocate_each addrs) wm w = (Returned vs, wm', w, []) ∧
    length vs = length addrs ∧
    allocated_to a addrs vs
      = seqZ (default 0 (nonces wm !! a)) (Z.of_nat (length (allocated_to a addrs vs))) ∧
    nonces wm' !! a
      = (if decide (a ∈ addrs)
         then Some (default 0 (nonces wm !! a)
                    + Z.of_nat (length (allocated_to a addrs vs)))
         else nonces wm !! a).
Proof.
  induction addrs as [|b rest IH]; intros wm w.
  - exists [], wm. cbn. repeat split; try done.
  - destruct (IH (set_nonce b (default 0 (nonces wm !! b) + 1) wm) w)
      as (vs & wm' & Hex & Hlen & Hseq & Hfin).
    exists (default 0 (nonces wm !! b) :: vs), wm'.
    split; [|split; [|split]].
    + cbn [allocate_each]. rewrite exec_bind, M_bind_unfold, getNextNonce_exec.
      rewrite exec_bind, M_bind_unfold, Hex. reflexivity.
    + cbn. by rewrite Hlen.
    + cbn [allocated_to]. destruct (decide (b = a)) as [->|Hne].
      * cbn [length]. rewrite Nat2Z.inj_succ, seqZ_cons by lia.
        f_equal. rewrite Hseq at 1. cbn. rewrite lookup_insert_eq. cbn.
        f_equal; lia.
      * rewrite Hseq at 1. cbn. by rewrite lookup_insert_ne.
    + rewrite Hfin. cbn [allocated_to]. destruct (decide (b = a)) as [->|Hne].
      * cbn. rewrite lookup_insert_eq. cbn.
        destruct (decide (a ∈ a :: rest)) as [_|Hn']; [|exfalso; apply Hn'; by left].
        destruct (decide (a ∈ rest)) as [|Hn]; f_equal.
        -- lia.
        -- assert (allocated_to a rest vs = []) as ->; [|cbn; lia].
           clear -Hn. revert vs. induction rest as [|x rest IH]; intros [|v vs]; try done.
           cbn. apply not_elem_of_cons in Hn as [? ?].
           rewrite decide_False by done. by apply IH.
      * cbn. rewrite lookup_insert_ne by done.
        destruct (decide (a ∈ rest)) as [Hi|Hn], (decide (a ∈ b :: rest)) as [Hi'|Hn'];
          try done.
        -- exfalso. apply Hn'. by right.
        -- exfalso. apply elem_of_cons in Hi' as [?|?]; done.
Qed.

Lemma local_app who t1 t2 : local who (t1 ++ t2) = local who t1 ++ local who t2.
Proof.
  induction t1 as [|[a c|a c r] t1 IH]; cbn; [done|done|].
  destruct (decide (a = who)); cbn; by rewrite IH.
Qed.

Lemma local_elem who c r tr : (c, r) ∈ local who tr → Settle who c r ∈ tr.
Proof.
  induction tr as [|[a c'|a c' r'] tr IH]; cbn.
  - by intros ?%elem_of_nil.
  - intros ?. right. by apply IH.
  - destruct (decide (a = who)) as [->|].
    + intros [Heq|?]%elem_of_cons; [simplify_eq; by left|right; by apply IH].
    + intros ?. right. by apply IH.
Qed.

Lemma local_settle_same who c r : local who [Settle who c r] = [(c, r)].
Proof. cbn. by rewrite decide_True. Qed.

Lemma local_settle_other who a c r : a ≠ who → local who [Settle a c r] = [].
Proof. intros. cbn. by rewrite decide_False. Qed.

Lemma each_event_nil Φ : each_event Φ [].
Proof. intros [|] ? ? ?; done. Qed.

Lemma each_event_cons Φ e tr :
  Φ [] e → each_event (λ t1, Φ (e :: t1)) tr → each_event Φ (e :: tr).
Proof.
  intros H0 H [|x t1] e' t2 Heq; simplify_eq/=; [done|].
  by eapply H.
Qed.

Lemma each_event_app Φ tr1 tr2 :
  each_event Φ tr1 → each_event (λ t1, Φ (tr1 ++ t1)) tr2 →
  each_event Φ (tr1 ++ tr2).
Proof.
  revert Φ. induction tr1 as [|x tr1 IH]; intros Φ H1 H2; [done|].
  cbn. apply each_event_cons.
  - by apply (H1 [] x tr1).
  - apply IH; [|done]. intros t1 e t2 ->. by apply (H1 (x :: t1) e t2).
Qed.

Lemma each_event_impl (Φ Ψ : list Event → Event → Prop) tr :
  each_event Φ tr → (∀ t1 e, e ∈ tr → Φ t1 e → Ψ t1 e) → each_event Ψ tr.
Proof.
  intros H Hi t1 e t2 ->. apply Hi; [|by eapply H].
  apply elem_of_app. right. by left.
Qed.

Lemma each_event_app_inv Φ tr1 tr2 :
  each_event Φ (tr1 ++ tr2) →
  each_event Φ tr1 ∧ each_event (λ t1, Φ (tr1 ++ t1)) tr2.
Proof.
  intros H. split.
  - intros t1 e t2 ->. apply (H t1 e (t2 ++ tr2)). by rewrite <- app_assoc.
  - intros t1 e t2 ->. apply (H (tr1 ++ t1) e t2). by rewrite <- app_assoc.
Qed.

Section ObeysFacts.
Context {St A : Type}.
Implicit Types (p : prog St A) (h : hist).

Lemma start_obeys P Q R h p s :
  obeys P Q R h p → obeys P Q R h (start p s).2.
Proof.
  intros H. revert s. induction H; intros s0; cbn; eauto using @obeys.
Qed.

Lemma start_not_state p s :
  match (start p s).2 with Get _ | Put _ _ => False | _ => True end.
Proof.
  revert s. induction p as [a|e|c k IH|k IH|s' k IH]; intros s0; cbn; try done;
    apply IH.
Qed.

Lemma start_depth n p s : depth_le n p → depth_le n (start p s).2.
Proof.
  intros H. revert s. induction H; intros s0; cbn; eauto using @depth_le.
Qed.

Lemma depth_le_mono n m p : depth_le n p → (n ≤ m)%nat → depth_le m p.
Proof.
  intros H. revert m. induction H; intros m Hm; eauto using @depth_le.
  destruct m as [|m]; [lia|]. constructor. intros r. apply H0. lia.
Qed.

Lemma obeys_weaken (P P' : hist → Call → Prop) (Q Q' : hist → A → Prop)
    (R R' : hist → Error → Prop) h p :
  obeys P Q R h p →
  (∀ h c, P h c → P' h c) → (∀ h a, Q h a → Q' h a) →
  (∀ h e, R h e → R' h e) →
  obeys P' Q' R' h p.
Proof. intros H ? ? ?. induction H; eauto using @obeys. Qed.
End ObeysFacts.

Lemma obeys_bind {St A B} P (Q1 : hist → A → Prop) (Q : hist → B → Prop) R
    h (p : prog St A) (f : A → prog St B) :
  obeys P Q1 R h p →
  (∀ h1 a, Q1 h1 a → obeys P Q R h1 (f a)) →
  obeys P Q R h (p ≫= f).
Proof.
  intros H Hf. induction H; cbn; eauto using @obeys.
Qed.

Lemma obeys_try_catch {St A} P (Q : hist → A → Prop) R1 R
    h (p : prog St A) (handler : Error → prog St A) :
  obeys P Q R1 h p →
  (∀ h1 e, R1 h1 e → obeys P Q R h1 (handler e)) →
  obeys P Q R h (try_catch p handler).
Proof.
  intros H Hf. induction H; cbn; eauto using @obeys.
Qed.

Lemma depth_bind {St A B} n m (p : prog St A) (f : A → prog St B) :
  depth_le n p → (∀ a, depth_le m (f a)) → depth_le (n + m) (p ≫= f).
Proof.
  intros H Hf. induction H; cbn; eauto using @depth_le.
  eapply depth_le_mono; [apply Hf|lia].
Qed.

Lemma depth_try_catch {St A} n m (p : prog St A) (handler : Error → prog St A) :
  depth_le n p → (∀ e, depth_le m (handler e)) →
  depth_le (n + m) (try_catch p handler).
Proof.
  intros H Hf. induction H; cbn; eauto using @depth_le.
  eapply depth_le_mono; [apply Hf|lia].
Qed.

Lemma zoom_depth {St T A} (get : T → St) (set : St → T → T) n (p : prog St A) :
  depth_le n p → depth_le n (zoom get set p).
Proof. intros H. induction H; cbn; eauto using @depth_le. Qed.

Lemma zoom_obeys {St T A} (get : T → St) (set : St → T → T) P Q R h
    (p : prog St A) :
  obeys P Q R h p → obeys P Q R h (zoom get set p).
Proof. intros H. induction H; cbn; eauto using @obeys. Qed.
(** ** The settling of a pool *)

Lemma pending_from_spec {St A} (pool : list (prog St A)) b i :
  i ∈ pending_from b pool →
  ∃ c k, (b ≤ i)%nat ∧ pool !! (i - b)%nat = Some (Await c k).
Proof.
  revert b. induction pool as [|p pool IH]; intros b; cbn.
  - by intros ?%elem_of_nil.
  - intros Hi.
    assert (i ∈ pending_from (S b) pool → ∃ c k, (b ≤ i)%nat ∧
              (p :: pool) !! (i - b)%nat = Some (Await c k)) as Hrest.
    { intros (c & k & Hle & Hl)%IH. exists c, k. split; [lia|].
      replace (i - b)%nat with (S (i - S b)) by lia. done. }
    destruct p as [a|e|c k|k|s k]; cbn in Hi; try by apply Hrest.
    apply elem_of_cons in Hi as [->|Hi]; [|by apply Hrest].
    exists c, k. split; [lia|]. by rewrite Nat.sub_diag.
Qed.

Lemma pending_from_complete {St A} (pool : list (prog St A)) b i c k :
  pool !! i = Some (Await c k) → (b + i)%nat ∈ pending_from b pool.
Proof.
  revert b i. induction pool as [|p pool IH]; intros b [|i] Hl; simplify_eq/=.
  - rewrite Nat.add_0_r. by left.
  - replace (b + S i)%nat with (S b + i)%nat by lia.
    destruct (is_pending p); [right|]; by apply IH.
Qed.

Section PoolRun.
Context {World St A : Type}.
Variable respond : World → Call → Response * World.
Variable choose : World → list nat → nat.
Implicit Types (pool : list (prog St A)).

Lemma pick_elem w ids i : pick choose w ids = Some i → i ∈ ids.
Proof.
  unfold pick. case_bool_decide as Hc; [by intros [= <-]|].
  destruct ids; cbn; [done|]. intros [= <-]. by left.
Qed.

Lemma pick_some w ids : ids ≠ [] → is_Some (pick choose w ids).
Proof.
  unfold pick. case_bool_decide; [eauto|]. destruct ids; [done|]. cbn. eauto.
Qed.

Lemma all_done_lookup pool rs i a :
  all_done pool = Some rs → rs !! i = Some a → pool !! i = Some (Done a).
Proof.
  unfold all_done. rewrite mapM_Some. intros HF Hi.
  destruct (Forall2_lookup_r _ _ _ _ _ HF Hi) as ([a'| | | |] & Hp & Hr);
    simplify_eq/=. done.
Qed.

Lemma all_done_length pool rs : all_done pool = Some rs → length rs = length pool.
Proof. unfold all_done. intros H. symmetry. by eapply length_mapM. Qed.

Lemma all_done_none_pending pool :
  all_done pool = None → Forall is_live pool → pending_ids pool ≠ [].
Proof.
  unfold all_done, pending_ids. generalize 0%nat.
  induction pool as [|p pool IH]; intros b; cbn; [done|].
  intros Hnone [Hp Hpool]%Forall_cons.
  destruct p as [a|e|c k|k|s k]; cbn in *; try done.
  destruct (mapM result_of pool) eqn:Hm; cbn in *; [done|]. by apply IH.
Qed.

(** The three ways one round of the pool can go. *)
Lemma pool_run_cases fuel base pool s w :
  (∃ rs, all_done pool = Some rs ∧
     pool_run respond choose fuel base pool s w = (Returned rs, s, w, [])) ∨
  (all_done pool = None ∧
     pool_run respond choose fuel base pool s w = (OutOfFuel, s, w, []) ∧
     (fuel = 0%nat ∨ pending_ids pool = [])) ∨
  (∃ fuel' i c k r w1 s1 q,
     fuel = S fuel' ∧ all_done pool = None ∧
     pool !! i = Some (Await c k) ∧
     respond w c = (r, w1) ∧ start (k r) s = (s1, q) ∧
     ((∃ e, q = Fail e ∧
         pool_run respond choose fuel base pool s w
           = (Threw e, s1, w1, [Settle (Task (base + i)) c r])) ∨
      ((∀ e, q ≠ Fail e) ∧
         ∃ o s2 w2 tr,
           pool_run respond choose fuel' base (<[i := q]> pool) s1 w1
             = (o, s2, w2, tr) ∧
           pool_run respond choose fuel base pool s w
             = (o, s2, w2,
                Settle (Task (base + i)) c r
                  :: issue_of (Task (base + i)) q ++ tr)))).
Proof.
  destruct (all_done pool) as [rs|] eqn:Hd.
  { left. exists rs. split; [done|]. destruct fuel; cbn; by rewrite Hd. }
  right. destruct fuel as [|fuel'].
  { left. cbn. rewrite Hd. auto. }
  cbn [pool_run]. rewrite Hd.
  destruct (pick choose w (pending_ids pool)) as [i|] eqn:Hp; cbn.
  2:{ left. split; [done|]. split; [done|]. right.
      destruct (pending_ids pool) as [|n l]; [done|].
      destruct (pick_some w (n :: l)) as [? Hs]; [done|]. by rewrite Hp in Hs. }
  apply pick_elem in Hp as Hin.
  apply pending_from_spec in Hin as (c & k & _ & Hl).
  rewrite Nat.sub_0_r in Hl. rewrite Hl. cbn.
  destruct (respond w c) as [r w1] eqn:Hr.
  destruct (start (k r) s) as [s1 q] eqn:Hs.
  right. exists fuel', i, c, k, r, w1, s1, q.
  do 5 (split; [done|]).
  destruct (pool_run respond choose fuel' base (<[i:=q]> pool) s1 w1)
    as [[[o s2] w2] tr] eqn:Hrun.
  destruct q; try (right; split; [done|]; by exists o, s2, w2, tr).
  left. eauto.
Qed.

Section Sound.
Variable P : nat → hist → Call → Prop.
Variable Q : nat → hist → A → Prop.
Variable R : nat → hist → Error → Prop.

Lemma hist_shift_fwd base (hs : list hist) i0 h0 c r evs t i h' :
  hs !! i0 = Some h0 →
  local (Task (base + i0)) evs = [] →
  (∀ j, j ≠ i0 → local (Task (base + j)) evs = []) →
  <[i0 := h0 ++ [(c, r)]]> hs !! i = Some h' →
  ∃ h, hs !! i = Some h ∧
    h ++ local (Task (base + i)) (Settle (Task (base + i0)) c r :: evs ++ t)
      = h' ++ local (Task (base + i)) t.
Proof.
  intros H0 He Heo Hi. destruct (decide (i = i0)) as [->|Hne].
  - rewrite list_lookup_insert_eq in Hi by (by eapply lookup_lt_Some).
    simplify_eq. exists h0. split; [done|].
    cbn. rewrite decide_True by done. rewrite local_app, He.
    by rewrite <- app_assoc.
  - rewrite list_lookup_insert_ne in Hi by done.
    exists h'. split; [done|]. cbn.
    rewrite decide_False by (intros [=]; lia).
    by rewrite local_app, Heo.
Qed.

Lemma hist_shift_bwd base (hs : list hist) i0 h0 c r evs t i h :
  hs !! i0 = Some h0 →
  local (Task (base + i0)) evs = [] →
  (∀ j, j ≠ i0 → local (Task (base + j)) evs = []) →
  hs !! i = Some h →
  ∃ h', <[i0 := h0 ++ [(c, r)]]> hs !! i = Some h' ∧
    h ++ local (Task (base + i)) (Settle (Task (base + i0)) c r :: evs ++ t)
      = h' ++ local (Task (base + i)) t.
Proof.
  intros H0 He Heo Hi. destruct (decide (i = i0)) as [->|Hne].
  - simplify_eq. exists (h0 ++ [(c, r)]).
    rewrite list_lookup_insert_eq by (by eapply lookup_lt_Some).
    split; [done|].
    cbn. rewrite decide_True by done. rewrite local_app, He.
    by rewrite <- app_assoc.
  - exists h. rewrite list_lookup_insert_ne by done. split; [done|]. cbn.
    rewrite decide_False by (intros [=]; lia).
    by rewrite local_app, Heo.
Qed.

Lemma local_issue_of who who' (q : prog St A) : local who (issue_of who' q) = [].
Proof. by destruct q. Qed.

(** An event of the rest of the run, seen from one round earlier. *)
Lemma step_ok_shift base (hs : list hist) i0 h0 c r (q : prog St A) t1 e :
  hs !! i0 = Some h0 →
  is_live q →
  obeys (P i0) (Q i0) (R i0) (h0 ++ [(c, r)]) q →
  step_ok P Q base (<[i0 := h0 ++ [(c, r)]]> hs) t1 e →
  step_ok P Q base hs
    (Settle (Task (base + i0)) c r :: issue_of (Task (base + i0)) q ++ t1) e.
Proof.
  intros H0 Hlive Hq [(i & h' & Hact & Hi & Hiss) Hprev].
  pose proof (local_issue_of (Task (base + i0)) (Task (base + i0)) q) as He.
  assert (∀ j, j ≠ i0 →
            local (Task (base + j)) (issue_of (Task (base + i0)) q) = [])
    as Heo by (intros; apply local_issue_of).
  split.
  - destruct (hist_shift_fwd base hs i0 h0 c r _ t1 i h' H0 He Heo Hi)
      as (h & Hh & Heq).
    exists i, h. split; [done|]. split; [done|].
    intros c' ->. destruct (Hiss c' eq_refl) as [HP (t0 & c0 & r0 & ->)].
    split; [by rewrite Heq|].
    exists (Settle (Task (base + i0)) c r
              :: issue_of (Task (base + i0)) q ++ t0), c0, r0.
    cbn. by rewrite <- app_assoc.
  - intros t0 j hj c1 r1 Heq Hj.
    destruct (hist_shift_bwd base hs i0 h0 c r _ t1 j hj H0 He Heo Hj)
      as (hj' & Hj' & Hheq).
    rewrite Hheq.
    destruct t1 as [|x t1 _] using rev_ind.
    + rewrite app_nil_r in Heq.
      destruct q as [a|e0|c' k'|k'|s' k']; cbn in Hlive; try done; cbn in Heq.
      * destruct t0; simplify_eq/=; [|by destruct t0].
        assert (j = i0) as -> by lia.
        rewrite list_lookup_insert_eq in Hj' by (by eapply lookup_lt_Some).
        simplify_eq. right. exists a. inversion Hq; subst.
        cbn. by rewrite app_nil_r.
      * destruct t0 as [|y [|z t0]]; simplify_eq/=. by destruct t0.
    + rewrite !app_comm_cons, !app_assoc in Heq.
      apply app_inj_tail in Heq as [Heq ->].
      by eapply Hprev.
Qed.

(** Soundness of path properties for the settling of a pool. *)
Lemma pool_run_sound fuel : ∀ base pool (hs : list hist) s w o s' w' tr,
  length hs = length pool →
  Forall is_live pool →
  (∀ i h q, hs !! i = Some h → pool !! i = Some q →
            obeys (P i) (Q i) (R i) h q) →
  pool_run respond choose fuel base pool s w = (o, s', w', tr) →
  each_event (step_ok P Q base hs) tr ∧
  (∀ rs, o = Returned rs →
     length rs = length pool ∧
     ∀ i h a, hs !! i = Some h → rs !! i = Some a →
              Q i (h ++ local (Task (base + i)) tr) a) ∧
  (∀ e, o = Threw e →
     ∃ t1 i h c r,
       tr = t1 ++ [Settle (Task (base + i)) c r] ∧ hs !! i = Some h ∧
       R i (h ++ local (Task (base + i)) tr) e).
Proof.
  induction fuel as [|fuel IH]; intros base pool hs s w o s' w' tr Hlen Hlive Hob Hrun.
  - destruct (pool_run_cases 0 base pool s w)
      as [(rs & Hd & Heq)|[(Hd & Heq & _)|(? & ? & ? & ? & ? & ? & ? & ? & ? & _)]];
      [| |done]; rewrite Heq in Hrun; simplify_eq.
    + split; [apply each_event_nil|]. split; [|done].
      intros ? [= <-]. split; [by apply all_done_length|].
      intros i h a Hh Ha. rewrite app_nil_r.
      pose proof (all_done_lookup _ _ _ _ Hd Ha) as Hp.
      specialize (Hob _ _ _ Hh Hp). by inversion Hob.
    + split; [apply each_event_nil|]. done.
  - destruct (pool_run_cases (S fuel) base pool s w)
      as [(rs & Hd & Heq)|[(Hd & Heq & _)|
           (fuel' & i0 & c & k & r & w1 & s1 & q & [= <-] & Hd & Hp & Hr & Hs & Hq)]].
    + rewrite Heq in Hrun; simplify_eq.
      split; [apply each_event_nil|]. split; [|done].
      intros ? [= <-]. split; [by apply all_done_length|].
      intros i h a Hh Ha. rewrite app_nil_r.
      pose proof (all_done_lookup _ _ _ _ Hd Ha) as Hpl.
      specialize (Hob _ _ _ Hh Hpl). by inversion Hob.
    + rewrite Heq in Hrun; simplify_eq.
      split; [apply each_event_nil|]. done.
    + destruct (lookup_lt_is_Some_2 hs i0) as [h0 Hh0].
      { rewrite Hlen. by eapply lookup_lt_Some. }
      pose proof (Hob _ _ _ Hh0 Hp) as Hob0. inversion Hob0 as [| |? ? ? HP Hk| |]; subst.
      pose proof (start_obeys _ _ _ _ _ s (Hk r)) as Hobq.
      rewrite Hs in Hobq. cbn in Hobq.
      assert (step_ok P Q base hs [] (Settle (Task (base + i0)) c r)) as Hfirst.
      { split.
        - exists i0, h0. split; [done|]. split; [done|]. done.
        - intros [|? ?] ? ? ? ? ?; done. }
      destruct Hq as [(e & -> & Heq)|(Hnf & o1 & s2 & w2 & tr1 & Hrun1 & Heq)];
        rewrite Heq in Hrun; simplify_eq.
      * split; [|split; [done|]].
        { apply each_event_cons; [done|apply each_event_nil]. }
        intros e' [= <-]. exists [], i0, h0, c, r.
        split; [done|]. split; [done|].
        rewrite local_settle_same. by inversion Hobq.
      * assert (is_live q) as Hliveq.
        { pose proof (start_not_state (k r) s) as Hn. rewrite Hs in Hn.
          destruct q; cbn in *; try done. by destruct (Hnf e). }
        destruct (IH base (<[i0:=q]> pool) (<[i0 := h0 ++ [(c, r)]]> hs)
                     s1 w1 o s' w' tr1) as (IH1 & IH2 & IH3); [| | |done|].
        { by rewrite !length_insert. }
        { apply Forall_insert; done. }
        { intros i h q' Hh Hq'. destruct (decide (i = i0)) as [->|Hne].
          - rewrite list_lookup_insert_eq in Hh by (by eapply lookup_lt_Some).
            rewrite list_lookup_insert_eq in Hq' by (by eapply lookup_lt_Some).
            by simplify_eq.
          - rewrite list_lookup_insert_ne in Hh by done.
            rewrite list_lookup_insert_ne in Hq' by done. eauto. }
        pose proof (local_issue_of (Task (base + i0)) (Task (base + i0)) q) as He.
        assert (∀ j, j ≠ i0 →
                  local (Task (base + j)) (issue_of (Task (base + i0)) q) = [])
          as Heo by (intros; apply local_issue_of).
        split; [|split].
        -- apply each_event_cons; [done|].
           apply each_event_app.
           ++ destruct q as [a|e0|c' k'|k'|s0 k']; cbn in Hliveq; try done;
                cbn; [apply each_event_nil|].
              apply each_event_cons; [|apply each_event_nil].
              split.
              ** exists i0, h0. split; [done|]. split; [done|].
                 intros ? [= <-]. rewrite local_settle_same.
                 split; [by inversion Hobq|]. by exists [], c, r.
              ** intros t0 j hj c1 r1 Heq1 Hj.
                 destruct t0; simplify_eq/=; [|by destruct t0].
                 left. assert (j = i0) as -> by lia. eauto.
           ++ intros t1 e t2 ->.
              change (Settle (Task (base + i0)) c r
                        :: (issue_of (Task (base + i0)) q ++ t1))
                with (Settle (Task (base + i0)) c r
                        :: issue_of (Task (base + i0)) q ++ t1).
              eapply step_ok_shift; try done. by eapply IH1.
        -- intros rs ->. destruct (IH2 rs eq_refl) as [Hlenrs HQ].
           rewrite length_insert in Hlenrs. split; [done|].
           intros i h a Hh Ha.
           destruct (hist_shift_bwd base hs i0 h0 c r _ tr1 i h Hh0 He Heo Hh)
             as (h' & Hh' & Hheq).
           rewrite Hheq. by eapply HQ.
        -- intros e ->. destruct (IH3 e eq_refl) as (t1 & i & h' & c1 & r1 & -> & Hh' & HR).
           destruct (hist_shift_fwd base hs i0 h0 c r _
                       (t1 ++ [Settle (Task (base + i)) c1 r1]) i h' Hh0 He Heo Hh')
             as (h & Hh & Hheq).
           exists (Settle (Task (base + i0)) c r
                     :: issue_of (Task (base + i0)) q ++ t1), i, h, c1, r1.
           split; [cbn; by rewrite <- app_assoc|]. split; [done|].
           by rewrite Hheq.
Qed.
End Sound.
End PoolRun.
Lemma sum_list_insert (ds : list nat) i d n :
  ds !! i = Some d → (sum_list (<[i := n]> ds) + d = sum_list ds + n)%nat.
Proof.
  revert i. induction ds as [|x ds IH]; intros [|i] Hi; simplify_eq/=; [lia|].
  specialize (IH _ Hi). lia.
Qed.

Lemma first_failed_None {St A} (pool : list (prog St A)) :
  first_failed pool = None → Forall (λ q, ∀ e, q ≠ Fail e) pool.
Proof.
  unfold first_failed. intros H. apply Forall_forall. intros q Hq e ->.
  destruct (list_find (λ p : prog St A, is_Some (failure_of p)) pool)
    as [[i p]|] eqn:Hf.
  - apply list_find_Some in Hf as (_ & [e' He'] & _). cbn in H. by rewrite He' in H.
  - apply list_find_None in Hf. rewrite Forall_forall in Hf.
    apply (Hf _ Hq). by eexists.
Qed.

Lemma first_failed_Some {St A} (pool : list (prog St A)) e :
  first_failed pool = Some e → ∃ i, pool !! i = Some (Fail e).
Proof.
  unfold first_failed. intros H.
  destruct (list_find (λ p : prog St A, is_Some (failure_of p)) pool)
    as [[i p]|] eqn:Hf; [|done].
  apply list_find_Some in Hf as (Hi & _ & _). cbn in H.
  destruct p; simplify_eq/=. eauto.
Qed.

Section PoolFuel.
Context {World St A : Type}.
Variable respond : World → Call → Response * World.
Variable choose : World → list nat → nat.
Implicit Types (pool : list (prog St A)).

Lemma all_done_depth_0 pool (ds : list nat) :
  Forall2 depth_le ds pool → Forall is_live pool → sum_list ds = 0%nat →
  is_Some (all_done pool).
Proof.
  unfold all_done. intros HF. induction HF as [|d p ds pool Hd HF IH]; cbn.
  - eauto.
  - intros [Hp Hl]%Forall_cons Hsum.
    destruct IH as [rs Hrs]; [done|lia|].
    destruct p as [a|e|c k|k|s k]; cbn in Hp; try done.
    + cbn. rewrite Hrs. cbn. eauto.
    + inversion Hd; subst. lia.
Qed.

(** A pool whose promises have [fuel] suspension points left in total
    is settled completely. *)
Lemma pool_run_fuel fuel : ∀ base pool (ds : list nat) s w,
  Forall2 depth_le ds pool → Forall is_live pool → (sum_list ds ≤ fuel)%nat →
  (pool_run respond choose fuel base pool s w).1.1.1 ≠ OutOfFuel.
Proof.
  induction fuel as [|fuel IH]; intros base pool ds s w HF Hlive Hsum.
  - destruct (all_done_depth_0 pool ds) as [rs Hrs]; [done|done|lia|].
    cbn. by rewrite Hrs.
  - destruct (pool_run_cases respond choose (S fuel) base pool s w)
      as [(rs & Hd & Heq)|[(Hd & Heq & [?|Hn])|
           (fuel' & i0 & c & k & r & w1 & s1 & q & [= <-] & Hd & Hp & Hr & Hs & Hq)]].
    + by rewrite Heq.
    + done.
    + by destruct (all_done_none_pending pool).
    + destruct Hq as [(e & -> & Heq)|(Hnf & o1 & s2 & w2 & tr1 & Hrun1 & Heq)];
        rewrite Heq; [done|]. cbn.
      destruct (Forall2_lookup_r _ _ _ _ _ HF Hp) as (d & Hd0 & Hdep).
      inversion Hdep as [| |n ? ? Hk| |]; subst.
      pose proof (start_depth _ _ s (Hk r)) as Hdq. rewrite Hs in Hdq. cbn in Hdq.
      specialize (IH base (<[i0:=q]> pool) (<[i0:=n]> ds) s1 w1).
      rewrite Hrun1 in IH. apply IH.
      * apply Forall2_insert; done.
      * apply Forall_insert; [done|].
        pose proof (start_not_state (k r) s) as Hn. rewrite Hs in Hn.
        destruct q; cbn in *; try done. by destruct (Hnf e).
      * pose proof (sum_list_insert ds i0 (S n) n Hd0). lia.
Qed.

Lemma start_all_spec who ps s s' pool evs :
  start_all who ps s = (s', pool, evs) →
  Forall2 (λ p q, ∃ s0 : St, q = (start p s0).2) ps pool ∧
  evs = mjoin (imap (λ i q, issue_of (Task (who + i)) q) pool).
Proof.
  revert who s s' pool evs. induction ps as [|p ps IH]; intros who s s' pool evs; cbn.
  - intros ?; simplify_eq. split; [constructor|done].
  - destruct (start p s) as [s1 q] eqn:Hs.
    destruct (start_all (S who) ps s1) as [[s2 qs] evs'] eqn:Ha.
    intros ?; simplify_eq. destruct (IH _ _ _ _ _ Ha) as [HF ->].
    split.
    + constructor; [|done]. exists s. by rewrite Hs.
    + cbn. rewrite Nat.add_0_r. f_equal. f_equal. apply imap_ext.
      intros i x _. cbn. do 2 f_equal. lia.
Qed.

Lemma local_issues who base pool :
  local who (mjoin (imap (λ i (q : prog St A), issue_of (Task (base + i)) q) pool)) = [].
Proof.
  revert base. induction pool as [|q pool IH]; intros base; [done|].
  cbn. rewrite local_app, local_issue_of. cbn.
  erewrite imap_ext; [apply (IH (S base))|].
  intros i x _. cbn. do 2 f_equal. lia.
Qed.

Section Sound.
Variable P : nat → hist → Call → Prop.
Variable Q : nat → hist → A → Prop.
Variable R : nat → hist → Error → Prop.

(** Soundness of path properties for [await Promise.all(...)]: the
    trace is the first requests of all promises, in list order,
    followed by the settling of the pool. *)
Lemma promise_all_sound fuel base (ps : list (prog St A)) s w o s' w' tr :
  (∀ i p, ps !! i = Some p → obeys (P i) (Q i) (R i) [] p) →
  promise_all respond choose fuel base ps s w = (o, s', w', tr) →
  ∃ pool tr_pool,
    tr = mjoin (imap (λ i q, issue_of (Task (base + i)) q) pool) ++ tr_pool ∧
    Forall2 (λ p q, ∃ s0 : St, q = (start p s0).2) ps pool ∧
    each_event (step_ok P Q base (replicate (length ps) [])) tr_pool ∧
    (∀ rs, o = Returned rs →
       length rs = length ps ∧
       ∀ i a, rs !! i = Some a → Q i (local (Task (base + i)) tr) a) ∧
    (∀ e, o = Threw e →
       (tr_pool = [] ∧ ∃ i, pool !! i = Some (Fail e)) ∨
       ∃ t1 i c r,
         tr_pool = t1 ++ [Settle (Task (base + i)) c r] ∧
         (i < length ps)%nat ∧
         R i (local (Task (base + i)) tr) e).
Proof.
  intros Hob. unfold promise_all.
  destruct (start_all base ps s) as [[s1 pool] evs] eqn:Ha.
  destruct (start_all_spec _ _ _ _ _ _ Ha) as [HF ->].
  destruct (first_failed pool) as [e|] eqn:Hff.
  - intros [= <- <- <- <-]. exists pool, [].
    split; [by rewrite app_nil_r|]. split; [done|].
    split; [apply each_event_nil|]. split; [done|].
    intros ? [= <-]. left. split; [done|]. by apply first_failed_Some.
  - destruct (pool_run respond choose fuel base pool s1 w)
      as [[[o1 s2] w2] tr1] eqn:Hrun.
    intros [= <- <- <- <-]. exists pool, tr1.
    split; [done|]. split; [done|].
    assert (Forall is_live pool) as Hlive.
    { apply first_failed_None in Hff. rewrite Forall_forall in Hff.
      apply Forall_forall. intros q Hq.
      apply list_elem_of_lookup in Hq as [i Hi].
      destruct (Forall2_lookup_r _ _ _ _ _ HF Hi) as (p & Hp & s0 & ->).
      pose proof (start_not_state p s0) as Hn.
      pose proof (Hff _ (list_elem_of_lookup_2 _ _ _ Hi)) as Hnf.
      destruct (start p s0).2; cbn in *; try done. by destruct (Hnf e). }
    destruct (pool_run_sound respond choose P Q R fuel base pool
                (replicate (length ps) []) s1 w o1 s2 w2 tr1)
      as (H1 & H2 & H3); [| | |done|].
    { rewrite length_replicate. by eapply Forall2_length. }
    { done. }
    { intros i h q [-> _]%lookup_replicate Hq.
      destruct (Forall2_lookup_r _ _ _ _ _ HF Hq) as (p & Hp & s0 & ->).
      apply start_obeys. eauto. }
    split; [done|]. split.
    + intros rs ->. destruct (H2 rs eq_refl) as [Hl HQ].
      split; [rewrite Hl; symmetry; by eapply Forall2_length|].
      intros i a Ha'. rewrite local_app, local_issues. cbn.
      apply (HQ i [] a); [|done].
      apply lookup_replicate. split; [done|].
      apply lookup_lt_Some in Ha'. rewrite Hl in Ha'.
      by rewrite (Forall2_length _ _ _ HF).
    + intros e ->. right.
      destruct (H3 e eq_refl) as (t1 & i & h & c & r & -> & [-> Hi]%lookup_replicate & HR).
      exists t1, i, c, r. split; [done|]. split; [done|].
      by rewrite local_app, local_issues.
Qed.

Lemma promise_all_fuel fuel base (ps : list (prog St A)) (d : nat) s w :
  (∀ p, p ∈ ps → depth_le d p) → (length ps * d ≤ fuel)%nat →
  (promise_all respond choose fuel base ps s w).1.1.1 ≠ OutOfFuel.
Proof.
  intros Hd Hfuel. unfold promise_all.
  destruct (start_all base ps s) as [[s1 pool] evs] eqn:Ha.
  destruct (start_all_spec _ _ _ _ _ _ Ha) as [HF ->].
  destruct (first_failed pool) as [e|] eqn:Hff; [done|].
  pose proof (pool_run_fuel fuel base pool (replicate (length ps) d) s1 w) as Hpf.
  destruct (pool_run respond choose fuel base pool s1 w)
    as [[[o1 s2] w2] tr1] eqn:Hrun.
  cbn in *. apply Hpf.
  - apply Forall2_same_length_lookup. split.
    + rewrite length_replicate. by eapply Forall2_length.
    + intros i n q [-> _]%lookup_replicate Hq.
      destruct (Forall2_lookup_r _ _ _ _ _ HF Hq) as (p & Hp & s0 & ->).
      apply start_depth, Hd. by eapply list_elem_of_lookup_2.
  - apply first_failed_None in Hff. rewrite Forall_forall in Hff.
    apply Forall_forall. intros q Hq.
    apply list_elem_of_lookup in Hq as [i Hi].
    destruct (Forall2_lookup_r _ _ _ _ _ HF Hi) as (p & Hp & s0 & ->).
    pose proof (start_not_state p s0) as Hn.
    pose proof (Hff _ (list_elem_of_lookup_2 _ _ _ Hi)) as Hnf.
    destruct (start p s0).2; cbn in *; try done. by destruct (Hnf e).
  - by rewrite sum_list_replicate.
Qed.
End Sound.
End PoolFuel.
(** ** Stateless promises *)

Lemma start_stateless {St A} (p : prog St A) s : stateless p → start p s = (s, p).
Proof. by destruct 1. Qed.

Section PoolStateless.
Context {World St A : Type}.
Variable respond : World → Call → Response * World.
Variable choose : World → list nat → nat.

Lemma pool_run_stateless fuel : ∀ base (pool : list (prog St A)) s w,
  Forall stateless pool →
  (pool_run respond choose fuel base pool s w).1.1.2 = s.
Proof.
  induction fuel as [|fuel IH]; intros base pool s w Hst.
  - cbn. by destruct (all_done pool).
  - destruct (pool_run_cases respond choose (S fuel) base pool s w)
      as [(rs & Hd & Heq)|[(Hd & Heq & _)|
           (fuel' & i0 & c & k & r & w1 & s1 & q & [= <-] & Hd & Hp & Hr & Hs & Hq)]];
      [by rewrite Heq|by rewrite Heq|].
    pose proof (Forall_lookup_1 _ _ _ _ Hst Hp) as Hk.
    inversion Hk as [| |? ? Hk']; subst.
    rewrite (start_stateless _ _ (Hk' r)) in Hs. simplify_eq.
    destruct Hq as [(e & He & Heq)|(Hnf & o1 & s2 & w2 & tr1 & Hrun1 & Heq)];
      rewrite Heq; [done|]. cbn.
    specialize (IH base (<[i0:=k r]> pool) s1 w1). rewrite Hrun1 in IH.
    apply IH. by apply Forall_insert.
Qed.

Lemma start_all_stateless who (ps : list (prog St A)) s :
  Forall stateless ps →
  start_all who ps s
    = (s, ps, mjoin (imap (λ i q, issue_of (Task (who + i)) q) ps)).
Proof.
  revert who. induction ps as [|p ps IH]; intros who; [done|].
  intros [Hp Hps]%Forall_cons. cbn.
  rewrite (start_stateless _ _ Hp), (IH _ Hps).
  rewrite Nat.add_0_r. do 3 f_equal. apply imap_ext. intros i x _. cbn.
  do 2 f_equal. lia.
Qed.

Lemma promise_all_stateless fuel base (ps : list (prog St A)) s w :
  Forall stateless ps →
  (promise_all respond choose fuel base ps s w).1.1.2 = s.
Proof.
  intros Hst. unfold promise_all. rewrite (start_all_stateless _ _ _ Hst).
  destruct (first_failed ps); [done|].
  pose proof (pool_run_stateless fuel base ps s w Hst) as Hs.
  by destruct (pool_run respond choose fuel base ps s w) as [[[? ?] ?] ?].
Qed.
End PoolStateless.

(** ** One transfer of the distribution *)

Lemma transfer_stateless master wallet amt n : stateless (transfer master wallet amt n).
Proof.
  constructor. intros [[]|]; cbn; try constructor.
  intros [[]|]; cbn; constructor.
Qed.

Lemma transfer_depth master wallet amt n : depth_le 2 (transfer master wallet amt n).
Proof.
  constructor. intros [[]|]; cbn; try constructor.
  intros [[]|]; cbn; constructor.
Qed.

Lemma transfer_obeys master wallet amt n :
  let req := {| tx_from := master; tx_to := address wallet;
                tx_value := amt; tx_nonce := n |} in
  obeys (transfer_may_issue req) (transfer_done req) transfer_failed []
        (transfer master wallet amt n).
Proof.
  intros req. constructor; [by left|].
  intros r. cbn.
  assert (∀ v, obeys (transfer_may_issue req) (transfer_done req) transfer_failed
                 [(SendTransaction req, Fulfilled v)] (Fail type_error : prog WalletManager _))
    as Hty.
  { intros v. constructor. exists [], (SendTransaction req), (Fulfilled v).
    split; [done|]. right. eauto. }
  destruct r as [[| | |tx| | |]|e]; cbn; try apply Hty.
  - constructor; [right; eauto|].
    intros r'. cbn.
    assert (∀ v, obeys (transfer_may_issue req) (transfer_done req) transfer_failed
                   [(SendTransaction req, Fulfilled (VTx tx)); (WaitTx tx, Fulfilled v)]
                   (Fail type_error : prog WalletManager _))
      as Hty'.
    { intros v. constructor.
      exists [(SendTransaction req, Fulfilled (VTx tx))], (WaitTx tx), (Fulfilled v).
      split; [done|]. right. eauto. }
    destruct r' as [[| | | |rc| |]|e]; cbn; try apply Hty'.
    + constructor. by exists rc.
    + constructor.
      exists [(SendTransaction req, Fulfilled (VTx tx))], (WaitTx tx), (Rejected e).
      split; [done|]. by left.
  - constructor. exists [], (SendTransaction req), (Rejected e). split; [done|]. by left.
Qed.

(** ** Batches of the distribution *)

Ltac div20 x :=
  pose proof (Nat.div_mod_eq x 20);
  pose proof (Nat.mod_upper_bound x 20 ltac:(lia)).

Lemma issues_elem {St A} (pool : list (prog St A)) b e :
  e ∈ mjoin (imap (λ i q, issue_of (Task (b + i)) q) pool) ↔
  ∃ i c k, pool !! i = Some (Await c k) ∧ e = Issue (Task (b + i)) c.
Proof.
  revert b. induction pool as [|q pool IH]; intros b; cbn.
  - split; [by intros ?%elem_of_nil|by intros (? & ? & ? & ? & ?)].
  - rewrite elem_of_app.
    assert (e ∈ mjoin (imap ((λ i q, issue_of (Task (b + i)) q) ∘ S) pool) ↔
            ∃ i c k, pool !! i = Some (Await c k) ∧ e = Issue (Task (b + S i)) c) as Hrest.
    { erewrite imap_ext; [rewrite (IH (S b))|].
      - split; intros (i & c & k & ? & ->); exists i, c, k; split; try done;
          do 2 f_equal; lia.
      - intros i x _. cbn. do 2 f_equal. lia. }
    rewrite Hrest. split.
    + intros [He|(i & c & k & Hi & ->)].
      * destruct q as [a|e0|c k|k|s k]; cbn in He; try by apply elem_of_nil in He.
        apply list_elem_of_singleton in He as ->. exists 0%nat, c, k. done.
      * exists (S i), c, k. done.
    + intros ([|i] & c & k & Hi & ->); simplify_eq/=.
      * left. by left.
      * right. eauto.
Qed.

Lemma transfer_may_issue_rejected req h c e c' :
  ¬ transfer_may_issue req (h ++ [(c, Rejected e)]) c'.
Proof.
  intros [[Hnil _]|(tx & Heq & _)].
  - by destruct h.
  - destruct h as [|? [|? ?]]; simplify_eq/=.
Qed.

Lemma transfer_done_rejected req h c e tx :
  ¬ transfer_done req (h ++ [(c, Rejected e)]) tx.
Proof.
  intros (rc & Heq). destruct h as [|? [|? [|? ?]]]; simplify_eq/=.
Qed.

Lemma local_snoc_settle who t c r :
  local who (t ++ [Settle who c r]) = local who t ++ [(c, r)].
Proof. by rewrite local_app, local_settle_same. Qed.
Section Batch.
Context {World : Type}.
Variable respond : World → Call → Response * World.
Variable choose : World → list nat → nat.
Variable wm : WalletManager.
Variables share n0 : Z.

Local Abbreviation batch_tasks := (batch_tasks wm share n0).
Local Abbreviation P := (batch_may_issue wm share n0).
Local Abbreviation Q := (batch_done wm share n0).
Local Abbreviation R := (λ (_ : nat), transfer_failed).

Lemma batch_tasks_lookup b batch i p :
  batch_tasks b batch !! i = Some p →
  ∃ wallet, batch !! i = Some wallet ∧
    p = transfer (address (masterWallet wm)) wallet share
          (n0 + Z.of_nat b + Z.of_nat i).
Proof.
  unfold batch_tasks. rewrite list_lookup_imap.
  destruct (batch !! i) as [wallet|]; intros ?; simplify_eq/=. eauto.
Qed.

Lemma batch_tasks_obeys b batch i p :
  batch_tasks b batch !! i = Some p →
  obeys (P b batch i) (Q b batch i) (R i) [] p.
Proof.
  intros (wallet & Hw & ->)%batch_tasks_lookup.
  eapply obeys_weaken; [apply transfer_obeys| | |done].
  - intros h c Hc. exists wallet. split; [done|].
    unfold transfer_request. by replace (n0 + Z.of_nat (b + i)) with
      (n0 + Z.of_nat b + Z.of_nat i) by lia.
  - intros h a Ha. exists wallet. split; [done|].
    unfold transfer_request. by replace (n0 + Z.of_nat (b + i)) with
      (n0 + Z.of_nat b + Z.of_nat i) by lia.
Qed.

Lemma batch_tasks_stateless b batch : Forall stateless (batch_tasks b batch).
Proof.
  apply Forall_forall. intros p [i Hi]%list_elem_of_lookup.
  apply batch_tasks_lookup in Hi as (wallet & _ & ->). apply transfer_stateless.
Qed.

Lemma batch_tasks_length b batch : length (batch_tasks b batch) = length batch.
Proof. unfold batch_tasks. by rewrite length_imap. Qed.

(** One batch: [b] is its first wallet, a multiple of the batch size. *)
Lemma batch_sound b batch s w o s' w' tr :
  (b = 20 * (b / 20))%nat →
  (length batch ≤ 20)%nat →
  (b + length batch = (b + 20) `min` length (childWallets wm))%nat →
  (∀ i wallet, batch !! i = Some wallet →
               childWallets wm !! (b + i)%nat = Some wallet) →
  promise_all respond choose (2 * length batch) b (batch_tasks b batch) s w
    = (o, s', w', tr) →
  s' = s ∧ o ≠ OutOfFuel ∧
  each_event (distribution_event_ok wm share n0 b) tr ∧
  (∀ e, e ∈ tr → ∃ j, actor_of e = Task j ∧ (b ≤ j < b + length batch)%nat) ∧
  (∀ rs, o = Returned rs →
     (∀ i, (b ≤ i < b + length batch)%nat → confirmed i tr) ∧
     (∀ t0 j c e0, tr ≠ t0 ++ [Settle (Task j) c (Rejected e0)])) ∧
  (∀ e, o = Threw e →
     ∃ t0 j c r, tr = t0 ++ [Settle (Task j) c r] ∧ bad_answer r e).
Proof.
  intros Hb Hlen Hend Hslice Hrun.
  pose proof (promise_all_stateless respond choose (2 * length batch) b
                (batch_tasks b batch) s w (batch_tasks_stateless b batch)) as Hs.
  pose proof (promise_all_fuel respond choose (2 * length batch) b
                (batch_tasks b batch) 2 s w) as Hfuel.
  rewrite Hrun in Hs, Hfuel. cbn in Hs, Hfuel.
  destruct (promise_all_sound respond choose (P b batch) (Q b batch) R
              _ _ _ _ _ _ _ _ _ (batch_tasks_obeys b batch) Hrun)
    as (pool & tr_pool & -> & HF & Hev & HC & HD).
  assert (pool = batch_tasks b batch) as ->.
  { pose proof (batch_tasks_stateless b batch) as Hst.
    apply list_eq_same_length with (length pool);
      [by eapply Forall2_length|done|].
    intros i q p _ Hq Hp.
    destruct (Forall2_lookup_r _ _ _ _ _ HF Hq) as (p' & Hp' & s0 & ->).
    simplify_eq. rewrite start_stateless; [done|].
    by eapply Forall_lookup_1. }
  set (issues := mjoin (imap (λ i q, issue_of (Task (b + i)) q) (batch_tasks b batch))).
  assert (∀ e, e ∈ issues → ∃ i wallet, batch !! i = Some wallet ∧
            e = Issue (Task (b + i))
                  (SendTransaction (transfer_request wm share n0 (b + i) wallet)))
    as Hiss_elem.
  { intros e (i & c & k & Hi & ->)%issues_elem.
    apply batch_tasks_lookup in Hi as (wallet & Hw & Heq).
    exists i, wallet. split; [done|]. cbn in Heq. simplify_eq.
    unfold transfer_request. do 3 f_equal. lia. }
  assert (∀ i, (b ≤ i < b + length batch)%nat → issued_transfer i issues)
    as Hiss_all.
  { intros i Hi. destruct (lookup_lt_is_Some_2 batch (i - b)) as [wallet Hw]; [lia|].
    eexists. apply issues_elem. exists (i - b)%nat.
    unfold batch_tasks. setoid_rewrite list_lookup_imap. rewrite Hw. cbn.
    do 2 eexists. split; [done|]. do 2 f_equal. lia. }
  assert (∀ t1 e t2, tr_pool = t1 ++ e :: t2 →
            ∃ i, actor_of e = Task (b + i) ∧ (i < length batch)%nat) as Hact.
  { intros t1 e t2 Heq. destruct (Hev _ _ _ Heq) as [(i & h & Ha & Hh & _) _].
    exists i. split; [done|].
    apply lookup_replicate in Hh as [_ Hh]. by rewrite batch_tasks_length in Hh. }
  assert (∀ e, e ∈ issues ++ tr_pool →
            ∃ j, actor_of e = Task j ∧ (b ≤ j < b + length batch)%nat) as Hrange.
  { intros e [He|He]%elem_of_app.
    - destruct (Hiss_elem _ He) as (i & wallet & Hw & ->).
      exists (b + i)%nat. split; [done|]. apply lookup_lt_Some in Hw. lia.
    - apply list_elem_of_split in He as (t1 & t2 & Heq).
      destruct (Hact _ _ _ Heq) as (i & Ha & Hi). exists (b + i)%nat. split; [done|lia]. }
  assert (∀ t0 j c e0, issues ≠ t0 ++ [Settle (Task j) c (Rejected e0)]) as Hiss_last.
  { intros t0 j c e0 Heq.
    destruct (Hiss_elem (Settle (Task j) c (Rejected e0))) as (? & ? & _ & ?); [|done].
    rewrite Heq. apply elem_of_app. right. by left. }
  split; [done|]. split.
  { apply Hfuel.
    - intros p [i Hi]%list_elem_of_lookup.
      apply batch_tasks_lookup in Hi as (wallet & _ & ->). apply transfer_depth.
    - rewrite batch_tasks_length. lia. }
  split; [|split; [done|split]].
  - apply each_event_app.
    + (* the broadcasts of the batch *)
      intros t1 e t2 Heq.
      assert (e ∈ issues) as He by (rewrite Heq; apply elem_of_app; right; by left).
      destruct (Hiss_elem _ He) as (i & wallet & Hw & ->).
      pose proof (lookup_lt_Some _ _ _ Hw) as Hi.
      assert (∀ e', e' ∈ t1 → e' ∈ issues ++ tr_pool) as Ht1.
      { intros e' He'. apply elem_of_app. left. rewrite Heq.
        apply elem_of_app. by left. }
      repeat split.
      * exists (b + i)%nat. split; [done|]. lia.
      * intros who c [= <- <-]. left. eauto.
      * intros i' req [= <- <-]. exists wallet. split; [by apply Hslice|done].
      * done.
      * intros j c [= <- <-] i' Hi' Hlt. div20 i'. div20 (b + i)%nat. lia.
      * intros e' i' j He' Ha' [= <-].
        destruct (Hrange e' (Ht1 _ He')) as (j' & Hj' & Hr').
        rewrite Ha' in Hj'. simplify_eq. div20 j'. div20 (b + i)%nat. lia.
      * intros t0 j c e0 ->.
        destruct (Hiss_elem (Settle (Task j) c (Rejected e0))) as (? & ? & _ & ?); [|done].
        rewrite Heq. rewrite <- app_assoc. apply elem_of_app. right. by left.
    + (* the settling of the batch *)
      intros t1 e t2 Heq.
      assert (∀ e', e' ∈ t1 → e' ∈ issues ++ tr_pool) as Ht1.
      { intros e' He'. apply elem_of_app. right. rewrite Heq.
        apply elem_of_app. by left. }
      assert (∀ t1' x, t1 = t1' ++ [x] →
                ∃ i, actor_of x = Task (b + i) ∧ (i < length batch)%nat) as Hlastact.
      { intros t1' x ->. apply (Hact t1' x (e :: t2)). by rewrite <- app_assoc in Heq. }
      destruct (Hev _ _ _ Heq) as [(i & h & Ha & Hh & Hiss) Hprev].
      clear Heq.
      apply lookup_replicate in Hh as [-> Hi]. rewrite batch_tasks_length in Hi.
      assert (∀ c, e = Issue (Task (b + i)) c → ∃ tx, c = WaitTx tx) as Hwait.
      { intros c ->. destruct (Hiss c eq_refl) as [(wallet & _ & HP) (t0 & c0 & r0 & ->)].
        cbn in HP. rewrite local_snoc_settle in HP.
        destruct HP as [[Hnil _]|(tx & _ & ->)]; [|eauto].
        by destruct (local (Task (b + i)) t0). }
      repeat split.
      * exists (b + i)%nat. split; [done|]. lia.
      * intros who c ->. cbn in Ha. subst who. right. by apply Hwait.
      * intros i' req ->. cbn in Ha. simplify_eq.
        destruct (Hwait _ eq_refl) as [? ?]. done.
      * intros j c r -> i' Hi' Hdiv. cbn in Ha. simplify_eq.
        assert (b ≤ i' < b + length batch)%nat as Hr.
        { div20 i'. div20 (b + i)%nat. lia. }
        destruct (Hiss_all _ Hr) as [req Hreq]. exists req.
        apply elem_of_app. by left.
      * intros j c -> i' Hi' Hlt. cbn in Ha. simplify_eq.
        div20 i'. div20 (b + i)%nat. lia.
      * intros e' i' j He' Ha' Hj. rewrite Ha in Hj. simplify_eq.
        destruct (Hrange e') as (j' & Hj' & Hr').
        { apply elem_of_app in He' as [?|?]; [apply elem_of_app; by left|by apply Ht1]. }
        rewrite Ha' in Hj'. simplify_eq. div20 j'. div20 (b + i)%nat. lia.
      * intros t0 j c e0 Hlast.
        destruct t1 as [|x t1 _] using rev_ind.
        { rewrite app_nil_r in Hlast. by eapply Hiss_last. }
        rewrite app_assoc in Hlast. apply app_inj_tail in Hlast as [<- ->].
        destruct (Hlastact t1 (Settle (Task j) c (Rejected e0)) eq_refl)
          as (j' & [= ->] & Hj').
        destruct (Hprev t1 j' [] c (Rejected e0) eq_refl) as [[c' ->]|[a Hq]].
        { apply lookup_replicate. by rewrite batch_tasks_length. }
        -- cbn in Ha. assert (i = j') as -> by (simplify_eq; lia).
           destruct (Hiss c' eq_refl) as [(wallet & _ & HP) _].
           cbn in HP. rewrite local_snoc_settle in HP.
           by eapply transfer_may_issue_rejected.
        -- cbn in Hq. rewrite local_snoc_settle in Hq.
           destruct Hq as (wallet & _ & Hq). by eapply transfer_done_rejected.
  - intros rs ->. destruct (HC rs eq_refl) as [Hlrs HQ].
    rewrite batch_tasks_length in Hlrs. split.
    + intros i Hi.
      destruct (lookup_lt_is_Some_2 rs (i - b)) as [tx Htx]; [lia|].
      destruct (HQ _ _ Htx) as (wallet & _ & rc & Hh).
      replace (b + (i - b))%nat with i in Hh by lia.
      exists tx, rc. apply local_elem. unfold issues. rewrite Hh. right. by left.
    + intros t0 j c e0 Hlast.
      destruct tr_pool as [|x t1 _] using rev_ind.
      { rewrite app_nil_r in Hlast. by eapply Hiss_last. }
      rewrite app_assoc in Hlast. apply app_inj_tail in Hlast as [<- ->].
      destruct (Hact t1 (Settle (Task j) c (Rejected e0)) []) as (j' & [= ->] & Hj');
        [done|].
      destruct (lookup_lt_is_Some_2 rs j') as [tx Htx]; [lia|].
      destruct (HQ _ _ Htx) as (wallet & _ & Hq).
      rewrite app_assoc, local_snoc_settle in Hq.
      by eapply transfer_done_rejected.
  - intros e ->. destruct (HD e eq_refl) as [[_ (i & Hi)]|(t1 & i & c & r & -> & Hi & HR)].
    + apply batch_tasks_lookup in Hi as (wallet & _ & Heq). done.
    + exists (issues ++ t1), (b + i)%nat, c, r. split; [by rewrite <- app_assoc|].
      rewrite app_assoc, local_snoc_settle in HR.
      destruct HR as (h0 & c' & r' & Heq & Hbad).
      apply app_inj_tail in Heq as [_ [= <- <-]]. done.
Qed.
End Batch.
Lemma slice_length {A} (l : list A) b :
  (b < length l)%nat →
  (b + length (slice b ((b + 20) `min` length l) l) = (b + 20) `min` length l)%nat.
Proof. intros. unfold slice. rewrite length_take, length_drop. lia. Qed.

Lemma slice_lookup {A} (l : list A) b e i x :
  slice b e l !! i = Some x → l !! (b + i)%nat = Some x.
Proof.
  unfold slice. intros [H _]%lookup_take_Some. by rewrite lookup_drop in H.
Qed.

Lemma confirmed_app_l i t1 t2 : confirmed i t1 → confirmed i (t1 ++ t2).
Proof. intros (tx & rc & H). exists tx, rc. apply elem_of_app. by left. Qed.

Lemma confirmed_app_r i t1 t2 : confirmed i t2 → confirmed i (t1 ++ t2).
Proof. intros (tx & rc & H). exists tx, rc. apply elem_of_app. by right. Qed.

Lemma issued_transfer_app_r i t1 t2 : issued_transfer i t2 → issued_transfer i (t1 ++ t2).
Proof. intros (req & H). exists req. apply elem_of_app. by right. Qed.

Section Distribution.
Context {World : Type}.
Variable respond : World → Call → Response * World.
Variable choose : World → list nat → nat.
Variables share n0 : Z.

Lemma distribute_batches_unfold fuel b cur (wm : WalletManager) w :
  distribute_batches respond choose fuel share b cur wm w =
  if bool_decide (b < length (childWallets wm))%nat then
    match fuel with
    | O => (OutOfFuel, wm, w, [])
    | S fuel' =>
        let batch := slice b ((b + 20) `min` length (childWallets wm))
                           (childWallets wm) in
        match promise_all respond choose (2 * length batch) b
                (imap (λ batchIndex wallet,
                         transfer (address (masterWallet wm)) wallet share
                                  (cur + Z.of_nat batchIndex))
                      batch) wm w with
        | (Returned _, s1, w1, tr1) =>
            let '(o, s2, w2, tr2) :=
              distribute_batches respond choose fuel' share (b + 20)
                (cur + Z.of_nat (length batch)) s1 w1 in
            (o, s2, w2, tr1 ++ tr2)
        | (Threw e, s1, w1, tr1) => (Threw e, s1, w1, tr1)
        | (OutOfFuel, s1, w1, tr1) => (OutOfFuel, s1, w1, tr1)
        end
    end
  else (Returned tt, wm, w, []).
Proof.
  destruct fuel as [|fuel']; cbn [distribute_batches];
    rewrite M_bind_unfold; cbn; case_bool_decide; try done.
  rewrite M_bind_unfold. unfold batchSize.
  destruct (promise_all _ _ _ _ _ _ _) as [[[[rs|e|] s1] w1] tr1]; try done.
  by destruct (distribute_batches _ _ _ _ _ _ _ _) as [[[? ?] ?] ?].
Qed.

Lemma distribute_batches_sound fuel : ∀ b cur (wm : WalletManager) w o wm' w' tr,
  (b = 20 * (b / 20))%nat →
  (length (childWallets wm) - b ≤ fuel)%nat →
  ((b < length (childWallets wm))%nat → cur = n0 + Z.of_nat b) →
  distribute_batches respond choose fuel share b cur wm w = (o, wm', w', tr) →
  wm' = wm ∧ o ≠ OutOfFuel ∧
  each_event (distribution_event_ok wm share n0 b) tr ∧
  (∀ e, e ∈ tr →
     ∃ j, actor_of e = Task j ∧ (b ≤ j < length (childWallets wm))%nat) ∧
  (o = Returned tt →
     (∀ i, (b ≤ i < length (childWallets wm))%nat → confirmed i tr) ∧
     (∀ t0 j c e0, tr ≠ t0 ++ [Settle (Task j) c (Rejected e0)])) ∧
  (∀ e, o = Threw e →
     ∃ t0 j c r, tr = t0 ++ [Settle (Task j) c r] ∧ bad_answer r e).
Proof.
  induction fuel as [|fuel IH]; intros b cur wm w o wm' w' tr Hb Hfuel Hcur;
    rewrite distribute_batches_unfold; case_bool_decide as Hlt;
    try (intros [= <- <- <- <-]; split; [done|]; split; [done|];
         split; [apply each_event_nil|]; split; [by intros ? ?%elem_of_nil|];
         split; [|done]; intros _; split; [intros; lia|by intros [|] ? ? ?]).
  { lia. }
  set (batch := slice b ((b + 20) `min` length (childWallets wm)) (childWallets wm)).
  cbn zeta.
  pose proof (slice_length (childWallets wm) b Hlt) as Hbl; fold batch in Hbl.
  assert (length batch ≤ 20)%nat as Hlen20 by lia.
  assert (∀ i wallet, batch !! i = Some wallet →
            childWallets wm !! (b + i)%nat = Some wallet) as Hslice
    by (intros ? ?; apply slice_lookup).
  destruct (promise_all _ _ _ _ _ _ _) as [[[[rs|e|] s1] w1] tr1] eqn:Hrun.
  all: rewrite (Hcur Hlt) in Hrun.
  all: destruct (batch_sound respond choose wm share n0 b batch wm w _ s1 w1 tr1
                   Hb Hlen20 Hbl Hslice Hrun)
         as (-> & Hnf & Hev & Hrange & HR & HT).
  - (* the batch is confirmed; the remaining batches follow *)
    destruct (distribute_batches respond choose fuel share (b + 20)
                (cur + Z.of_nat (length batch)) wm w1)
      as [[[o2 s2] w2] tr2] eqn:Hrest.
    intros [= <- <- <- <-].
    destruct (HR rs eq_refl) as [Hconf Hnorej].
    destruct (IH (b + 20)%nat (cur + Z.of_nat (length batch)) wm w1 o2 s2 w2 tr2)
      as (-> & Hnf2 & Hev2 & Hrange2 & HR2 & HT2);
      [div20 b; div20 (b + 20)%nat; lia|lia| |done|].
    { intros Hlt'. rewrite (Hcur Hlt). lia. }
    split; [done|]. split; [done|]. split; [|split; [|split]].
    + apply each_event_app; [done|].
      intros t1 e t2 Heq.
      destruct (Hev2 _ _ _ Heq) as ((j & Hj & Hjr) & H2 & H3 & H4 & H5 & H6 & H7).
      repeat split.
      * exists j. split; [done|lia].
      * done.
      * done.
      * intros j' c r -> i Hi Hdiv. cbn in Hj. simplify_eq.
        apply issued_transfer_app_r. eapply H4; [done| |done].
        div20 i. div20 j. lia.
      * intros j' c -> i Hi Hdiv. cbn in Hj. simplify_eq.
        destruct (decide (b + 20 ≤ i)%nat).
        -- apply confirmed_app_r. by eapply H5.
        -- apply confirmed_app_l. apply Hconf. lia.
      * intros e' i j' [He'|He']%elem_of_app Hi Hj'.
        -- destruct (Hrange _ He') as (i' & Hi' & Hr').
           rewrite Hj in Hj'. rewrite Hi in Hi'. simplify_eq.
           div20 i'. div20 j'. lia.
        -- by eapply H6.
      * intros t0 j' c e0 Hlast.
        destruct t1 as [|x t1 _] using rev_ind.
        -- rewrite app_nil_r in Hlast. by eapply Hnorej.
        -- rewrite app_assoc in Hlast. apply app_inj_tail in Hlast as [_ ->].
           by eapply H7.
    + intros e [He|He]%elem_of_app.
      * destruct (Hrange _ He) as (j & ? & ?). exists j. split; [done|lia].
      * destruct (Hrange2 _ He) as (j & ? & ?). exists j. split; [done|lia].
    + intros ->. destruct (HR2 eq_refl) as [Hconf2 Hnorej2]. split.
      * intros i Hi. destruct (decide (b + 20 ≤ i)%nat).
        -- apply confirmed_app_r, Hconf2. lia.
        -- apply confirmed_app_l, Hconf. lia.
      * intros t0 j c e0 Hlast.
        destruct tr2 as [|x t1 _] using rev_ind.
        -- rewrite app_nil_r in Hlast. by eapply Hnorej.
        -- rewrite app_assoc in Hlast. apply app_inj_tail in Hlast as [_ ->].
           by eapply Hnorej2.
    + intros e ->. destruct (HT2 e eq_refl) as (t0 & j & c & r & -> & Hbad).
      exists (tr1 ++ t0), j, c, r. by rewrite <- app_assoc.
  - (* a transfer of the batch failed *)
    intros [= <- <- <- <-].
    split; [done|]. split; [done|]. split; [done|]. split; [|split; [done|]].
    + intros e' He'. destruct (Hrange _ He') as (j & ? & ?). exists j. split; [done|lia].
    + intros e' [= <-]. by apply HT.
  - done.
Qed.
End Distribution.
(** ** [distributeFunds] *)

Section DistributeFunds.
Context {World : Type}.
Variable respond : World → Call → Response * World.
Variable choose : World → list nat → nat.

Lemma distributeFunds_funds_check (wm : WalletManager) w w1 B :
  respond w (GetBalance (address (masterWallet wm)))
    = (Fulfilled (VBigInt B), w1) →
  distributeFunds respond choose wm w =
  let m := address (masterWallet wm) in
  let pre := [Issue Main (GetBalance m);
              Settle Main (GetBalance m) (Fulfilled (VBigInt B))] in
  if B =? 0
  then (Threw (mkError "Master wallet has no funds to distribute"), wm, w1, pre)
  else
    match gasReserve (length (childWallets wm)) with
    | None => (Threw (mkError "invalid FixedNumber string value"), wm, w1, pre)
    | Some reserve =>
        if B - reserve <=? 0
        then (Threw (mkError "Insufficient funds after reserving gas"), wm, w1, pre)
        else if bool_decide (length (childWallets wm) = 0%nat)
        then (Threw (mkError "Division by zero"), wm, w1, pre)
        else
          let '(o, s, w', tr) :=
            (currentNonce ← exec respond (getTransactionCount m);
             distribute_batches respond choose (length (childWallets wm))
               ((B - reserve) `quot` Z.of_nat (length (childWallets wm)))
               0%nat currentNonce) wm w1 in
          (o, s, w', pre ++ tr)
    end.
Proof.
  intros Hr. unfold distributeFunds.
  rewrite M_bind_unfold. cbn [get_state].
  rewrite M_bind_unfold. cbn [exec getBalance]. rewrite Hr. cbn.
  destruct (B =? 0); [done|].
  destruct (gasReserve _) as [reserve|]; [|done].
  destruct (B - reserve <=? 0); [done|].
  case_bool_decide; [done|].
  match goal with
  | |- context [(?m ≫= ?f) wm w1] => by destruct ((m ≫= f) wm w1) as [[[? ?] ?] ?]
  end.
Qed.

(** The run of a distribution that passes the funds check. *)
Lemma distributeFunds_run (wm : WalletManager) w w1 w2 B reserve n0 :
  let m := address (masterWallet wm) in
  let share := (B - reserve) `quot` Z.of_nat (length (childWallets wm)) in
  respond w (GetBalance m) = (Fulfilled (VBigInt B), w1) →
  B ≠ 0 →
  gasReserve (length (childWallets wm)) = Some reserve →
  0 < B - reserve →
  childWallets wm ≠ [] →
  respond w1 (GetTransactionCount m) = (Fulfilled (VNumber n0), w2) →
  ∃ o w' tr,
    distributeFunds respond choose wm w
      = (o, wm, w',
         [Issue Main (GetBalance m);
          Settle Main (GetBalance m) (Fulfilled (VBigInt B));
          Issue Main (GetTransactionCount m);
          Settle Main (GetTransactionCount m) (Fulfilled (VNumber n0))] ++ tr) ∧
    o ≠ OutOfFuel ∧
    each_event (distribution_event_ok wm share n0 0) tr ∧
    (o = Returned tt →
       (∀ i, (i < length (childWallets wm))%nat → confirmed i tr) ∧
       (∀ t0 j c e0, tr ≠ t0 ++ [Settle (Task j) c (Rejected e0)])) ∧
    (∀ e, o = Threw e →
       ∃ t0 j c r, tr = t0 ++ [Settle (Task j) c r] ∧ bad_answer r e).
Proof.
  intros m share Hbal HB Hres Hpos Hne Hcnt.
  rewrite (distributeFunds_funds_check wm w w1 B Hbal). cbn zeta.
  rewrite (proj2 (Z.eqb_neq B 0) HB), Hres.
  rewrite (proj2 (Z.leb_gt (B - reserve) 0) Hpos).
  rewrite bool_decide_false by (by destruct (childWallets wm)).
  rewrite M_bind_unfold. cbn [exec getTransactionCount]. fold m. rewrite Hcnt. cbn.
  destruct (distribute_batches respond choose (length (childWallets wm)) share 0 n0 wm w2)
    as [[[o s] w'] tr] eqn:Hrun.
  destruct (distribute_batches_sound respond choose share n0
              (length (childWallets wm)) 0%nat n0 wm w2 o s w' tr)
    as (-> & Hnf & Hev & Hrange & HR & HT); [done|lia|intros; lia|done|].
  exists o, w', tr. split; [unfold share in Hrun; by rewrite Hrun|].
  split; [done|]. split; [done|]. split; [|done].
  intros Ho. destruct (HR Ho) as [Hc Hn]. split; [|done].
  intros i Hi. apply Hc. lia.
Qed.

(** C6: when the balance of the master wallet is zero, or not more than
    the gas reserve, [distributeFunds] throws one of its two
    insufficient-funds errors right after reading the balance: the
    only request it makes is that balance query, no transfer is
    broadcast. *)
Theorem C6_insufficient_funds (wm : WalletManager) (w w1 : World) (B : Z) :
  respond w (GetBalance (address (masterWallet wm)))
    = (Fulfilled (VBigInt B), w1) →
  (B = 0 ∨ ∃ reserve, gasReserve (length (childWallets wm)) = Some reserve ∧
                      B - reserve ≤ 0) →
  ∃ e,
    distributeFunds respond choose wm w
      = (Threw e, wm, w1,
         [Issue Main (GetBalance (address (masterWallet wm)));
          Settle Main (GetBalance (address (masterWallet wm)))
                 (Fulfilled (VBigInt B))]) ∧
    InsufficientFunds e.
Proof.
  intros Hbal Hcase.
  rewrite (distributeFunds_funds_check wm w w1 B Hbal). cbn zeta.
  destruct (B =? 0) eqn:HB.
  { eexists. split; [done|]. by left. }
  destruct Hcase as [->|(reserve & -> & Hle)]; [done|].
  rewrite (proj2 (Z.leb_le (B - reserve) 0) Hle).
  eexists. split; [done|]. by right.
Qed.


(** C8: in a distribution that passes the funds check, a rejected
    broadcast or confirmation ends the run: the rejection is the last
    event, [distributeFunds] throws that error, no request of a later
    batch has been issued, and every transfer of the failing batch was
    broadcast before (nothing undoes them). *)
Theorem C8_batch_failure_aborts (wm : WalletManager) (w w1 w2 : World)
    (B reserve n0 : Z) :
  let m := address (masterWallet wm) in
  respond w (GetBalance m) = (Fulfilled (VBigInt B), w1) →
  B ≠ 0 →
  gasReserve (length (childWallets wm)) = Some reserve →
  0 < B - reserve →
  childWallets wm ≠ [] →
  respond w1 (GetTransactionCount m) = (Fulfilled (VNumber n0), w2) →
  ∃ o w' tr,
    distributeFunds respond choose wm w
      = (o, wm, w',
         [Issue Main (GetBalance m);
          Settle Main (GetBalance m) (Fulfilled (VBigInt B));
          Issue Main (GetTransactionCount m);
          Settle Main (GetTransactionCount m) (Fulfilled (VNumber n0))] ++ tr) ∧
    ∀ t1 i c e t2, tr = t1 ++ Settle (Task i) c (Rejected e) :: t2 →
      o = Threw e ∧ t2 = [] ∧
      (∀ j c', Issue (Task j) c' ∈ tr → (j / 20 ≤ i / 20)%nat) ∧
      (∀ j, (j < length (childWallets wm))%nat → (j / 20 = i / 20)%nat →
            issued_transfer j t1).
Proof.
  intros m Hbal HB Hres Hpos Hne Hcnt.
  destruct (distributeFunds_run wm w w1 w2 B reserve n0 Hbal HB Hres Hpos Hne Hcnt)
    as (o & w' & tr & Hrun & Hnf & Hev & HR & HT).
  exists o, w', tr. split; [done|].
  intros t1 i c e t2 Heq.
  assert (t2 = []) as ->.
  { destruct t2 as [|x t2]; [done|]. exfalso.
    destruct (Hev (t1 ++ [Settle (Task i) c (Rejected e)]) x t2)
      as (_ & _ & _ & _ & _ & _ & H7).
    - by rewrite <- app_assoc.
    - by eapply H7. }
  destruct (Hev _ _ _ Heq) as (_ & _ & _ & H4 & _ & H6 & _).
  split; [|split; [done|split]].
  - destruct o as [[]|e'|]; [|f_equal|done].
    + destruct (HR eq_refl) as [_ Hn]. by destruct (Hn t1 i c e).
    + destruct (HT e' eq_refl) as (t0 & j & c' & r & Heq' & Hbad).
      rewrite Heq in Heq'. apply app_inj_tail in Heq' as [_ [= <- <- <-]].
      destruct Hbad as [[= ->]|(? & ? & _)]; done.
  - intros j c' Hin. rewrite Heq in Hin.
    apply elem_of_app in Hin as [Hin|Hin].
    + by eapply (H6 _ j i Hin).
    + apply list_elem_of_singleton in Hin. done.
  - intros j Hj Hdiv. eapply H4; [done|lia|done].
Qed.
End DistributeFunds.
(** ** [collectAllFunds] *)

Lemma collectOne_stateless master wallet : stateless (collectOne master wallet).
Proof.
  unfold collectOne. cbn.
  constructor. intros [[| | | | | |]|]; cbn; try constructor.
  destruct (_ =? _); cbn; [constructor|].
  constructor. intros [[| | | | | |]|]; cbn; try constructor.
  destruct (_ <=? _); cbn; [constructor|].
  constructor. intros [[| | | | | |]|]; cbn; try constructor.
  intros [[| | | | | |]|]; cbn; try constructor.
  intros [[| | | | | |]|]; cbn; try constructor.
  destruct (_ =? _); cbn; constructor.
Qed.

Lemma collectOne_depth master wallet : depth_le 5 (collectOne master wallet).
Proof.
  unfold collectOne. cbn.
  constructor. intros [[| | | | | |]|]; cbn; try constructor.
  destruct (_ =? _); cbn; [constructor|].
  constructor. intros [[| | | | | |]|]; cbn; try constructor.
  destruct (_ <=? _); cbn; [constructor|].
  constructor. intros [[| | | | | |]|]; cbn; try constructor.
  intros [[| | | | | |]|]; cbn; try constructor.
  intros [[| | | | | |]|]; cbn; try constructor.
  destruct (_ =? _); cbn; constructor.
Qed.

Lemma collectOne_obeys master wallet :
  obeys (collect_may_issue (address wallet) master)
        (collected (address wallet) master)
        (λ _ _, False) []
        (collectOne master wallet : prog WalletManager CollectResult).
Proof.
  set (a := address wallet).
  assert (∀ h c v, last h = Some (c, Fulfilled v) →
            obeys (collect_may_issue a master) (collected a master) (λ _ _, False) h
                  (Done {| success := false; amount := 0 |} : prog WalletManager _))
    as Hty.
  { intros h c v Hl. constructor. eapply collected_error; [done|]. right. eauto. }
  assert (∀ h c e, last h = Some (c, Rejected e) →
            obeys (collect_may_issue a master) (collected a master) (λ _ _, False) h
                  (Done {| success := false; amount := 0 |} : prog WalletManager _))
    as Hrej.
  { intros h c e Hl. constructor. eapply collected_error; [done|]. by left. }
  unfold collectOne. cbn. fold a.
  constructor; [by intros ? ?|].
  intros [[bal| | | | | |]|e]; cbn; try (by eapply Hty); try (by eapply Hrej).
  destruct (Z.eqb_spec bal 0) as [->|Hbal]; cbn; [constructor; constructor|].
  constructor; [by intros ? ?|].
  intros [[| |g| | | |]|e]; cbn; try (by eapply Hty); try (by eapply Hrej).
  fold (estimated_cost g).
  destruct (Z.leb_spec bal (estimated_cost g)) as [Hle|Hgt]; cbn.
  { constructor. by constructor. }
  constructor; [by intros ? ?|].
  intros [[|n| | | | |]|e]; cbn; try (by eapply Hty); try (by eapply Hrej).
  fold (sweep_request a master bal g n).
  constructor.
  { intros req [= <-]. exists bal, g, n. done. }
  intros [[| | |tx| | |]|e]; cbn; try (by eapply Hty); try (by eapply Hrej).
  constructor; [by intros ? ?|].
  intros [[| | | |rc| |]|e]; cbn; try (by eapply Hty); try (by eapply Hrej).
  destruct (Z.eqb_spec (status rc) 1) as [Hst|Hst]; cbn; constructor.
  - by constructor.
  - by constructor.
Qed.

Lemma aggregate_spec results :
  aggregate results = (count_successful results, sum_collected results).
Proof.
  unfold aggregate, count_successful.
  assert (∀ s t,
            fold_left
              (λ '(successful, total) result,
                 if success result then (successful + 1, total + amount result)
                 else (successful, total)) results (s, t)
            = (s + Z.of_nat (length (filter (λ r, success r = true) results)),
               t + sum_collected results)) as H.
  { induction results as [|r results IH]; intros s t.
    - cbn. f_equal; lia.
    - rewrite filter_cons. cbn [fold_left sum_collected foldr].
      fold (sum_collected results).
      destruct (success r) eqn:Hs.
      + rewrite decide_True by done. rewrite IH. cbn [length].
        f_equal; lia.
      + rewrite decide_False by done. rewrite IH. f_equal. }
  rewrite H. f_equal.
Qed.

Section CollectAllFunds.
Context {World : Type}.
Variable respond : World → Call → Response * World.
Variable choose : World → list nat → nat.

End CollectAllFunds.
(** ** [createWallets] and the validation of the wallet count *)

Lemma generated_app t1 t2 : generated (t1 ++ t2) = generated t1 ++ generated t2.
Proof.
  induction t1 as [|e t1 IH]; [done|].
  destruct e as [a c|[|n] [] [[]|]]; cbn; by rewrite ?IH.
Qed.

Section CreateWallets.
Context {World : Type}.
Variable respond : World → Call → Response * World.

Lemma createWallets_loop_spec n : ∀ (wm : WalletManager) w,
  (∀ w0, ∃ wallet w1, respond w0 CreateRandom = (Fulfilled (VWallet wallet), w1)) →
  ∃ wm' w' tr,
    createWallets_loop respond n wm w = (Returned tt, wm', w', tr) ∧
    childWallets wm' = childWallets wm ++ generated tr ∧
    masterWallet wm' = masterWallet wm ∧
    length (generated tr) = n.
Proof.
  induction n as [|n IH]; intros wm w Hgen.
  - exists wm, w, []. cbn. rewrite app_nil_r. done.
  - destruct (Hgen w) as (wallet & w1 & Hr).
    destruct (IH (set_nonce (address wallet) 0 (push_wallet wallet wm)) w1 Hgen)
      as (wm' & w' & tr & Hrun & Hch & Hm & Hlen).
    exists wm', w',
      (Issue Main CreateRandom
         :: Settle Main CreateRandom (Fulfilled (VWallet wallet)) :: tr).
    split; [|split; [|split]].
    + cbn [createWallets_loop]. rewrite M_bind_unfold. unfold ask. rewrite Hr.
      rewrite M_bind_unfold. cbn [get_state]. rewrite M_bind_unfold. cbn [put_state].
      rewrite Hrun. done.
    + rewrite Hch. cbn. by rewrite <- app_assoc.
    + by rewrite Hm.
    + cbn. by rewrite Hlen.
Qed.

(** C2 (as the code has it): with a generator that always yields a
    wallet, [createWallets(n)] appends to the pool the [max 0 n]
    wallets the generator handed out, in that order, and returns the
    pool; the new addresses are pairwise distinct whenever the
    generated ones are.  With [n ≤ 0] it does not throw: it returns
    the pool unchanged, without a request to the generator.  A count
    [≤ 0] is rejected earlier, by [validateConfig]. *)
Theorem C2_createWallets (wm : WalletManager) (w : World) (n : Z) :
  (∀ w0, ∃ wallet w1, respond w0 CreateRandom = (Fulfilled (VWallet wallet), w1)) →
  (∃ wm' w' tr,
     createWallets respond n wm w
       = (Returned (childWallets wm ++ generated tr), wm', w', tr) ∧
     childWallets wm' = childWallets wm ++ generated tr ∧
     length (generated tr) = Z.to_nat n ∧
     (NoDup (address <$> generated tr) →
      childWallets wm = [] → NoDup (address <$> childWallets wm')) ∧
     (n ≤ 0 → wm' = wm ∧ w' = w ∧ tr = [])) ∧
  (∀ cfg : AppConfig, numWallets cfg ≤ 0 → ∃ e, validateConfig cfg = Threw e).
Proof.
  intros Hgen. split.
  - destruct (createWallets_loop_spec (Z.to_nat n) wm w Hgen)
      as (wm' & w' & tr & Hrun & Hch & Hm & Hlen).
    exists wm', w', tr. split; [|split; [done|split; [done|split]]].
    + unfold createWallets. rewrite M_bind_unfold, Hrun.
      rewrite M_bind_unfold. cbn. by rewrite Hch, app_nil_r.
    + intros Hnd Hempty. by rewrite Hch, Hempty.
    + intros Hle. replace (Z.to_nat n) with 0%nat in Hrun by lia.
      cbn in Hrun. unfold mret, M_mret, M_ret in Hrun. by simplify_eq.
  - intros cfg Hle. unfold validateConfig.
    assert ("NUM_WALLETS must be greater than 0"%string ∈ config_errors cfg) as Hin.
    { unfold config_errors. rewrite (proj2 (Z.leb_le _ _) Hle).
      rewrite !elem_of_app. right. right. left. by left. }
    destruct (config_errors cfg); [by apply elem_of_nil in Hin|]. eauto.
Qed.
End CreateWallets.

(** C2, counterexample to the claim as stated: [createWallets(0)]
    returns the empty pool, it does not fail. *)
Lemma C2_counterexample :
  createWallets scripted_respond 0 (WalletManager_new demo_master) []
    = (Returned [], WalletManager_new demo_master, [], []).
Proof. reflexivity. Qed.

(** ** [stop] before [startLoadTest] *)

(** C3 (as the code has it): [stop()] on a tester that was never started
    changes nothing, so the counters stay at zero and the flag stays
    false; a following [startLoadTest()] runs exactly as it does on a
    fresh tester. *)
Theorem C3_stop_before_start {World} (respond : World → Call → Response * World)
    (choose : World → list nat → nat) (wm : WalletManager) (cfg : Config) (w : World) :
  let lt := LoadTester_new wm cfg in
  stop lt = lt ∧
  getStats (stop lt) = zero_stats ∧
  isRunning (stop lt) = false ∧
  startLoadTest respond choose (stop lt) w = startLoadTest respond choose lt w.
Proof. done. Qed.

(** C3, counterexample to the claim as stated: after [stop()] on a fresh
    tester with one wallet and one transaction per wallet, the counters
    are zero, and [startLoadTest()] then broadcasts the transaction and
    counts it. *)
Lemma C3_counterexample :
  let lt := stop (LoadTester_new (demo_manager 1) (mkConfig 1 0)) in
  let run := startLoadTest scripted_respond oldest_first lt favourable_script in
  getStats lt = zero_stats ∧
  run.1.1.1 = Returned tt ∧
  totalTransactions (stats run.1.1.2) = 1 ∧
  successfulTransactions (stats run.1.1.2) = 1 ∧
  broadcasts run.2
    = [{| tx_from := "0"; tx_to := "0xMASTER";
          tx_value := transactionAmount; tx_nonce := 7 |}].
Proof. vm_compute. done. Qed.
(** ** The gas reserve of [distributeFunds] *)

Lemma parseEther_transactionAmount :
  JSNumber.parseEther "0.0001" = Some transactionAmount.
Proof. reflexivity. Qed.

(** Up to 34 wallets the reserve is exactly 0.01 ETH per wallet. *)
Lemma gasReserve_exact_below_35 :
  Forall (λ n, gasReserve n = Some (Z.of_nat n * ether / 100)) (seq 0 35).
Proof. repeat constructor. Qed.

(** The scenario of the documentation: 10 ETH for 10 wallets. *)
Lemma distribution_plan_10_10 :
  gasReserve 10 = Some (ether / 10) ∧
  (10 * ether - ether / 10) `quot` 10 = 99 * ether / 100.
Proof. split; reflexivity. Qed.

(** C4, the code at 35 wallets: [0.01 * 35] is the double
    0.35000000000000003, so the reserve is 0.35 ETH plus 30 wei; with a
    balance of exactly that amount nothing is left and the distribution
    is refused, although the balance exceeds 0.01 ETH per wallet. *)
Theorem C4_gas_reserve_at_35 :
  JSNumber.toString (JSNumber.mul JSNumber.lit_0_01 (JSNumber.of_Z 35))
    = "0.35000000000000003"%string ∧
  gasReserve 35 = Some (35 * ether / 100 + 30) ∧
  distributeFunds scripted_respond oldest_first (demo_manager 35)
    [Fulfilled (VBigInt (35 * ether / 100 + 30))]
  = (Threw (mkError "Insufficient funds after reserving gas"),
     demo_manager 35, [],
     [Issue Main (GetBalance "0xMASTER");
      Settle Main (GetBalance "0xMASTER")
             (Fulfilled (VBigInt (35 * ether / 100 + 30)))]).
Proof. vm_compute. done. Qed.

(** ** The loop of one wallet *)

Local Ltac walk_state :=
  repeat first [apply obeys_get; intros ? | apply obeys_put].

Local Ltac walk_handler :=
  walk_state;
  match goal with
  | |- context [is_nonce_issue ?e] =>
      let Hni := fresh "Hni" in
      destruct (is_nonce_issue e) eqn:Hni; cbn;
      [apply obeys_await;
       [cbn; do 2 eexists; split; [by rewrite last_snoc|done]
       |intros [[]|]; cbn; walk_state; by constructor]
      |by constructor]
  | |- _ => by constructor
  end.

Lemma sendTransaction_obeys wallet h :
  obeys dispatch_may_issue (λ h' _, ends_confirmed h') (λ _ _, True) h
        (sendTransaction wallet).
Proof.
  unfold sendTransaction. cbn.
  walk_state. apply obeys_await; [done|]. intros r.
  destruct r as [[| | |tx| | |]|e]; cbn; try walk_handler.
  walk_state. apply obeys_await.
  { cbn. eexists. by rewrite last_snoc. }
  intros r0.
  destruct r0 as [[| | | |rc| |]|e]; cbn; try walk_handler.
  destruct (status rc =? 1); cbn; walk_state; constructor;
    rewrite <- app_assoc; by do 4 eexists.
Qed.

Lemma wallet_loop_obeys wallet cfg n : ∀ i h,
  obeys dispatch_may_issue (λ _ _, True) (λ _ _, False) h
        (wallet_loop wallet cfg n i).
Proof.
  induction n as [|n IH]; intros i h; [by constructor|].
  cbn [wallet_loop].
  eapply (obeys_bind _ (λ h1 _, h1 = h)); [apply obeys_get; intros; by constructor|].
  intros h1 running ->.
  destruct (negb running); [by constructor|].
  eapply (obeys_bind _ (λ _ _, True)); [|intros; apply IH].
  eapply (obeys_try_catch _ _ (λ _ _, True)).
  - eapply (obeys_bind _ (λ h' _, ends_confirmed h')).
    + eapply obeys_weaken; [apply sendTransaction_obeys|done..].
    + intros h1 _ Hh1. destruct (_ <? _); [|by constructor].
      apply obeys_await; [by right|]. intros r. by constructor.
  - intros h1 e _. walk_state. by constructor.
Qed.

Lemma runWalletTransactions_obeys wallet index :
  obeys dispatch_may_issue (λ _ _, True) (λ _ _, False) []
        (runWalletTransactions wallet index).
Proof.
  unfold runWalletTransactions.
  eapply (obeys_bind _ (λ h1 _, h1 = [])); [apply obeys_get; intros; by constructor|].
  intros h1 lt ->.
  eapply (obeys_bind _ (λ _ _, True)); [|intros; apply wallet_loop_obeys].
  apply obeys_await; [by left|]. intros r. by constructor.
Qed.

Local Ltac walk_depth :=
  repeat (cbn;
    first
      [ apply depth_done
      | apply depth_fail
      | apply depth_get; intros ?
      | apply depth_put
      | apply depth_await; intros ?
      | match goal with
        | |- context [match ?r with Fulfilled _ => _ | Rejected _ => _ end] =>
            destruct r as [[]|]
        | |- context [if ?b then _ else _] => destruct b
        end ]).

Lemma sendTransaction_depth wallet : depth_le 3 (sendTransaction wallet).
Proof. unfold sendTransaction. walk_depth. Qed.

Lemma wallet_loop_depth wallet cfg n : ∀ i,
  depth_le (4 * n) (wallet_loop wallet cfg n i).
Proof.
  induction n as [|n IH]; intros i; [by constructor|].
  cbn [wallet_loop]. replace (4 * S n)%nat with (0 + (4 + 4 * n))%nat by lia.
  apply depth_bind; [apply depth_get; intros; constructor|]. intros running.
  destruct (negb running); [constructor|].
  apply depth_bind; [|intros; apply IH].
  replace 4%nat with (4 + 0)%nat by lia. apply depth_try_catch.
  - replace 4%nat with (3 + 1)%nat by lia.
    apply depth_bind; [apply sendTransaction_depth|].
    intros _. destruct (_ <? _); walk_depth.
  - intros e. walk_depth.
Qed.

Lemma runWalletTransactions_depth wallet index (lt : LoadTester) :
  depth_le (wallet_fuel (config lt)) (start (runWalletTransactions wallet index) lt).2.
Proof.
  unfold runWalletTransactions, wallet_fuel. cbn.
  constructor. intros r. cbn. apply wallet_loop_depth.
Qed.
Lemma app_split_cases {A} (l1 l2 t1 t2 : list A) e :
  l1 ++ l2 = t1 ++ e :: t2 →
  (∃ t2', l1 = t1 ++ e :: t2' ∧ t2 = t2' ++ l2) ∨
  (∃ t1', t1 = l1 ++ t1' ∧ l2 = t1' ++ e :: t2).
Proof.
  revert t1. induction l1 as [|x l1 IH]; intros t1 Heq.
  - right. by exists t1.
  - destruct t1 as [|y t1]; cbn in Heq; injection Heq as -> Heq.
    + left. by exists l1.
    + destruct (IH _ Heq) as [(t2' & -> & ->)|(t1' & -> & ->)].
      * left. by exists t2'.
      * right. by exists t1'.
Qed.

Lemma local_prefix_nil who t1 t2 : local who (t1 ++ t2) = [] → local who t1 = [].
Proof. rewrite local_app. by intros [? ?]%app_eq_nil. Qed.

(** ** The dispatch of [startLoadTest] *)

Section Dispatch.
Context {World : Type}.
Variable respond : World → Call → Response * World.
Variable choose : World → list nat → nat.

Lemma start_all_readonly {A} who (ps : list (prog LoadTester A)) (s : LoadTester) :
  (∀ p, p ∈ ps → (start p s).1 = s) →
  ∃ evs, start_all who ps s = (s, (λ p, (start p s).2) <$> ps, evs).
Proof.
  revert who. induction ps as [|p ps IH]; intros who Hro; [by eexists|].
  cbn. pose proof (Hro p ltac:(by left)) as Hp.
  destruct (start p s) as [s1 q]. cbn in Hp. subst s1.
  destruct (IH (S who)) as [evs ->]; [intros; apply Hro; by right|].
  by eexists.
Qed.

Lemma dispatch_tasks_lookup (wallets : list Wallet) i p :
  imap (λ index wallet, runWalletTransactions wallet index) wallets !! i = Some p →
  ∃ wallet, wallets !! i = Some wallet ∧ p = runWalletTransactions wallet i.
Proof.
  rewrite list_lookup_imap. destruct (wallets !! i); intros ?; simplify_eq/=. eauto.
Qed.

(** The dispatch settles completely: it neither exhausts the fuel of
    the model nor throws, whatever the ledger answers. *)
Lemma dispatch_returns wallets (lt : LoadTester) w :
  ∃ rs, (dispatch respond choose wallets (config lt) lt w).1.1.1 = Returned rs.
Proof.
  unfold dispatch, promise_all.
  set (ps := imap (λ index wallet, runWalletTransactions wallet index) wallets).
  destruct (start_all_readonly 0 ps lt) as [evs ->].
  { intros p [i Hi]%list_elem_of_lookup.
    apply dispatch_tasks_lookup in Hi as (wallet & _ & ->). done. }
  set (pool := (λ p, (start p lt).2) <$> ps).
  assert (∀ i q, pool !! i = Some q →
            ∃ wallet, q = (start (runWalletTransactions wallet i) lt).2) as Hpool.
  { intros i q. unfold pool. rewrite list_lookup_fmap.
    destruct (ps !! i) as [p|] eqn:Hp; intros ?; simplify_eq/=.
    apply dispatch_tasks_lookup in Hp as (wallet & _ & ->). eauto. }
  assert (Forall is_live pool) as Hlive.
  { apply Forall_forall. intros q [i Hi]%list_elem_of_lookup.
    destruct (Hpool _ _ Hi) as (wallet & ->). done. }
  assert (first_failed pool = None) as ->.
  { unfold first_failed.
    destruct (list_find _ pool) as [[i q]|] eqn:Hf; [|done].
    apply list_find_Some in Hf as (Hi & [e He] & _).
    destruct (Hpool _ _ Hi) as (wallet & ->). done. }
  pose proof (pool_run_fuel respond choose (length wallets * wallet_fuel (config lt)) 0
                pool (replicate (length pool) (wallet_fuel (config lt))) lt w) as Hfuel.
  destruct (pool_run respond choose (length wallets * wallet_fuel (config lt)) 0 pool lt w)
    as [[[o s2] w2] tr] eqn:Hrun.
  assert (∀ i (h : hist) q, replicate (length pool) [] !! i = Some h → pool !! i = Some q →
            obeys dispatch_may_issue (λ _ (_ : unit), True) (λ _ _, False) h q) as Hob.
  { intros i h q [-> _]%lookup_replicate Hq.
    destruct (Hpool _ _ Hq) as (wallet & ->).
    apply start_obeys, runWalletTransactions_obeys. }
  destruct (pool_run_sound respond choose
              (λ _, dispatch_may_issue) (λ _ _ (_ : unit), True) (λ _ _ _, False)
              _ _ _ _ _ _ _ _ _ _
              (length_replicate (length pool) ([] : hist)) Hlive Hob Hrun)
    as (_ & _ & HT).
  destruct o as [rs|e|]; cbn.
  - eauto.
  - destruct (HT e eq_refl) as (? & ? & ? & ? & ? & _ & _ & []).
  - exfalso. cbn in Hfuel. apply Hfuel; [ |done| |done].
    + apply Forall2_same_length_lookup. split; [by rewrite length_replicate|].
      intros i d q [-> _]%lookup_replicate Hq.
      destruct (Hpool _ _ Hq) as (wallet & ->). apply runWalletTransactions_depth.
    + rewrite sum_list_replicate. unfold pool, ps.
      by rewrite length_fmap, length_imap.
Qed.

(** C10: in the dispatch, a wallet goes to sleep only at its very
    start (the stagger) or right after a fulfilled broadcast followed
    by its fulfilled confirmation; and the request that follows a
    rejection is the next broadcast, or the nonce query when the error
    mentions the nonce, never the interval sleep. *)
Theorem C10_no_sleep_after_error (wallets : list Wallet) (cfg : Config)
    (lt : LoadTester) (w : World) :
  ∃ o lt' w' tr,
    dispatch respond choose wallets cfg lt w = (o, lt', w', tr) ∧
    (∀ t1 i num den t2, tr = t1 ++ Issue (Task i) (Sleep num den) :: t2 →
       local (Task i) t1 = [] ∨ ends_confirmed (local (Task i) t1)) ∧
    (∀ t1 i c e c' t2,
       tr = t1 ++ Settle (Task i) c (Rejected e) :: Issue (Task i) c' :: t2 →
       (∃ req, c' = SendTransaction req) ∨
       (∃ a, c' = GetTransactionCount a ∧ is_nonce_issue e = true)).
Proof.
  destruct (dispatch respond choose wallets cfg lt w) as [[[o lt'] w'] tr] eqn:Hrun.
  exists o, lt', w', tr. split; [done|].
  unfold dispatch in Hrun.
  assert (∀ i p,
            imap (λ index wallet, runWalletTransactions wallet index) wallets !! i = Some p →
            obeys dispatch_may_issue (λ _ (_ : unit), True) (λ _ _, False) [] p) as Hob.
  { intros i p (wallet & _ & ->)%dispatch_tasks_lookup.
    apply runWalletTransactions_obeys. }
  destruct (promise_all_sound respond choose
              (λ _, dispatch_may_issue) (λ _ _ (_ : unit), True) (λ _ _ _, False)
              _ _ _ _ _ _ _ _ _ Hob Hrun)
    as (pool & tr_pool & -> & HF & Hev & _ & _).
  set (issues := mjoin (imap (λ i q, issue_of (Task (0 + i)) q) pool)).
  assert (∀ t1 i c' t2, issues ++ tr_pool = t1 ++ Issue (Task i) c' :: t2 →
            local (Task i) t1 = [] ∨ dispatch_may_issue (local (Task i) t1) c') as Hiss.
  { intros t1 i c' t2 [(t2' & Heq & _)|(t1' & -> & Heq)]%app_split_cases.
    - left. apply (local_prefix_nil _ _ (Issue (Task i) c' :: t2')).
      rewrite <- Heq. apply local_issues.
    - right. destruct (Hev _ _ _ Heq) as [(j & h & Ha & Hh & Hi) _].
      cbn in Ha. simplify_eq. apply lookup_replicate in Hh as [-> _].
      destruct (Hi _ eq_refl) as [HP _]. cbn in HP.
      unfold issues. by rewrite local_app, local_issues. }
  split.
  - intros t1 i num den t2 Heq. destruct (Hiss _ _ _ _ Heq) as [?|HP]; [by left|].
    destruct HP as [?|?]; [by left|by right].
  - intros t1 i c e c' t2 Heq.
    destruct (Hiss (t1 ++ [Settle (Task i) c (Rejected e)]) i c' t2) as [Hnil|HP].
    { by rewrite <- app_assoc. }
    { rewrite local_snoc_settle in Hnil. by destruct (local (Task i) t1). }
    rewrite local_snoc_settle in HP.
    destruct c' as [| | |req|tx| | |]; cbn in HP; try done.
    + destruct HP as (c0 & e0 & Hl & Hni). rewrite last_snoc in Hl. simplify_eq.
      right. eauto.
    + left. eauto.
    + destruct HP as (req & Hl). rewrite last_snoc in Hl. done.
    + destruct HP as [Hnil|(h0 & req & tx & rc & Hh)].
      * by destruct (local (Task i) t1).
      * change [(SendTransaction req, Fulfilled (VTx tx)); (WaitTx tx, Fulfilled (VReceipt rc))]
          with ([(SendTransaction req, Fulfilled (VTx tx))] ++ [(WaitTx tx, Fulfilled (VReceipt rc))]) in Hh.
        rewrite app_assoc in Hh. apply app_inj_tail in Hh as [_ ?]. done.
Qed.
End Dispatch.

(** ** A rejected broadcast in the loop of one wallet *)

(** C5, what the code does when a broadcast is rejected with an error
    that mentions the nonce: the nonce of the wallet is read again from
    the ledger and cached, the loop goes on with the next iteration
    without sleeping, and [failedTransactions] has grown by two (once in
    the handler of [sendTransaction], once more in the handler of the
    loop) while [totalTransactions] has not grown. *)
Theorem C5_nonce_conflict_iteration {World} (respond : World → Call → Response * World)
    (wallet : Wallet) (cfg : Config) (n : nat) (i : Z) (lt : LoadTester)
    (w w1 w2 : World) (e : Error) (c : Z) :
  let a := address wallet in
  let req := {| tx_from := a;
                tx_to := address (masterWallet (walletManager lt));
                tx_value := transactionAmount;
                tx_nonce := default 0 (nonces (walletManager lt) !! a) |} in
  isRunning lt = true →
  respond w (SendTransaction req) = (Rejected e, w1) →
  is_nonce_issue e = true →
  respond w1 (GetTransactionCount a) = (Fulfilled (VNumber c), w2) →
  ∃ lt',
    exec respond (wallet_loop wallet cfg (S n) i) lt w
      = (let '(o, s, w', tr) :=
           exec respond (wallet_loop wallet cfg n (i + 1)) lt' w2 in
         (o, s, w',
          [Issue Main (SendTransaction req);
           Settle Main (SendTransaction req) (Rejected e);
           Issue Main (GetTransactionCount a);
           Settle Main (GetTransactionCount a) (Fulfilled (VNumber c))] ++ tr)) ∧
    nonces (walletManager lt') !! a = Some c ∧
    failedTransactions (stats lt') = failedTransactions (stats lt) + 2 ∧
    totalTransactions (stats lt') = totalTransactions (stats lt) ∧
    successfulTransactions (stats lt') = successfulTransactions (stats lt) ∧
    isRunning lt' = true.
Proof.
  intros a req Hrun Hsend Hni Hcount.
  set (wm1 := set_nonce a (default 0 (nonces (walletManager lt) !! a) + 1)
                (walletManager lt)).
  exists (incr_failed
            (set_walletManager (set_nonce a c wm1)
               (incr_failed (set_walletManager wm1 lt)))).
  split.
  - cbn [wallet_loop]. cbn. rewrite Hrun. cbn.
    subst req wm1 a. rewrite Hsend. cbn. rewrite Hni. cbn. rewrite Hcount. cbn.
    match goal with
    | |- context [exec respond (wallet_loop wallet cfg n (i + 1)) ?s w2] =>
        destruct (exec respond (wallet_loop wallet cfg n (i + 1)) s w2) as [[[? ?] ?] ?]
    end.
    reflexivity.
  - cbn. rewrite lookup_insert_eq. repeat split; try done; lia.
Qed.
(** The rejection at confirmation: the broadcast was counted in
    [totalTransactions], and [failedTransactions] again grows by two. *)
Lemma nonce_conflict_at_confirmation {World} (respond : World → Call → Response * World)
    (wallet : Wallet) (cfg : Config) (n : nat) (i : Z) (lt : LoadTester)
    (w w1 w2 w3 : World) (tx : TxResponse) (e : Error) (c : Z) :
  let a := address wallet in
  let req := {| tx_from := a;
                tx_to := address (masterWallet (walletManager lt));
                tx_value := transactionAmount;
                tx_nonce := default 0 (nonces (walletManager lt) !! a) |} in
  isRunning lt = true →
  respond w (SendTransaction req) = (Fulfilled (VTx tx), w1) →
  respond w1 (WaitTx tx) = (Rejected e, w2) →
  is_nonce_issue e = true →
  respond w2 (GetTransactionCount a) = (Fulfilled (VNumber c), w3) →
  ∃ lt',
    exec respond (wallet_loop wallet cfg (S n) i) lt w
      = (let '(o, s, w', tr) :=
           exec respond (wallet_loop wallet cfg n (i + 1)) lt' w3 in
         (o, s, w',
          [Issue Main (SendTransaction req);
           Settle Main (SendTransaction req) (Fulfilled (VTx tx));
           Issue Main (WaitTx tx);
           Settle Main (WaitTx tx) (Rejected e);
           Issue Main (GetTransactionCount a);
           Settle Main (GetTransactionCount a) (Fulfilled (VNumber c))] ++ tr)) ∧
    nonces (walletManager lt') !! a = Some c ∧
    failedTransactions (stats lt') = failedTransactions (stats lt) + 2 ∧
    totalTransactions (stats lt') = totalTransactions (stats lt) + 1 ∧
    successfulTransactions (stats lt') = successfulTransactions (stats lt).
Proof.
  intros a req Hrun Hsend Hwait Hni Hcount.
  set (wm1 := set_nonce a (default 0 (nonces (walletManager lt) !! a) + 1)
                (walletManager lt)).
  exists (incr_failed
            (set_walletManager (set_nonce a c wm1)
               (incr_failed (incr_total (set_walletManager wm1 lt))))).
  split.
  - cbn [wallet_loop]. cbn. rewrite Hrun. cbn.
    subst req wm1 a. rewrite Hsend. cbn. rewrite Hwait. cbn. rewrite Hni. cbn.
    rewrite Hcount. cbn.
    match goal with
    | |- context [exec respond (wallet_loop wallet cfg n (i + 1)) ?s w3] =>
        destruct (exec respond (wallet_loop wallet cfg n (i + 1)) s w3) as [[[? ?] ?] ?]
    end.
    reflexivity.
  - cbn. rewrite lookup_insert_eq. repeat split; try done; lia.
Qed.

(** ** Concrete runs *)

(** The scenario of the documentation, evaluated: ten transfers of 0.99
    ether with the nonces 3 to 12, in pool order, all broadcast before
    the first answer arrives. *)
Lemma scenario_ten_wallets :
  let run := distributeFunds scripted_respond oldest_first (demo_manager 10)
               ten_wallets_script in
  run.1.1.1 = Returned tt ∧
  broadcasts run.2
    = imap (λ i wallet, transfer_request (demo_manager 10) (99 * ether / 100) 3 i wallet)
           (childWallets (demo_manager 10)) ∧
  broadcasts (take 14 run.2) = broadcasts run.2 ∧
  local (Task 0) (take 14 run.2) = [].
Proof. vm_compute. done. Qed.

(** A collection, evaluated: two successful records of amount 0, one
    sweep of the balance minus the estimated cost. *)
Lemma scenario_collection :
  (collectAllFunds scripted_respond youngest_first (demo_manager 3)
     collection_script).1.1.1
  = Returned {| successfulCollections := 3;
                totalWallets := 3;
                totalCollected := ether - 1000000 * 20000000000;
                finalMasterBalance := 5 * ether |}.
Proof. vm_compute. done. Qed.



Lemma C2_witness :
  (∀ w0, ∃ wallet w1,
     counting_respond w0 CreateRandom = (Fulfilled (VWallet wallet), w1)) ∧
  ∃ wm' w' tr,
    createWallets counting_respond 3 (WalletManager_new demo_master) 0%nat
      = (Returned (generated tr), wm', w', tr) ∧
    length (generated tr) = 3%nat.
Proof.
  assert (∀ w0, ∃ wallet w1,
            counting_respond w0 CreateRandom = (Fulfilled (VWallet wallet), w1)) as Hgen.
  { intros w0. eexists _, _. reflexivity. }
  split; [exact Hgen|].
  destruct (C2_createWallets counting_respond (WalletManager_new demo_master) 0%nat 3 Hgen)
    as [(wm' & w' & tr & Hrun & _ & Hlen & _) _].
  exists wm', w', tr. split; [exact Hrun|exact Hlen].
Defined.

Lemma C5_witness :
  isRunning demo_tester = true ∧
  is_nonce_issue nonce_too_low = true ∧
  ∃ lt',
    exec scripted_respond (wallet_loop (mkWallet "0") (mkConfig 2 0) 1 0) demo_tester
         [Rejected nonce_too_low; Fulfilled (VNumber 9)]
      = (Returned tt, lt', [],
         [Issue Main (SendTransaction
                        {| tx_from := "0"; tx_to := "0xMASTER";
                           tx_value := transactionAmount; tx_nonce := 0 |});
          Settle Main (SendTransaction
                         {| tx_from := "0"; tx_to := "0xMASTER";
                            tx_value := transactionAmount; tx_nonce := 0 |})
                 (Rejected nonce_too_low);
          Issue Main (GetTransactionCount "0");
          Settle Main (GetTransactionCount "0") (Fulfilled (VNumber 9))]) ∧
    nonces (walletManager lt') !! ("0" : Address) = Some 9 ∧
    failedTransactions (stats lt') = 2 ∧
    totalTransactions (stats lt') = 0.
Proof.
  split; [reflexivity|]. split; [reflexivity|].
  destruct (C5_nonce_conflict_iteration scripted_respond (mkWallet "0") (mkConfig 2 0)
              0 0 demo_tester
              [Rejected nonce_too_low; Fulfilled (VNumber 9)] [Fulfilled (VNumber 9)] []
              nonce_too_low 9 eq_refl eq_refl eq_refl eq_refl)
    as (lt' & Hrun & Hn & Hf & Ht & _).
  exists lt'. split; [exact Hrun|]. split; [exact Hn|]. split; [exact Hf|exact Ht].
Defined.

Lemma C6_witness :
  scripted_respond [Fulfilled (VBigInt 0)] (GetBalance "0xMASTER")
    = (Fulfilled (VBigInt 0), []) ∧
  ∃ e,
    distributeFunds scripted_respond oldest_first (demo_manager 3)
      [Fulfilled (VBigInt 0)]
    = (Threw e, demo_manager 3, [],
       [Issue Main (GetBalance "0xMASTER");
        Settle Main (GetBalance "0xMASTER") (Fulfilled (VBigInt 0))]) ∧
    InsufficientFunds e.
Proof.
  split; [reflexivity|].
  apply (C6_insufficient_funds scripted_respond oldest_first (demo_manager 3)
           [Fulfilled (VBigInt 0)] [] 0).
  - reflexivity.
  - left. reflexivity.
Defined.


Lemma C8_witness :
  gasReserve (length (childWallets (demo_manager 2))) = Some (2 * ether / 100) ∧
  ∃ o w' tr,
    distributeFunds scripted_respond oldest_first (demo_manager 2) rejecting_script
      = (o, demo_manager 2, w',
         [Issue Main (GetBalance "0xMASTER");
          Settle Main (GetBalance "0xMASTER") (Fulfilled (VBigInt (10 * ether)));
          Issue Main (GetTransactionCount "0xMASTER");
          Settle Main (GetTransactionCount "0xMASTER") (Fulfilled (VNumber 5))] ++ tr) ∧
    ∀ t1 i c e t2, tr = t1 ++ Settle (Task i) c (Rejected e) :: t2 →
      o = Threw e ∧ t2 = [].
Proof.
  split; [reflexivity|].
  destruct (C8_batch_failure_aborts scripted_respond oldest_first (demo_manager 2)
              rejecting_script (tail rejecting_script) (tail (tail rejecting_script))
              (10 * ether) (2 * ether / 100) 5)
    as (o & w' & tr & Hrun & Hrej).
  - reflexivity.
  - vm_compute. discriminate.
  - reflexivity.
  - reflexivity.
  - vm_compute. discriminate.
  - reflexivity.
  - exists o, w', tr. split; [exact Hrun|].
    intros t1 i c e t2 Heq. destruct (Hrej t1 i c e t2 Heq) as (Ho & Ht2 & _).
    split; [exact Ho|exact Ht2].
Defined.

(** The rejecting run, evaluated: both transfers are broadcast, the
    confirmation of the first is rejected, and [distributeFunds] throws
    that error with the second transfer still in flight. *)
Lemma rejecting_run :
  distributeFunds scripted_respond oldest_first (demo_manager 2) rejecting_script
  = (Threw (mkError "transaction failed"), demo_manager 2, [],
     [Issue Main (GetBalance "0xMASTER");
      Settle Main (GetBalance "0xMASTER") (Fulfilled (VBigInt (10 * ether)));
      Issue Main (GetTransactionCount "0xMASTER");
      Settle Main (GetTransactionCount "0xMASTER") (Fulfilled (VNumber 5));
      Issue (Task 0) (SendTransaction
                        (transfer_request (demo_manager 2) (499 * ether / 100) 5 0
                                          (mkWallet "0")));
      Issue (Task 1) (SendTransaction
                        (transfer_request (demo_manager 2) (499 * ether / 100) 5 1
                                          (mkWallet "1")));
      Settle (Task 0) (SendTransaction
                         (transfer_request (demo_manager 2) (499 * ether / 100) 5 0
                                           (mkWallet "0")))
             (Fulfilled (VTx (mkTxResponse "0xT0")));
      Issue (Task 0) (WaitTx (mkTxResponse "0xT0"));
      Settle (Task 0) (WaitTx (mkTxResponse "0xT0"))
             (Rejected (mkError "transaction failed"))]).
Proof. vm_compute. reflexivity. Qed.

(** * Further properties *)

(** ** Validation of the configuration *)

(** X1: [validateConfig] returns exactly for a configuration with a
    non-empty private key, a non-empty RPC URL, positive wallet and
    transaction counts and a non-negative interval.  Otherwise it throws one
    error, whose message starts with the heading of the validation and holds
    the line of every violated rule and of no other rule. *)
Theorem validateConfig_accepts_iff (c : AppConfig) :
  (validateConfig c = Returned tt ↔
     (∃ key, privateKey c = Some key ∧ key ≠ ""%string) ∧
     rpcUrl c ≠ ""%string ∧
     0 < numWallets c ∧ 0 < cfg_transactionsPerWallet c ∧ 0 ≤ cfg_intervalMs c) ∧
  (validateConfig c ≠ Returned tt →
     ∃ e, validateConfig c = Threw e ∧
       String.prefix "Configuration validation failed:" (message e) = true ∧
       ∀ violated line, (violated, line) ∈ rule_violations c →
         includes line (message e) = violated).
Proof.
  unfold validateConfig, config_errors, rule_violations.
  assert (falsy (privateKey c) = false ↔
          ∃ key, privateKey c = Some key ∧ key ≠ ""%string) as Hkey.
  { destruct (privateKey c) as [key|]; cbn.
    - rewrite bool_decide_eq_false. split; [by exists key|by intros (? & [= <-] & ?)].
    - split; [done|by intros (? & ? & _)]. }
  rewrite <- Hkey. clear Hkey. cbn [falsy].
  destruct (falsy (privateKey c)) eqn:H1,
           (bool_decide (rpcUrl c = ""%string)) eqn:H2,
           (numWallets c <=? 0) eqn:H3,
           (cfg_transactionsPerWallet c <=? 0) eqn:H4,
           (cfg_intervalMs c <? 0) eqn:H5;
    try apply bool_decide_eq_true in H2; try apply bool_decide_eq_false in H2;
    try apply Z.leb_le in H3; try apply Z.leb_gt in H3;
    try apply Z.leb_le in H4; try apply Z.leb_gt in H4;
    try apply Z.ltb_lt in H5; try apply Z.ltb_ge in H5;
    (split;
     [split; [first [done|by intros _]|first [by intros _|intros (? & ? & ? & ? & ?); first [done|lia]]]
     |intros Hne; first [done|
      eexists; split; [reflexivity|]; split; [reflexivity|];
      intros v l Hin; repeat (apply elem_of_cons in Hin as [[= -> ->]|Hin];
                              [vm_compute; reflexivity|]);
      by apply elem_of_nil in Hin]]).
Qed.

(** ** [createWallets] and the nonce table *)

Section CreateWalletsNonces.
Context {World : Type}.
Variable respond : World → Call → Response * World.


Lemma registered_lookup wallets : ∀ table a,
  registered wallets table !! a
  = if bool_decide (a ∈ address <$> wallets) then Some 0 else table !! a.
Proof.
  induction wallets as [|x wallets IH]; intros table a; [done|].
  change (registered (x :: wallets) table)
    with (registered wallets (<[address x := 0]> table)).
  rewrite IH, fmap_cons.
  destruct (decide (a = address x)) as [->|Hne].
  - rewrite lookup_insert_eq.
    rewrite (bool_decide_eq_true_2 (address x ∈ address x :: _)) by (by left).
    by case_bool_decide.
  - rewrite lookup_insert_ne by done.
    case_bool_decide as H1; case_bool_decide as H2; try done.
    + exfalso. apply H2. by right.
    + apply elem_of_cons in H2 as [?|?]; done.
Qed.

(** The loop of [createWallets], whatever the generator answers: the
    wallets handed out before the first failure are in the pool and in
    the nonce table. *)
Lemma createWallets_loop_run n : ∀ (wm : WalletManager) w,
  ∃ o wm' w' tr,
    createWallets_loop respond n wm w = (o, wm', w', tr) ∧
    o ≠ OutOfFuel ∧
    childWallets wm' = childWallets wm ++ generated tr ∧
    masterWallet wm' = masterWallet wm ∧
    nonces wm' = registered (generated tr) (nonces wm) ∧
    (length (generated tr) ≤ n)%nat ∧
    (o = Returned tt → length (generated tr) = n) ∧
    (∀ e, o = Threw e →
       (length (generated tr) < n)%nat ∧
       ∃ t r, tr = t ++ [Settle Main CreateRandom r] ∧ bad_answer r e).
Proof.
  induction n as [|n IH]; intros wm w.
  - exists (Returned tt), wm, w, []. cbn. rewrite app_nil_r. done.
  - cbn [createWallets_loop]. rewrite M_bind_unfold. unfold ask.
    destruct (respond w CreateRandom) as [r w1] eqn:Hr.
    destruct r as [v|e].
    2:{ exists (Threw e), wm, w1; eexists; split; [reflexivity|].
        cbn. rewrite ?app_nil_r.
        do 5 (split; [first [done|lia]|]). split; [done|].
        intros ? [= <-]. split; [lia|].
        exists [Issue Main CreateRandom], (Rejected e). split; [done|by left]. }
    destruct v as [?|?|?|?|?|wallet|];
      try (exists (Threw type_error), wm, w1; eexists; split; [reflexivity|];
           cbn; rewrite ?app_nil_r;
           do 5 (split; [first [done|lia]|]); (split; [done|]);
           intros ? [= <-]; split; [lia|];
           eexists [Issue Main CreateRandom], _; split; [done|right; eauto]).
    destruct (IH (set_nonce (address wallet) 0 (push_wallet wallet wm)) w1)
      as (o & wm' & w' & tr & Hrun & Hnf & Hch & Hm & Hn & Hle & Hret & Hthr).
    exists o, wm', w',
      (Issue Main CreateRandom
         :: Settle Main CreateRandom (Fulfilled (VWallet wallet)) :: tr).
    split; [|split; [done|split; [|split; [done|split; [done|split; [|split]]]]]].
    + rewrite M_bind_unfold. cbn [get_state]. rewrite M_bind_unfold. cbn [put_state].
      rewrite Hrun. by destruct o.
    + rewrite Hch. cbn. by rewrite <- app_assoc.
    + cbn. lia.
    + intros Ho. cbn. by rewrite Hret.
    + intros e Ho. destruct (Hthr e Ho) as (Hlt & t & r & -> & Hbad).
      split; [cbn; lia|].
      exists (Issue Main CreateRandom
                :: Settle Main CreateRandom (Fulfilled (VWallet wallet)) :: t), r.
      done.
Qed.

(** X2: [createWallets] enters every wallet it creates into the nonce
    table with nonce 0 (overwriting an older entry of the same address),
    appends it to the pool, and leaves every other nonce and the master
    wallet untouched.  If the generator fails at some call,
    [createWallets] throws that error and the wallets created before stay
    in the pool. *)
Theorem createWallets_registers_nonces (wm : WalletManager) (w : World) (n : Z) :
  ∃ o wm' w' tr,
    createWallets respond n wm w = (o, wm', w', tr) ∧
    o ≠ OutOfFuel ∧
    childWallets wm' = childWallets wm ++ generated tr ∧
    masterWallet wm' = masterWallet wm ∧
    (∀ wallet, wallet ∈ generated tr → nonces wm' !! address wallet = Some 0) ∧
    (∀ a, a ∉ address <$> generated tr → nonces wm' !! a = nonces wm !! a) ∧
    (∀ e, o = Threw e →
       (length (generated tr) < Z.to_nat n)%nat ∧
       ∃ t r, tr = t ++ [Settle Main CreateRandom r] ∧ bad_answer r e).
Proof.
  destruct (createWallets_loop_run (Z.to_nat n) wm w)
    as (o & wm' & w' & tr & Hrun & Hnf & Hch & Hm & Hn & Hle & Hret & Hthr).
  unfold createWallets. rewrite M_bind_unfold, Hrun.
  assert ((∀ wallet, wallet ∈ generated tr → nonces wm' !! address wallet = Some 0) ∧
          (∀ a, a ∉ address <$> generated tr → nonces wm' !! a = nonces wm !! a))
    as [Hreg Hother].
  { rewrite Hn. split.
    - intros wallet Hin. rewrite registered_lookup, bool_decide_eq_true_2; [done|].
      by apply list_elem_of_fmap_2.
    - intros a Hnin. by rewrite registered_lookup, bool_decide_eq_false_2. }
  destruct o as [[]|e|]; [| |done].
  2:{ exists (Threw e), wm', w', tr. do 6 (split; [done|]). intros e0 [= <-].
      by apply Hthr. }
  exists (Returned (childWallets wm')), wm', w', tr.
  rewrite M_bind_unfold. cbn. rewrite app_nil_r. done.
Qed.
End CreateWalletsNonces.

(** ** [getNextNonce] for an address that was never registered *)

Lemma allocated_to_length a addrs : ∀ vs,
  length vs = length addrs → length (allocated_to a addrs vs) = calls_for a addrs.
Proof.
  unfold calls_for.
  induction addrs as [|b addrs IH]; intros [|v vs] Hlen; try done.
  cbn [allocated_to]. rewrite filter_cons.
  destruct (decide (b = a)); cbn; rewrite IH; auto.
Qed.

Lemma allocate_each_frame {World} (respond : World → Call → Response * World)
    addrs : ∀ (wm : WalletManager) w vs wm' w' tr,
  exec respond (allocate_each addrs) wm w = (Returned vs, wm', w', tr) →
  masterWallet wm' = masterWallet wm ∧ childWallets wm' = childWallets wm ∧
  ∀ b, b ∉ addrs → nonces wm' !! b = nonces wm !! b.
Proof.
  induction addrs as [|a addrs IH]; intros wm w vs wm' w' tr.
  - cbn. intros [= <- <- <- <-]. done.
  - cbn [allocate_each]. rewrite exec_bind, M_bind_unfold, getNextNonce_exec.
    rewrite exec_bind, M_bind_unfold.
    destruct (exec respond (allocate_each addrs) _ w) as [[[[vs'|e|] wm1] w1] tr1] eqn:Hrun;
      cbn; intros ?; simplify_eq.
    destruct (IH _ _ _ _ _ _ Hrun) as (Hm & Hc & Hn).
    split; [done|]. split; [done|].
    intros b [Hne Hnin]%not_elem_of_cons. rewrite Hn by done. cbn.
    by rewrite lookup_insert_ne.
Qed.

(** X3: for an address without an entry in the nonce table, successive calls
    of [getNextNonce] return 0, 1, 2, ... (the missing entry reads as 0) and
    leave the number of calls in the table; calls for other addresses do not
    disturb it, and the entries of addresses that are not called stay as
    they are. *)
Theorem getNextNonce_unregistered {World} (respond : World → Call → Response * World)
    (wm : WalletManager) (w : World) (a : Address) (addrs : list Address) :
  nonces wm !! a = None →
  ∃ vs wm',
    exec respond (allocate_each addrs) wm w = (Returned vs, wm', w, []) ∧
    allocated_to a addrs vs = seqZ 0 (Z.of_nat (calls_for a addrs)) ∧
    nonces wm' !! a
      = (if decide (a ∈ addrs) then Some (Z.of_nat (calls_for a addrs)) else None) ∧
    (∀ b, b ∉ addrs → nonces wm' !! b = nonces wm !! b) ∧
    masterWallet wm' = masterWallet wm ∧ childWallets wm' = childWallets wm.
Proof.
  intros Hnone.
  destruct (allocate_each_exec respond a addrs wm w) as (vs & wm' & Hex & Hlen & Hseq & Hfin).
  destruct (allocate_each_frame respond addrs _ _ _ _ _ _ Hex) as (Hm & Hc & Hn).
  rewrite Hnone in Hseq, Hfin. cbn in Hseq, Hfin.
  rewrite (allocated_to_length a addrs vs Hlen) in Hseq, Hfin.
  exists vs, wm'. done.
Qed.

Lemma getNextNonce_unregistered_witness :
  nonces (WalletManager_new demo_master) !! ("0xA" : Address) = None ∧
  ∃ vs wm',
    exec scripted_respond (allocate_each ["0xA"; "0xB"; "0xA"])
         (WalletManager_new demo_master) []
      = (Returned vs, wm', [], []) ∧
    allocated_to "0xA" ["0xA"; "0xB"; "0xA"] vs = [0; 1].
Proof.
  split; [reflexivity|].
  destruct (getNextNonce_unregistered scripted_respond (WalletManager_new demo_master) []
              "0xA" ["0xA"; "0xB"; "0xA"] eq_refl)
    as (vs & wm' & Hrun & Hseq & _).
  exists vs, wm'. split; [exact Hrun|exact Hseq].
Defined.

(** ** The gas reserve, and a pool without wallets *)

(** X4: for up to 1000 wallets the gas reserve of [distributeFunds] (the
    double 0.01 * n, printed and parsed back as ether) always parses, is
    never below 0.01 ether per wallet, and exceeds it by at most 1000 wei. *)
Theorem gasReserve_never_below_nominal (len : nat) :
  (len ≤ 1000)%nat →
  ∃ reserve,
    gasReserve len = Some reserve ∧
    Z.of_nat len * 10 ^ 16 ≤ reserve ≤ Z.of_nat len * 10 ^ 16 + 1000.
Proof.
  intros Hlen.
  assert (forallb (reserve_within 1000) (seq 0 1001) = true) as Hall
    by (vm_compute; reflexivity).
  rewrite forallb_forall in Hall.
  specialize (Hall len). unfold reserve_within in Hall.
  destruct (gasReserve len) as [r|].
  - exists r. split; [done|].
    rewrite andb_true_iff, !Z.leb_le in Hall. apply Hall.
    apply in_seq. lia.
  - discriminate Hall. apply in_seq. lia.
Qed.

Lemma gasReserve_never_below_nominal_witness :
  (57 ≤ 1000)%nat ∧
  ∃ reserve,
    gasReserve 57 = Some reserve ∧
    57 * 10 ^ 16 ≤ reserve ≤ 57 * 10 ^ 16 + 1000.
Proof.
  split; [lia|]. apply (gasReserve_never_below_nominal 57). lia.
Defined.

Section EmptyPool.
Context {World : Type}.
Variable respond : World → Call → Response * World.
Variable choose : World → list nat → nat.

(** X5: [distributeFunds] on a manager without child wallets never reaches
    the transfers: after the balance query it throws the no-funds error
    for a zero balance, the insufficient-funds error for a negative one,
    and otherwise fails in the division by the number of wallets; neither
    a nonce query nor a broadcast is made. *)
Theorem distributeFunds_without_wallets (wm : WalletManager) (w w1 : World) (B : Z) :
  childWallets wm = [] →
  respond w (GetBalance (address (masterWallet wm)))
    = (Fulfilled (VBigInt B), w1) →
  distributeFunds respond choose wm w
  = (Threw (mkError (if B =? 0 then "Master wallet has no funds to distribute"
                     else if B <? 0 then "Insufficient funds after reserving gas"
                     else "Division by zero")),
     wm, w1,
     [Issue Main (GetBalance (address (masterWallet wm)));
      Settle Main (GetBalance (address (masterWallet wm))) (Fulfilled (VBigInt B))]).
Proof.
  intros Hempty Hbal.
  rewrite (distributeFunds_funds_check respond choose wm w w1 B Hbal). cbn zeta.
  rewrite Hempty. cbn [length].
  change (gasReserve 0) with (Some 0). cbn iota. rewrite Z.sub_0_r.
  destruct (Z.eqb_spec B 0) as [->|Hne]; [done|].
  destruct (Z.leb_spec B 0), (Z.ltb_spec B 0); try lia; done.
Qed.
End EmptyPool.

Lemma distributeFunds_without_wallets_witness :
  distributeFunds scripted_respond oldest_first (WalletManager_new demo_master)
    [Fulfilled (VBigInt ether)]
  = (Threw (mkError "Division by zero"), WalletManager_new demo_master, [],
     [Issue Main (GetBalance "0xMASTER");
      Settle Main (GetBalance "0xMASTER") (Fulfilled (VBigInt ether))]).
Proof.
  apply (distributeFunds_without_wallets scripted_respond oldest_first
           (WalletManager_new demo_master) [Fulfilled (VBigInt ether)] [] ether);
    reflexivity.
Defined.

(** ** The transfers of a distribution *)

Lemma broadcasts_app t1 t2 : broadcasts (t1 ++ t2) = broadcasts t1 ++ broadcasts t2.
Proof.
  induction t1 as [|e t1 IH]; [done|].
  destruct e as [a []|a c r]; cbn; by rewrite ?IH.
Qed.

Lemma broadcasts_none tr :
  (∀ who req, Issue who (SendTransaction req) ∉ tr) → broadcasts tr = [].
Proof.
  induction tr as [|e tr IH]; intros Hno; [done|].
  assert (broadcasts tr = []) as Hrest.
  { apply IH. intros who req Hin. apply (Hno who req). by right. }
  destruct e as [a []|a c r]; cbn; try done.
  exfalso. eapply Hno. by left.
Qed.

Lemma transfer_issues_broadcasts master share batch : ∀ b (cur : Z),
  broadcasts
    (mjoin (imap (λ i (q : prog WalletManager TxResponse), issue_of (Task (b + i)) q)
              (imap (λ i wallet, transfer master wallet share (cur + Z.of_nat i)) batch)))
  = imap (λ i wallet, {| tx_from := master; tx_to := address wallet;
                         tx_value := share; tx_nonce := cur + Z.of_nat i |}) batch.
Proof.
  induction batch as [|wallet batch IH]; intros b cur; [done|].
  rewrite !imap_cons.
  match goal with
  | |- context [mjoin (?x :: ?l)] => change (mjoin (x :: l)) with (x ++ mjoin l)
  end.
  rewrite broadcasts_app.
  change (broadcasts (issue_of _ _))
    with [{| tx_from := master; tx_to := address wallet;
             tx_value := share; tx_nonce := cur + Z.of_nat 0 |}].
  cbn [app]. f_equal.
  specialize (IH (S b) (cur + 1)).
  rewrite (imap_ext _ (λ i wallet, transfer master wallet share (cur + 1 + Z.of_nat i))
             batch).
  2:{ intros i x _. unfold compose. f_equal. lia. }
  rewrite (imap_ext (_ ∘ S)
             (λ i (q : prog WalletManager TxResponse), issue_of (Task (S b + i)) q)).
  2:{ intros i x _. unfold compose. do 2 f_equal. lia. }
  rewrite IH. apply imap_ext. intros i x _. unfold compose. f_equal. lia.
Qed.

Section Broadcasts.
Context {World : Type}.
Variable respond : World → Call → Response * World.
Variable choose : World → list nat → nat.
Variable wm : WalletManager.
Variables share n0 : Z.

(** One batch broadcasts exactly the transfers planned for its
    wallets, in order, whatever happens afterwards. *)
Lemma batch_broadcasts b batch s w o s' w' tr :
  promise_all respond choose (2 * length batch) b (batch_tasks wm share n0 b batch) s w
    = (o, s', w', tr) →
  broadcasts tr
  = imap (λ i wallet, transfer_request wm share n0 (b + i) wallet) batch.
Proof.
  intros Hrun.
  destruct (promise_all_sound respond choose
              (batch_may_issue wm share n0 b batch) (batch_done wm share n0 b batch)
              (λ _, transfer_failed) _ _ _ _ _ _ _ _ _
              (batch_tasks_obeys wm share n0 b batch) Hrun)
    as (pool & tr_pool & -> & HF & Hev & _ & _).
  assert (pool = batch_tasks wm share n0 b batch) as ->.
  { symmetry. apply list_eq_same_length with (length pool);
      [done|by eapply Forall2_length|].
    intros i p q _ Hp Hq.
    destruct (Forall2_lookup_l _ _ _ _ _ HF Hp) as (q' & Hq' & s0 & ->).
    simplify_eq. rewrite start_stateless; [done|].
    eapply Forall_lookup_1; [apply batch_tasks_stateless|done]. }
  rewrite broadcasts_app, (broadcasts_none tr_pool), app_nil_r.
  - unfold batch_tasks. rewrite transfer_issues_broadcasts.
    apply imap_ext. intros i x _. unfold transfer_request. f_equal. lia.
  - intros who req (t1 & t2 & Heq)%list_elem_of_split.
    destruct (Hev _ _ _ Heq) as [(i & h & Ha & Hh & Hi) _].
    cbn in Ha. subst who. apply lookup_replicate in Hh as [-> _].
    destruct (Hi _ eq_refl) as [(wallet & _ & HP) (t0 & c0 & r0 & ->)].
    rewrite local_snoc_settle in HP. cbn in HP.
    destruct HP as [[Hnil _]|(tx & _ & ?)]; [|done].
    by destruct (local (Task (b + i)) t0).
Qed.

(** The batches from wallet [b] on broadcast a prefix of the plan. *)
Lemma distribute_batches_broadcasts fuel : ∀ b cur w o wm' w' tr,
  ((b < length (childWallets wm))%nat → cur = n0 + Z.of_nat b) →
  distribute_batches respond choose fuel share b cur wm w = (o, wm', w', tr) →
  ∃ k, broadcasts tr = take k (drop b (planned_transfers wm share n0)) ∧
       (o = Returned tt → broadcasts tr = drop b (planned_transfers wm share n0)).
Proof.
  induction fuel as [|fuel IH]; intros b cur w o wm' w' tr Hcur;
    rewrite distribute_batches_unfold; case_bool_decide as Hlt;
    try (intros [= <- <- <- <-]; exists 0%nat; split; [by rewrite take_0|];
         first [done|
           intros _; rewrite drop_ge; [done|];
           unfold planned_transfers; rewrite length_imap; lia]).
  set (batch := slice b ((b + 20) `min` length (childWallets wm)) (childWallets wm)).
  cbn zeta. rewrite (Hcur Hlt).
  change (imap _ batch) with (batch_tasks wm share n0 b batch).
  assert (imap (λ i wallet, transfer_request wm share n0 (b + i) wallet) batch
          = take (length batch) (drop b (planned_transfers wm share n0))) as Hplan.
  { apply list_eq. intros i. rewrite list_lookup_imap.
    destruct (decide (i < length batch)%nat) as [Hi|Hi].
    - assert (batch !! i = childWallets wm !! (b + i)%nat) as ->.
      { unfold batch, slice. rewrite lookup_take_lt, lookup_drop; [done|].
        unfold batch, slice in Hi. rewrite length_take in Hi. lia. }
      rewrite (lookup_take_lt _ (length batch)) by done.
      unfold planned_transfers. by rewrite lookup_drop, list_lookup_imap.
    - rewrite lookup_take_ge by lia.
      by rewrite (lookup_ge_None_2 batch) by lia. }
  pose proof (slice_length (childWallets wm) b Hlt) as Hbl; fold batch in Hbl.
  destruct (promise_all _ _ _ _ _ _ _) as [[[[rs|e|] s1] w1] tr1] eqn:Hrun;
    pose proof (batch_broadcasts _ _ _ _ _ _ _ _ Hrun) as Hb1;
    pose proof (promise_all_stateless respond choose (2 * length batch) b
                  (batch_tasks wm share n0 b batch) wm w
                  (batch_tasks_stateless wm share n0 b batch)) as Hs;
    rewrite Hrun in Hs; cbn in Hs; subst s1.
  - destruct (distribute_batches respond choose fuel share (b + 20)
                (n0 + Z.of_nat b + Z.of_nat (length batch)) wm w1)
      as [[[o2 s2] w2] tr2] eqn:Hrest.
    intros [= <- <- <- <-].
    destruct (IH (b + 20)%nat (n0 + Z.of_nat b + Z.of_nat (length batch))
                 w1 o2 s2 w2 tr2) as (k & Hk & Hret); [|done|].
    { intros Hlt'. lia. }
    assert (drop (b + 20) (planned_transfers wm share n0)
            = drop (length batch) (drop b (planned_transfers wm share n0))) as Hdrop.
    { rewrite drop_drop.
      destruct (decide (b + 20 ≤ length (childWallets wm))%nat).
      - f_equal. lia.
      - rewrite !drop_ge; [done|unfold planned_transfers; rewrite length_imap; lia..]. }
    rewrite broadcasts_app, Hb1, Hplan.
    exists (length batch + k)%nat. split.
    + rewrite Hk, Hdrop. by rewrite take_take_drop.
    + intros Ho. rewrite (Hret Ho), Hdrop. apply take_drop.
  - intros [= <- <- <- <-]. exists (length batch). split; [by rewrite Hb1|done].
  - intros [= <- <- <- <-]. exists (length batch). split; [by rewrite Hb1|done].
Qed.
End Broadcasts.

Lemma planned_transfers_nonces wm share n0 :
  tx_nonce <$> planned_transfers wm share n0
  = seqZ n0 (Z.of_nat (length (childWallets wm))).
Proof.
  unfold planned_transfers, seqZ. rewrite fmap_imap, Nat2Z.id.
  rewrite <- (imap_seq_0 (childWallets wm)). apply imap_ext.
  intros i x _. cbn. lia.
Qed.

Lemma total_value_uniform share reqs :
  (∀ req, req ∈ reqs → tx_value req = share) →
  total_value reqs = Z.of_nat (length reqs) * share.
Proof.
  induction reqs as [|req reqs IH]; intros Hall; [done|].
  cbn [total_value foldr length]. fold (total_value reqs).
  rewrite IH, (Hall req) by (intros; first [by left|apply Hall; by right]). lia.
Qed.

Lemma planned_transfers_value wm share n0 req :
  req ∈ planned_transfers wm share n0 →
  tx_value req = share ∧ tx_from req = address (masterWallet wm).
Proof.
  unfold planned_transfers. intros [i Hi]%list_elem_of_lookup.
  rewrite list_lookup_imap in Hi.
  destruct (childWallets wm !! i); simplify_eq/=. done.
Qed.

Section Budget.
Context {World : Type}.
Variable respond : World → Call → Response * World.
Variable choose : World → list nat → nat.

End Budget.


(** ** The counters of the load tester *)

Section RespectsFacts.
Context {St A : Type}.
Variable G : Call → Response → St → St → option Call → Prop.

Lemma start_respects rel s0 s (p : prog St A) :
  respects G rel s0 s p →
  rel s0 (start p s).1 (match (start p s).2 with Await c _ => Some c | _ => None end) ∧
  parked G (start p s).2.
Proof.
  induction 1; cbn; auto.
Qed.

Lemma respects_weaken (G' : Call → Response → St → St → option Call → Prop)
    (rel rel' : St → St → option Call → Prop) s0 s (p : prog St A) :
  respects G rel s0 s p →
  (∀ c r a b n, G c r a b n → G' c r a b n) →
  (∀ a b n, rel a b n → rel' a b n) →
  respects G' rel' s0 s p.
Proof.
  intros H HG. revert rel'.
  induction H as [| |rel s0 s c k Hrel Hk IH| |]; intros rel' Hrel';
    eauto using @respects.
Qed.
End RespectsFacts.

Section PoolEvolves.
Context {World St A : Type}.
Variable respond : World → Call → Response * World.
Variable choose : World → list nat → nat.
Variable G : nat → Call → Response → St → St → option Call → Prop.

Lemma pool_run_evolves fuel : ∀ base (pool : list (prog St A)) s w o s' w' tr,
  (∀ i q, pool !! i = Some q → parked (G i) q) →
  pool_run respond choose fuel base pool s w = (o, s', w', tr) →
  evolves G base s tr s'.
Proof.
  induction fuel as [|fuel IH]; intros base pool s w o s' w' tr Hpark Hrun.
  - destruct (pool_run_cases respond choose 0 base pool s w)
      as [(rs & Hd & Heq)|[(Hd & Heq & _)|(? & ? & ? & ? & ? & ? & ? & ? & ? & _)]];
      [| |done]; rewrite Heq in Hrun; simplify_eq; constructor.
  - destruct (pool_run_cases respond choose (S fuel) base pool s w)
      as [(rs & Hd & Heq)|[(Hd & Heq & _)|
           (fuel' & i0 & c & k & r & w1 & s1 & q & [= <-] & Hd & Hp & Hr & Hs & Hq)]];
      [rewrite Heq in Hrun; simplify_eq; constructor..|].
    pose proof (Hpark _ _ Hp r s) as Hk. cbn in Hk.
    destruct (start_respects (G i0) _ _ _ _ Hk) as [Hstep Hparked].
    rewrite Hs in Hstep, Hparked. cbn in Hstep, Hparked.
    destruct Hq as [(e & -> & Heq)|(Hnf & o1 & s2 & w2 & tr1 & Hrun1 & Heq)];
      rewrite Heq in Hrun; simplify_eq.
    + eapply evolves_end; [done|constructor].
    + assert (evolves G base s1 tr1 s') as Hrest.
      { eapply IH; [|done]. intros i q' Hq'.
        destruct (decide (i = i0)) as [->|Hne].
        - rewrite list_lookup_insert_eq in Hq' by (by eapply lookup_lt_Some).
          by simplify_eq.
        - rewrite list_lookup_insert_ne in Hq' by done. eauto. }
      destruct q as [a|e|c' k'|k'|s0 k']; cbn;
        first [by eapply evolves_end|by eapply evolves_issue].
Qed.

(** [await Promise.all(ps)] for promises that do not touch the object
    before their first request. *)
Lemma promise_all_evolves fuel base (ps : list (prog St A)) s w o s' w' tr :
  (∀ i p s0, ps !! i = Some p →
     respects (G i) (λ s1 s2 _, s2 = s1) s0 s0 p) →
  promise_all respond choose fuel base ps s w = (o, s', w', tr) →
  ∃ tr_pool,
    tr = mjoin (imap (λ i p, issue_of (Task (base + i)) (start p s).2) ps) ++ tr_pool ∧
    evolves G base s tr_pool s'.
Proof.
  intros Hps. unfold promise_all.
  assert (∀ who (qs : list (prog St A)),
            (∀ p, p ∈ qs → (start p s).1 = s) →
            start_all who qs s
            = (s, (λ p, (start p s).2) <$> qs,
               mjoin (imap (λ i p, issue_of (Task (who + i)) (start p s).2) qs)))
    as Hstart.
  { intros who qs. revert who. induction qs as [|p qs IHq]; intros who Hro; [done|].
    cbn. pose proof (Hro p ltac:(by left)) as Hp.
    destruct (start p s) as [s1 q] eqn:Hsp. cbn in Hp. subst s1.
    rewrite (IHq (S who)) by (intros; apply Hro; by right).
    rewrite Nat.add_0_r. do 3 f_equal. apply imap_ext. intros i x _. cbn.
    do 2 f_equal. lia. }
  rewrite Hstart.
  2:{ intros p [i Hi]%list_elem_of_lookup.
      by destruct (start_respects (G i) _ _ _ _ (Hps i p s Hi)) as [? _]. }
  destruct (first_failed _) as [e|].
  { intros [= <- <- <- <-]. exists []. rewrite app_nil_r. split; [done|constructor]. }
  destruct (pool_run respond choose fuel base _ s w) as [[[o1 s2] w2] tr1] eqn:Hrun.
  intros [= <- <- <- <-]. exists tr1. split; [done|].
  eapply pool_run_evolves; [|done].
  intros i q. rewrite list_lookup_fmap.
  destruct (ps !! i) as [p|] eqn:Hp; intros ?; simplify_eq/=.
  by destruct (start_respects (G i) _ _ _ _ (Hps i p s Hp)) as [_ ?].
Qed.
End PoolEvolves.

Ltac step_state := repeat (first [apply respects_get | apply respects_put]; cbn).

Ltac solve_step :=
  unfold wallet_step, after_allocation, next_request, bump, stats_delta, failure_delta,
         send_failure, wait_failure, resynced;
  cbn;
  repeat match goal with
         | H : is_nonce_issue _ = _ |- _ => rewrite H
         | H : (status _ =? 1) = _ |- _ => rewrite H
         | H : isRunning _ = _ |- _ => rewrite H
         end;
  cbn; rewrite ?lookup_insert_eq; cbn;
  repeat split;
  try done;
  try (intros; rewrite ?lookup_insert_ne by done; done);
  try (f_equal; lia);
  try (match goal with |- stats ?x = _ => destruct (stats x) end; cbn; f_equal; lia).

Ltac walk_loop IH :=
  repeat (cbn;
    first
      [ apply respects_get
      | apply respects_put
      | apply respects_done; solve [solve_step]
      | apply respects_fail; solve [solve_step]
      | apply respects_await; [solve [solve_step]|intros ? ?]
      | apply IH; [solve [solve_step]|intros ?; solve [solve_step]]
      | match goal with
        | |- context [match ?r with Fulfilled _ => _ | Rejected _ => _ end] =>
            destruct r as [[]|]
        | |- context [is_nonce_issue ?e] => destruct (is_nonce_issue e) eqn:?
        | |- context [status ?rc =? 1] => destruct (status rc =? 1) eqn:?
        | |- context [if ?b then _ else _] => destruct b eqn:?
        end ]).

Lemma wallet_loop_respects wallet cfg n :
  ∀ i (rel : LoadTester → LoadTester → option Call → Prop) s0 s,
  rel s0 s None →
  (isRunning s = true →
   rel s0 (after_allocation wallet s) (Some (SendTransaction (next_request wallet s)))) →
  respects (wallet_step wallet) rel s0 s (wallet_loop wallet cfg n i).
Proof.
  induction n as [|n IH]; intros i rel s0 s Hend Hsend; [by constructor|].
  cbn [wallet_loop]. cbn.
  apply respects_get. destruct (isRunning s) eqn:Hrun; cbn; [|by constructor].
  step_state.
  apply respects_await; [by apply Hsend|]. clear Hend Hsend.
  intros r s1.
  walk_loop IH.
Qed.

Lemma runWalletTransactions_respects wallet index s0 :
  respects (wallet_step wallet) (λ s1 s2 _, s2 = s1) s0 s0
           (runWalletTransactions wallet index).
Proof.
  unfold runWalletTransactions. cbn.
  apply respects_get. apply respects_await; [done|].
  intros r s. cbn. apply wallet_loop_respects; [|intros Hrun]; solve_step.
Qed.

Lemma weigh_app φ t1 t2 : weigh φ (t1 ++ t2) = weigh φ t1 + weigh φ t2.
Proof.
  induction t1 as [|e t1 IH]; [done|].
  destruct e as [a c|[|i] c r]; cbn; lia.
Qed.

Lemma weigh_issues φ tr : (∀ e, e ∈ tr → ∃ a c, e = Issue a c) → weigh φ tr = 0.
Proof.
  induction tr as [|e tr IH]; intros Hall; [done|].
  destruct (Hall e ltac:(by left)) as (a & c & ->). cbn.
  apply IH. intros e' He'. apply Hall. by right.
Qed.

Lemma weigh_ext φ ψ tr : (∀ c r, φ c r = ψ c r) → weigh φ tr = weigh ψ tr.
Proof.
  intros Heq. induction tr as [|e tr IH]; [done|].
  destruct e as [a c|[|i] c r]; cbn; rewrite ?Heq; lia.
Qed.

Lemma weigh_add φ ψ tr :
  weigh (λ c r, φ c r + ψ c r) tr = weigh φ tr + weigh ψ tr.
Proof.
  induction tr as [|e tr IH]; [done|].
  destruct e as [a c|[|i] c r]; cbn; lia.
Qed.

Lemma weigh_scale k φ tr : weigh (λ c r, k * φ c r) tr = k * weigh φ tr.
Proof.
  induction tr as [|e tr IH]; [cbn; lia|].
  destruct e as [a c|[|i] c r]; cbn; lia.
Qed.

Lemma stagger_issues wallets (lt : LoadTester) :
  mjoin (imap (λ i p, issue_of (Task (0 + i)) (start p lt).2)
           (imap (λ index wallet, runWalletTransactions wallet index) wallets))
  = stagger wallets lt.
Proof.
  unfold stagger.
  assert (∀ b,
    mjoin (imap (λ i p, issue_of (Task (b + i)) (start p lt).2)
             (imap (λ index wallet, runWalletTransactions wallet (b + index)) wallets))
    = imap (λ i (_ : Wallet),
              Issue (Task (b + i))
                    (Sleep (Z.of_nat (b + i) * intervalMs (config lt))
                           (Z.of_nat (length (childWallets (walletManager lt))))))
           wallets) as Hgen.
  { induction wallets as [|wallet wallets IH]; intros b; [done|].
    rewrite !imap_cons.
    match goal with
    | |- context [mjoin (?x :: ?l)] => change (mjoin (x :: l)) with (x ++ mjoin l)
    end.
    change (issue_of (Task (b + 0)) (start (runWalletTransactions wallet (b + 0)) lt).2)
      with [Issue (Task (b + 0))
                  (Sleep (Z.of_nat (b + 0) * intervalMs (config lt))
                         (Z.of_nat (length (childWallets (walletManager lt)))))].
    cbn [app]. f_equal.
    specialize (IH (S b)).
    erewrite (imap_ext _ (λ index wallet, runWalletTransactions wallet (S b + index))
                wallets).
    2:{ intros i x _. unfold compose. f_equal. lia. }
    erewrite (imap_ext (_ ∘ S) (λ i p, issue_of (Task (S b + i)) (start p lt).2)).
    2:{ intros i x _. unfold compose. do 2 f_equal. lia. }
    rewrite IH. apply imap_ext. intros i x _. unfold compose.
    by replace (S b + i)%nat with (b + S i)%nat by lia. }
  apply (Hgen 0%nat).
Qed.

Section DispatchEvolves.
Context {World : Type}.
Variable respond : World → Call → Response * World.
Variable choose : World → list nat → nat.

Lemma dispatch_evolves wallets cfg (lt : LoadTester) w o lt' w' tr :
  dispatch respond choose wallets cfg lt w = (o, lt', w', tr) →
  ∃ tr_pool,
    tr = stagger wallets lt ++ tr_pool ∧
    evolves (dispatch_step wallets) 0 lt tr_pool lt'.
Proof.
  unfold dispatch. intros Hrun.
  assert (∀ i p s0,
            imap (λ index wallet, runWalletTransactions wallet index) wallets !! i
              = Some p →
            respects (dispatch_step wallets i) (λ s1 s2 _, s2 = s1) s0 s0 p) as Hps.
  { intros i p s0 (wallet & Hw & ->)%dispatch_tasks_lookup.
    eapply respects_weaken; [apply runWalletTransactions_respects| |done].
    intros c r a b n Hstep. by exists wallet. }
  destruct (promise_all_evolves respond choose (dispatch_step wallets)
              _ _ _ _ _ _ _ _ _ Hps Hrun) as (tr_pool & -> & Hev).
  exists tr_pool. by rewrite stagger_issues.
Qed.
End DispatchEvolves.

Lemma evolves_dispatch wallets base (s s' : LoadTester) tr :
  evolves (dispatch_step wallets) base s tr s' →
  config s' = config s ∧
  isRunning s' = isRunning s ∧
  masterWallet (walletManager s') = masterWallet (walletManager s) ∧
  childWallets (walletManager s') = childWallets (walletManager s) ∧
  stats s'
  = bump (weigh (λ c r, (stats_delta c r).1.1) tr,
          weigh (λ c r, (stats_delta c r).1.2) tr,
          weigh (λ c r, (stats_delta c r).2) tr) (stats s) ∧
  (∀ i req, Issue (Task (base + i)) (SendTransaction req) ∈ tr →
     isRunning s = true ∧
     ∃ wallet, wallets !! i = Some wallet ∧
       tx_from req = address wallet ∧
       tx_to req = address (masterWallet (walletManager s)) ∧
       tx_value req = transactionAmount).
Proof.
  induction 1 as [s|s s1 s' i c r c' tr (wallet & Hw & Hstep) Hev IH
                   |s s1 s' i c r tr (wallet & Hw & Hstep) Hev IH].
  - do 4 (split; [done|]). split; [|by intros ? ? ?%elem_of_nil].
    unfold bump. cbn. destruct (stats s). cbn. f_equal; lia.
  - destruct Hstep as (H1 & H2 & H3 & H4 & H5 & H6 & H7).
    destruct IH as (I1 & I2 & I3 & I4 & I5 & I6).
    split; [congruence|]. split; [congruence|]. split; [congruence|].
    split; [congruence|]. split.
    + rewrite I5, H5. unfold bump. cbn. f_equal; lia.
    + intros j req Hin.
      apply elem_of_cons in Hin as [?|Hin]; [done|].
      apply elem_of_cons in Hin as [[= Hj <-]|Hin].
      * assert (j = i) as -> by lia. destruct H7 as (Hr & -> & _).
        split; [done|]. exists wallet. done.
      * destruct (I6 j req Hin) as (Hr & wallet' & Hw' & Hf & Ht & Hv).
        split; [congruence|]. exists wallet'. rewrite Ht, H3. done.
  - destruct Hstep as (H1 & H2 & H3 & H4 & H5 & H6 & H7).
    destruct IH as (I1 & I2 & I3 & I4 & I5 & I6).
    split; [congruence|]. split; [congruence|]. split; [congruence|].
    split; [congruence|]. split.
    + rewrite I5, H5. unfold bump. cbn. f_equal; lia.
    + intros j req Hin.
      apply elem_of_cons in Hin as [?|Hin]; [done|].
      destruct (I6 j req Hin) as (Hr & wallet' & Hw' & Hf & Ht & Hv).
      split; [congruence|]. exists wallet'. rewrite Ht, H3. done.
Qed.

Lemma weigh_hist_app φ h1 h2 :
  weigh_hist φ (h1 ++ h2) = weigh_hist φ h1 + weigh_hist φ h2.
Proof.
  unfold weigh_hist. induction h1 as [|[c r] h1 IH]; cbn in *; lia.
Qed.

Lemma sum_upto_ext n f g : (∀ i, (i < n)%nat → f i = g i) → sum_upto n f = sum_upto n g.
Proof.
  unfold sum_upto. intros Hext.
  assert (∀ l : list nat, (∀ i, i ∈ l → (i < n)%nat) →
            foldr (λ i acc, f i + acc) 0 l = foldr (λ i acc, g i + acc) 0 l) as Hl.
  { induction l as [|x l IH]; intros Hin; [done|]. cbn.
    rewrite IH by (intros; apply Hin; by right).
    rewrite Hext; [done|]. apply Hin. by left. }
  apply Hl. intros i ?%elem_of_seq. lia.
Qed.

Lemma sum_upto_bump n f i0 a :
  (i0 < n)%nat →
  sum_upto n (λ i, if decide (i = i0) then a + f i else f i) = a + sum_upto n f.
Proof.
  unfold sum_upto. intros Hlt.
  assert (∀ b m, (b ≤ i0 < b + m)%nat →
            foldr (λ i acc, (if decide (i = i0) then a + f i else f i) + acc) 0 (seq b m)
            = a + foldr (λ i acc, f i + acc) 0 (seq b m)) as Hin.
  { intros b m. revert b. induction m as [|m IH]; intros b Hb; [lia|].
    cbn. destruct (decide (b = i0)) as [->|Hne].
    - assert (∀ l : list nat, (∀ i, i ∈ l → i ≠ i0) →
                foldr (λ i acc, (if decide (i = i0) then a + f i else f i) + acc) 0 l
                = foldr (λ i acc, f i + acc) 0 l) as Hout.
      { induction l as [|x l IHl]; intros Hl; [done|]. cbn.
        rewrite IHl by (intros; apply Hl; by right).
        rewrite decide_False; [done|]. apply Hl. by left. }
      rewrite Hout; [lia|]. intros i ?%elem_of_seq. lia.
    - rewrite IH by lia. lia. }
  apply Hin. lia.
Qed.

Lemma sum_upto_zero n f : (∀ i, (i < n)%nat → f i = 0) → sum_upto n f = 0.
Proof.
  intros Hz. rewrite (sum_upto_ext n f (λ _, 0)) by done. clear Hz.
  unfold sum_upto. generalize 0%nat. induction n as [|n IH]; intros b; cbn; [done|].
  by rewrite IH.
Qed.

(** The answers of a trace, promise by promise. *)
Lemma weigh_partition φ n base tr :
  (∀ e, e ∈ tr → ∃ i, (i < n)%nat ∧ actor_of e = Task (base + i)) →
  weigh φ tr = sum_upto n (λ i, weigh_hist φ (local (Task (base + i)) tr)).
Proof.
  induction tr as [|e tr IH]; intros Hall.
  - cbn. symmetry. by apply sum_upto_zero.
  - assert (weigh φ tr = sum_upto n (λ i, weigh_hist φ (local (Task (base + i)) tr)))
      as IH' by (apply IH; intros; apply Hall; by right).
    destruct (Hall e ltac:(by left)) as (i0 & Hi0 & Hact).
    destruct e as [a c|a c r]; cbn in Hact; subst a; cbn [weigh local].
    + done.
    + rewrite IH', <- (sum_upto_bump n _ i0 (φ c r)) by done.
      apply sum_upto_ext. intros i Hi.
      destruct (decide (i = i0)) as [->|Hne].
      * by rewrite decide_True.
      * rewrite decide_False; [done|]. intros [=]. lia.
Qed.

Ltac solve_debt :=
  unfold pays_debts, no_debts, owed_resyncs, owed_waits in *;
  rewrite ?weigh_hist_app; cbn;
  repeat match goal with
         | H : is_nonce_issue _ = _ |- _ => rewrite H
         end;
  cbn; lia.

Ltac walk_debts IH :=
  repeat (cbn;
    first
      [ apply obeys_get; intros ?
      | apply obeys_put
      | apply obeys_done; solve [solve_debt]
      | apply obeys_await; [solve [solve_debt]|intros ?]
      | apply IH; solve [solve_debt]
      | match goal with
        | |- context [match ?r with Fulfilled _ => _ | Rejected _ => _ end] =>
            destruct r as [[]|]
        | |- context [is_nonce_issue ?e] => destruct (is_nonce_issue e) eqn:?
        | |- context [if ?b then _ else _] => destruct b eqn:?
        end ]).

Lemma wallet_loop_pays wallet cfg n : ∀ i h,
  no_debts h →
  obeys pays_debts (λ h' _, no_debts h') (λ _ _, False) h
        (wallet_loop wallet cfg n i).
Proof.
  induction n as [|n IH]; intros i h Hbal; [by constructor|].
  cbn [wallet_loop]. walk_debts IH.
Qed.

Lemma runWalletTransactions_pays wallet index :
  obeys pays_debts (λ h' _, no_debts h') (λ _ _, False) []
        (runWalletTransactions wallet index).
Proof.
  unfold runWalletTransactions. cbn.
  apply obeys_get. intros lt. apply obeys_await; [done|].
  intros r. cbn. apply wallet_loop_pays. solve_debt.
Qed.

Lemma stats_delta_total c r : (stats_delta c r).1.1 = accepted c r.
Proof.
  destruct c as [| | |req|tx| | |]; try done.
  - destruct r as [[]|e]; cbn; try done; by destruct (is_nonce_issue _).
  - destruct r as [[| | | |rc| |]|e]; cbn; try done;
      first [by destruct (status rc =? 1)|by destruct (is_nonce_issue _)].
Qed.

Lemma stats_delta_successful c r : (stats_delta c r).1.2 = confirmed_ok c r.
Proof.
  destruct c as [| | |req|tx| | |]; try done.
  - destruct r as [[]|e]; cbn; try done; by destruct (is_nonce_issue _).
  - destruct r as [[| | | |rc| |]|e]; cbn; try done;
      first [by destruct (status rc =? 1)|by destruct (is_nonce_issue _)].
Qed.

Lemma stats_delta_failed c r :
  (stats_delta c r).2
  = reverted c r + 2 * failed_request c r - (nonce_failure c r - nonce_answer c r).
Proof.
  destruct c as [| | |req|tx| | |]; try done.
  - destruct r as [[]|e]; cbn; try done; by destruct (is_nonce_issue _).
  - destruct r as [[| | | |rc| |]|e]; cbn; try done;
      first [by destruct (status rc =? 1)|by destruct (is_nonce_issue _)].
Qed.

Lemma wait_answer_cases c r :
  wait_answer c r = confirmed_ok c r + reverted c r + failed_wait c r.
Proof.
  destruct c as [| | |req|tx| | |]; try done.
  destruct r as [[| | | |rc| |]|e]; cbn; try done. by destruct (status rc =? 1).
Qed.

Lemma weigh_sub φ ψ tr :
  weigh (λ c r, φ c r - ψ c r) tr = weigh φ tr - weigh ψ tr.
Proof.
  induction tr as [|e tr IH]; [done|].
  destruct e as [a c|[|i] c r]; cbn; lia.
Qed.

Lemma weigh_hist_sub φ ψ h :
  weigh_hist (λ c r, φ c r - ψ c r) h = weigh_hist φ h - weigh_hist ψ h.
Proof.
  unfold weigh_hist. induction h as [|[c r] h IH]; cbn in *; lia.
Qed.

Section DispatchAccount.
Context {World : Type}.
Variable respond : World → Call → Response * World.
Variable choose : World → list nat → nat.

(** When the dispatch has settled, no wallet owes a nonce query or a
    confirmation. *)
Lemma dispatch_settled wallets cfg (lt : LoadTester) w rs lt' w' tr :
  dispatch respond choose wallets cfg lt w = (Returned rs, lt', w', tr) →
  weigh nonce_failure tr = weigh nonce_answer tr ∧
  weigh accepted tr = weigh wait_answer tr.
Proof.
  unfold dispatch. intros Hrun.
  assert (∀ i p,
            imap (λ index wallet, runWalletTransactions wallet index) wallets !! i = Some p →
            obeys pays_debts (λ h' (_ : unit), no_debts h') (λ _ _, False) [] p) as Hob.
  { intros i p (wallet & _ & ->)%dispatch_tasks_lookup.
    apply runWalletTransactions_pays. }
  destruct (promise_all_sound respond choose
              (λ _, pays_debts) (λ _ h' (_ : unit), no_debts h') (λ _ _ _, False)
              _ _ _ _ _ _ _ _ _ Hob Hrun)
    as (pool & tr_pool & Htr & HF & Hev & HR & _).
  destruct (HR rs eq_refl) as [Hlen HQ]. rewrite length_imap in Hlen.
  assert (∀ e, e ∈ tr → ∃ i, (i < length wallets)%nat ∧ actor_of e = Task (0 + i))
    as Hact.
  { rewrite Htr. intros e [Hin|Hin]%elem_of_app.
    - apply issues_elem in Hin as (i & c & k & Hi & ->).
      exists i. split; [|done].
      apply lookup_lt_Some in Hi.
      rewrite <- (Forall2_length _ _ _ HF), length_imap in Hi. done.
    - apply list_elem_of_split in Hin as (t1 & t2 & Heq).
      destruct (Hev _ _ _ Heq) as [(i & h & Ha & Hh & _) _].
      exists i. split; [|done].
      apply lookup_replicate in Hh as [_ Hi]. by rewrite length_imap in Hi. }
  assert (∀ i, (i < length wallets)%nat → no_debts (local (Task (0 + i)) tr)) as Hdebt.
  { intros i Hi. destruct (lookup_lt_is_Some_2 rs i) as [a Ha]; [lia|].
    by apply (HQ i a). }
  pose proof (weigh_partition (λ c r, nonce_failure c r - nonce_answer c r)
                (length wallets) 0 tr Hact) as H1.
  pose proof (weigh_partition (λ c r, accepted c r - wait_answer c r)
                (length wallets) 0 tr Hact) as H2.
  rewrite sum_upto_zero, weigh_sub in H1, H2; [lia| |].
  - intros i Hi. rewrite weigh_hist_sub. by destruct (Hdebt i Hi).
  - intros i Hi. rewrite weigh_hist_sub. by destruct (Hdebt i Hi).
Qed.

(** The dispatch of [startLoadTest], counted. *)
Lemma dispatch_account wallets (lt : LoadTester) w :
  ∃ rs lt' w' tr,
    dispatch respond choose wallets (config lt) lt w = (Returned rs, lt', w', tr) ∧
    config lt' = config lt ∧
    isRunning lt' = isRunning lt ∧
    masterWallet (walletManager lt') = masterWallet (walletManager lt) ∧
    childWallets (walletManager lt') = childWallets (walletManager lt) ∧
    stats lt'
    = bump (weigh accepted tr, weigh confirmed_ok tr,
            weigh reverted tr + 2 * weigh failed_request tr) (stats lt) ∧
    weigh accepted tr
    = weigh confirmed_ok tr + weigh reverted tr + weigh failed_wait tr.
Proof.
  destruct (dispatch_returns respond choose wallets lt w) as [rs Hret].
  destruct (dispatch respond choose wallets (config lt) lt w)
    as [[[o lt'] w'] tr] eqn:Hrun.
  cbn in Hret. subst o. exists rs, lt', w', tr. split; [done|].
  destruct (dispatch_settled _ _ _ _ _ _ _ _ Hrun) as [Hres Hwait].
  destruct (dispatch_evolves respond choose _ _ _ _ _ _ _ _ Hrun)
    as (tr_pool & Htr & Hev).
  destruct (evolves_dispatch _ _ _ _ _ Hev) as (H1 & H2 & H3 & H4 & H5 & _).
  do 4 (split; [done|]).
  assert (∀ φ, weigh φ tr = weigh φ tr_pool) as Hw.
  { intros φ. rewrite Htr, weigh_app, weigh_issues; [done|].
    unfold stagger. intros e [i He]%list_elem_of_lookup.
    rewrite list_lookup_imap in He. destruct (wallets !! i); simplify_eq/=. eauto. }
  split.
  - rewrite H5. rewrite <- !Hw. unfold bump. cbn.
    rewrite (weigh_ext _ _ tr stats_delta_total).
    rewrite (weigh_ext _ _ tr stats_delta_successful).
    rewrite (weigh_ext _ _ tr stats_delta_failed).
    rewrite weigh_sub, weigh_sub, weigh_add. 
    rewrite (weigh_scale 2 failed_request).
    f_equal. lia.
  - rewrite Hwait, (weigh_ext _ _ tr wait_answer_cases), !weigh_add. done.
Qed.
End DispatchAccount.

(** ** [initializeNonces] and [startLoadTest] *)

Lemma initializeNonces_task_respects (wallet : Wallet) (s0 : LoadTester) :
  respects (init_step (address wallet)) (λ s1 s2 _, s2 = s1) s0 s0
    (on_walletManager (updateNonce (address wallet));; mret tt).
Proof.
  cbn. apply respects_await; [done|]. intros r s.
  destruct r as [[]|]; cbn;
    repeat first [apply respects_get | apply respects_put];
    by constructor.
Qed.

Lemma initializeNonces_task_depth (wallet : Wallet) :
  depth_le 1 (on_walletManager (updateNonce (address wallet));; mret tt
              : prog LoadTester unit).
Proof.
  cbn. constructor. intros r.
  destruct r as [[]|]; cbn;
    repeat first [apply depth_get; intros ? | apply depth_put]; constructor.
Qed.

(** The property of a path of one promise of [initializeNonces]: it asks
    for the count of its wallet, and ends with the answer. *)
Lemma initializeNonces_task_obeys (wallet : Wallet) :
  obeys (λ h c, h = [] ∧ c = GetTransactionCount (address wallet))
        (λ h (_ : unit), ∃ n, h = [(GetTransactionCount (address wallet),
                                    Fulfilled (VNumber n))])
        (λ h e, ∃ r, h = [(GetTransactionCount (address wallet), r)] ∧ bad_answer r e)
        []
        (on_walletManager (updateNonce (address wallet));; mret tt
         : prog LoadTester unit).
Proof.
  cbn. apply obeys_await; [done|]. intros r.
  destruct r as [[]|]; cbn;
    repeat first [apply obeys_get; intros ? | apply obeys_put];
    constructor; eexists; first [done|split; [done|]; first [by left|right; by eauto]].
Qed.

Lemma evolves_init wallets base (s s' : LoadTester) tr :
  evolves (init_steps wallets) base s tr s' →
  config s' = config s ∧
  isRunning s' = isRunning s ∧
  stats s' = stats s ∧
  masterWallet (walletManager s') = masterWallet (walletManager s) ∧
  childWallets (walletManager s') = childWallets (walletManager s) ∧
  (∀ a, nonces (walletManager s') !! a
        = match last_count a tr with
          | Some n => Some n
          | None => nonces (walletManager s) !! a
          end) ∧
  (∀ who c r, Settle who c r ∈ tr →
     ∃ i wallet, who = Task (base + i) ∧ wallets !! i = Some wallet ∧
                 c = GetTransactionCount (address wallet)) ∧
  (∀ who c, Issue who c ∉ tr).
Proof.
  induction 1 as [s|s s1 s' i c r c' tr (wallet & _ & Hnext & _) Hev IH
                   |s s1 s' i c r tr (wallet & Hw & _ & -> & ->) Hev IH].
  - do 5 (split; [done|]). split; [done|].
    split; [by intros ? ? ? ?%elem_of_nil|by intros ? ? ?%elem_of_nil].
  - done.
  - destruct IH as (I1 & I2 & I3 & I4 & I5 & I6 & I7 & I8).
    set (b := address wallet) in *.
    assert (∀ a, nonces (walletManager s') !! a =
                 match last_count a (Settle (Task (base + i)) (GetTransactionCount b) r :: tr) with
                 | Some n => Some n
                 | None => nonces (walletManager s) !! a
                 end) as Hn.
    { intros a. rewrite I6.
      destruct r as [[]|]; cbn; try done.
      destruct (last_count a tr); [done|].
      destruct (decide (b = a)) as [->|Hne].
      - by rewrite lookup_insert_eq.
      - by rewrite lookup_insert_ne. }
    destruct r as [[]|]; cbn in *;
      (do 5 (split; [done|]); split; [done|]; split;
       [intros who c r' [[= -> -> _]|Hin]%elem_of_cons;
          [by exists i, wallet|by eapply I7]
       |intros who c [?|Hin]%elem_of_cons; [done|by eapply I8]]).
Qed.

Lemma last_count_issues a issues tr :
  (∀ e, e ∈ issues → ∃ who c, e = Issue who c) →
  last_count a (issues ++ tr) = last_count a tr.
Proof.
  induction issues as [|e issues IH]; intros Hall; [done|].
  destruct (Hall e ltac:(by left)) as (who & c & ->). cbn.
  apply IH. intros e' He'. apply Hall. by right.
Qed.

Section InitializeNonces.
Context {World : Type}.
Variable respond : World → Call → Response * World.
Variable choose : World → list nat → nat.

Lemma initializeNonces_run wallets (lt : LoadTester) w :
  ∃ o lt' w' tr,
    initializeNonces respond choose wallets lt w = (o, lt', w', tr) ∧
    o ≠ OutOfFuel ∧
    config lt' = config lt ∧
    isRunning lt' = isRunning lt ∧
    stats lt' = stats lt ∧
    masterWallet (walletManager lt') = masterWallet (walletManager lt) ∧
    childWallets (walletManager lt') = childWallets (walletManager lt) ∧
    (∀ a, nonces (walletManager lt') !! a
          = match last_count a tr with
            | Some n => Some n
            | None => nonces (walletManager lt) !! a
            end) ∧
    (∀ who c, Issue who c ∈ tr →
       ∃ i wallet, who = Task i ∧ wallets !! i = Some wallet ∧
                   c = GetTransactionCount (address wallet)) ∧
    (∀ who c r, Settle who c r ∈ tr →
       ∃ i wallet, who = Task i ∧ wallets !! i = Some wallet ∧
                   c = GetTransactionCount (address wallet)) ∧
    (o = Returned tt →
       ∀ i wallet, wallets !! i = Some wallet →
         ∃ n, local (Task i) tr
              = [(GetTransactionCount (address wallet), Fulfilled (VNumber n))]) ∧
    (∀ e, o = Threw e →
       ∃ t i c r, tr = t ++ [Settle (Task i) c r] ∧ bad_answer r e).
Proof.
  unfold initializeNonces. rewrite M_bind_unfold.
  set (ps := map (λ wallet, on_walletManager (updateNonce (address wallet));; mret tt)
                 wallets).
  destruct (promise_all respond choose (length wallets) 0 ps lt w)
    as [[[o1 lt'] w'] tr] eqn:Hrun.
  assert (∀ i p, ps !! i = Some p →
            ∃ wallet, wallets !! i = Some wallet ∧
              p = (on_walletManager (updateNonce (address wallet));; mret tt)) as Hps.
  { intros i p. unfold ps. rewrite list_lookup_fmap.
    destruct (wallets !! i); intros ?; simplify_eq/=. eauto. }
  assert (∀ i p s0, ps !! i = Some p →
            respects (init_steps wallets i) (λ s1 s2 _, s2 = s1) s0 s0 p) as Hres.
  { intros i p s0 (wallet & Hw & ->)%Hps.
    eapply respects_weaken; [apply initializeNonces_task_respects| |done].
    intros c r a b n Hstep. by exists wallet. }
  destruct (promise_all_evolves respond choose (init_steps wallets)
              _ _ _ _ _ _ _ _ _ Hres Hrun) as (tr_pool & Htr & Hev).
  destruct (evolves_init _ _ _ _ _ Hev) as (H1 & H2 & H3 & H4 & H5 & H6 & H7 & H8).
  set (P := λ (i : nat) (h : hist) (c : Call),
         ∃ wallet, wallets !! i = Some wallet ∧
                   h = [] ∧ c = GetTransactionCount (address wallet)).
  set (Q := λ (i : nat) (h : hist) (_ : unit),
         ∃ wallet n, wallets !! i = Some wallet ∧
           h = [(GetTransactionCount (address wallet), Fulfilled (VNumber n))]).
  set (R := λ (i : nat) (h : hist) (e : Error),
         ∃ c r, h = [(c, r)] ∧ bad_answer r e).
  assert (∀ i p, ps !! i = Some p → obeys (P i) (Q i) (R i) [] p) as Hob.
  { intros i p (wallet & Hw & ->)%Hps.
    eapply obeys_weaken; [apply initializeNonces_task_obeys|..].
    - intros h c [-> ->]. by exists wallet.
    - intros h a [n ->]. by exists wallet, n.
    - intros h e (r & -> & Hbad). by exists (GetTransactionCount (address wallet)), r. }
  destruct (promise_all_sound respond choose P Q R _ _ _ _ _ _ _ _ _ Hob Hrun)
    as (pool & tr_pool' & Htr' & HF & Hev' & HR & HT).
  pose proof (promise_all_fuel respond choose (length wallets) 0 ps 1 lt w) as Hfuel.
  rewrite Hrun in Hfuel. cbn in Hfuel.
  assert (o1 ≠ OutOfFuel) as Hnf.
  { apply Hfuel.
    - intros p [i Hi]%list_elem_of_lookup. apply Hps in Hi as (wallet & _ & ->).
      apply initializeNonces_task_depth.
    - unfold ps. rewrite length_map. lia. }
  set (issues := mjoin (imap (λ i p, issue_of (Task (0 + i)) (start p lt).2) ps)) in *.
  assert (∀ e, e ∈ issues →
            ∃ i wallet, wallets !! i = Some wallet ∧
              e = Issue (Task i) (GetTransactionCount (address wallet))) as Hiss.
  { intros e.
    assert (issues = mjoin (imap (λ i q, issue_of (Task (0 + i)) q)
                              ((λ p, (start p lt).2) <$> ps))) as ->
      by (by rewrite imap_fmap).
    intros (i & c & k & Hi & ->)%issues_elem.
    rewrite list_lookup_fmap in Hi.
    destruct (ps !! i) as [p|] eqn:Hp; simplify_eq/=.
    apply Hps in Hp as (wallet & Hw & ->). cbn in Hi. simplify_eq.
    exists i, wallet. done. }
  exists (match o1 with Returned _ => Returned tt | Threw e => Threw e
                     | OutOfFuel => OutOfFuel end), lt', w', tr.
  split; [destruct o1; cbn; by rewrite ?app_nil_r|].
  split; [by destruct o1|]. do 5 (split; [done|]).
  split; [|split; [|split; [|split]]].
  - intros a. rewrite H6, Htr, last_count_issues; [done|].
    intros e (i & wallet & _ & ->)%Hiss. eauto.
  - intros who c. rewrite Htr. intros [Hin|Hin]%elem_of_app.
    + apply Hiss in Hin as (i & wallet & Hw & [= -> ->]). eauto.
    + by apply H8 in Hin.
  - intros who c r. rewrite Htr. intros [Hin|Hin]%elem_of_app.
    + by apply Hiss in Hin as (i & wallet & Hw & ?).
    + by eapply (H7 who c r).
  - intros Ho. destruct o1 as [rs| |]; try done.
    destruct (HR rs eq_refl) as [Hlen HQ].
    intros i wallet Hw.
    destruct (lookup_lt_is_Some_2 rs i) as [u Hu].
    { rewrite Hlen. unfold ps. rewrite length_map. by eapply lookup_lt_Some. }
    destruct (HQ i u Hu) as (wallet' & n & Hw' & Hl). simplify_eq. by exists n.
  - intros e Ho. destruct o1 as [|e'|]; try done. injection Ho as ->.
    destruct (HT e eq_refl) as [[_ (i & Hi)]|(t1 & i & c & r & Hp & _ & c' & r' & Hl & Hbad)].
    + destruct (Forall2_lookup_r _ _ _ _ _ HF Hi) as (p & Hp & s0 & Hq).
      apply Hps in Hp as (wallet & _ & ->). done.
    + rewrite Htr', Hp, app_assoc, local_snoc_settle in Hl.
      assert (r' = r) as ->.
      { destruct (local _ _) as [|? [|? ?]]; simplify_eq/=. done. }
      rewrite Htr', Hp, app_assoc.
      eexists _, (0 + i)%nat, c, r. split; [reflexivity|done].
Qed.
End InitializeNonces.

Section StartLoadTest.
Context {World : Type}.
Variable respond : World → Call → Response * World.
Variable choose : World → list nat → nat.

Lemma date_now_reads (lt : LoadTester) w t w1 :
  respond w DateNow = (Fulfilled (VNumber t), w1) →
  date_now respond lt w
  = (Returned t, lt, w1,
     [Issue Main DateNow; Settle Main DateNow (Fulfilled (VNumber t))]).
Proof.
  intros Hr. unfold date_now. rewrite M_bind_unfold. unfold ask. rewrite Hr. done.
Qed.

Lemma startLoadTest_running (lt : LoadTester) w :
  isRunning lt = true →
  startLoadTest respond choose lt w
  = (Threw (mkError "Load test is already running"), lt, w, []).
Proof.
  intros Hrun. unfold startLoadTest. rewrite M_bind_unfold. cbn. by rewrite Hrun.
Qed.

Lemma startLoadTest_cases (lt : LoadTester) w :
  isRunning lt = false →
  (∀ w0, ∃ t w1, respond w0 DateNow = (Fulfilled (VNumber t), w1)) →
  ∃ t1 w1 o_i lt_i w_i tr_i,
    respond w DateNow = (Fulfilled (VNumber t1), w1) ∧
    initializeNonces respond choose (childWallets (walletManager lt))
      (reset_stats t1 (set_isRunning true lt)) w1 = (o_i, lt_i, w_i, tr_i) ∧
    match o_i with
    | Returned _ =>
        ∃ rs lt_d w_d tr_d t2 w2,
          dispatch respond choose (childWallets (walletManager lt)) (config lt) lt_i w_i
            = (Returned rs, lt_d, w_d, tr_d) ∧
          respond w_d DateNow = (Fulfilled (VNumber t2), w2) ∧
          startLoadTest respond choose lt w
          = (Returned tt, set_endTime t2 (set_isRunning false lt_d), w2,
             [Issue Main DateNow; Settle Main DateNow (Fulfilled (VNumber t1))]
             ++ tr_i ++ tr_d
             ++ [Issue Main DateNow; Settle Main DateNow (Fulfilled (VNumber t2))])
    | Threw e =>
        startLoadTest respond choose lt w
        = (Threw e, lt_i, w_i,
           [Issue Main DateNow; Settle Main DateNow (Fulfilled (VNumber t1))] ++ tr_i)
    | OutOfFuel => False
    end.
Proof.
  intros Hrun Hclock.
  destruct (Hclock w) as (t1 & w1 & Ht1).
  destruct (initializeNonces_run respond choose (childWallets (walletManager lt))
              (reset_stats t1 (set_isRunning true lt)) w1)
    as (o_i & lt_i & w_i & tr_i & Hinit & Hnf & Hc & _).
  exists t1, w1, o_i, lt_i, w_i, tr_i. split; [done|]. split; [done|].
  unfold startLoadTest. rewrite M_bind_unfold. cbn [get_state]. rewrite Hrun.
  rewrite M_bind_unfold. cbn [put_state].
  rewrite M_bind_unfold, (date_now_reads _ _ _ _ Ht1).
  rewrite M_bind_unfold. cbn [get_state].
  rewrite M_bind_unfold. cbn [put_state].
  rewrite M_bind_unfold. cbn [get_state].
  change (childWallets (walletManager (reset_stats t1 (set_isRunning true lt))))
    with (childWallets (walletManager lt)).
  change (config (reset_stats t1 (set_isRunning true lt))) with (config lt).
  rewrite M_bind_unfold, Hinit.
  destruct o_i as [[]|e|]; [|by rewrite !app_nil_l|done].
  cbn in Hc.
  destruct (dispatch_returns respond choose (childWallets (walletManager lt)) lt_i w_i)
    as [rs Hret].
  rewrite Hc in Hret.
  destruct (dispatch respond choose (childWallets (walletManager lt)) (config lt) lt_i w_i)
    as [[[o_d lt_d] w_d] tr_d] eqn:Hdisp.
  cbn in Hret. subst o_d.
  destruct (Hclock w_d) as (t2 & w2 & Ht2).
  exists rs, lt_d, w_d, tr_d, t2, w2. split; [done|]. split; [done|].
  unfold M_finally, M_catch. rewrite M_bind_unfold, Hdisp.
  cbn [mret M_mret M_ret].
  rewrite M_bind_unfold. cbn [get_state].
  rewrite M_bind_unfold. cbn [put_state].
  rewrite M_bind_unfold, (date_now_reads _ _ _ _ Ht2).
  rewrite M_bind_unfold. cbn [get_state].
  cbn. by rewrite !app_nil_r.
Qed.
End StartLoadTest.

Lemma weigh_zero φ tr :
  (∀ who c r, Settle who c r ∈ tr → φ c r = 0) → weigh φ tr = 0.
Proof.
  induction tr as [|e tr IH]; intros Hall; [done|].
  assert (weigh φ tr = 0) as Hrest by (apply IH; intros; eapply Hall; by right).
  destruct e as [a c|[|i] c r]; cbn; try done.
  rewrite (Hall (Task i) c r) by (by left). lia.
Qed.

Section StartLoadTestRuns.
Context {World : Type}.
Variable respond : World → Call → Response * World.
Variable choose : World → list nat → nat.

(** X7: with the clock answering with numbers, [startLoadTest] on a tester
    that is not running returns or throws, and when it returns,
    [isRunning] is false again, [startTime] and [endTime] are the first
    and the last reading of the clock, and the counters describe the run
    exactly: [totalTransactions] is the number of accepted broadcasts,
    [successfulTransactions] the number of receipts with status 1,
    [failedTransactions] the number of receipts with another status plus
    twice the number of failed broadcasts and confirmations; every
    accepted broadcast got exactly one answer to its confirmation. *)
Theorem startLoadTest_counts (lt : LoadTester) (w : World) :
  isRunning lt = false →
  (∀ w0, ∃ t w1, respond w0 DateNow = (Fulfilled (VNumber t), w1)) →
  ∃ o lt' w' tr,
    startLoadTest respond choose lt w = (o, lt', w', tr) ∧
    (o = Returned tt ∨ ∃ e, o = Threw e) ∧
    (o = Returned tt →
       isRunning lt' = false ∧
       config lt' = config lt ∧
       childWallets (walletManager lt') = childWallets (walletManager lt) ∧
       masterWallet (walletManager lt') = masterWallet (walletManager lt) ∧
       (∃ t1 t2 tr',
          tr = [Issue Main DateNow; Settle Main DateNow (Fulfilled (VNumber t1))]
               ++ tr'
               ++ [Issue Main DateNow; Settle Main DateNow (Fulfilled (VNumber t2))] ∧
          startTime (stats lt') = Some t1 ∧ endTime (stats lt') = Some t2) ∧
       totalTransactions (stats lt') = weigh accepted tr ∧
       successfulTransactions (stats lt') = weigh confirmed_ok tr ∧
       failedTransactions (stats lt')
         = weigh reverted tr + 2 * weigh failed_request tr ∧
       weigh accepted tr
         = weigh confirmed_ok tr + weigh reverted tr + weigh failed_wait tr).
Proof.
  intros Hrun Hclock.
  destruct (startLoadTest_cases respond choose lt w Hrun Hclock)
    as (t1 & w1 & o_i & lt_i & w_i & tr_i & Ht1 & Hinit & Hcase).
  destruct (initializeNonces_run respond choose (childWallets (walletManager lt))
              (reset_stats t1 (set_isRunning true lt)) w1)
    as (o_i' & lt_i' & w_i' & tr_i' & Hinit' & Hnf & Hc & Hr & Hs & Hm & Hch & _ & _
        & Hsettle & _).
  rewrite Hinit in Hinit'. symmetry in Hinit'. simplify_eq.
  destruct o_i as [[]|e|]; [| |done].
  2:{ eexists _, _, _, _. split; [exact Hcase|]. split; [right; by eexists|done]. }
  destruct Hcase as (rs & lt_d & w_d & tr_d & t2 & w2 & Hdisp & Ht2 & Hstart).
  destruct (dispatch_account respond choose (childWallets (walletManager lt)) lt_i w_i)
    as (rs' & lt_d' & w_d' & tr_d' & Hdisp' & D1 & D2 & D3 & D4 & D5 & D6).
  rewrite Hc in Hdisp'. cbn in Hdisp'. rewrite Hdisp in Hdisp'. symmetry in Hdisp'.
  simplify_eq.
  eexists _, _, _, _. split; [exact Hstart|]. split; [by left|]. intros _.
  cbn in Hc, Hr, Hs, Hm, Hch.
  assert (∀ φ, (∀ a r, φ (GetTransactionCount a) r = 0) →
            weigh φ ([Issue Main DateNow; Settle Main DateNow (Fulfilled (VNumber t1))]
                     ++ tr_i ++ tr_d
                     ++ [Issue Main DateNow; Settle Main DateNow (Fulfilled (VNumber t2))])
            = weigh φ tr_d) as Hw.
  { intros φ Hφ. rewrite !weigh_app. cbn.
    rewrite (weigh_zero φ tr_i); [lia|].
    intros who c r (i & wallet & _ & _ & ->)%Hsettle. apply Hφ. }
  rewrite !Hw by done.
  split; [done|]. split; [cbn; congruence|]. split; [cbn; congruence|].
  split; [cbn; congruence|]. split.
  { exists t1, t2, (tr_i ++ tr_d). split; [by rewrite <- app_assoc|].
    cbn. rewrite D5, Hs. done. }
  cbn. rewrite D5, Hs. cbn. repeat split; lia.
Qed.

(** X8: when [startLoadTest] throws on a tester that is not running (the
    clock answering with numbers), the error is that of a failing answer
    to one of the promises, with which the trace ends, and no transaction
    was broadcast before: a query of [initializeNonces] failed.  The
    counters are at zero and [isRunning] is left set (the reset of the
    flag sits in a [finally] block that the initialisation is outside of),
    so that every later [startLoadTest] on that tester throws the
    already-running error without doing anything. *)
Theorem startLoadTest_failed_initialization (lt : LoadTester) (w : World) :
  isRunning lt = false →
  (∀ w0, ∃ t w1, respond w0 DateNow = (Fulfilled (VNumber t), w1)) →
  ∃ o lt' w' tr,
    startLoadTest respond choose lt w = (o, lt', w', tr) ∧
    (∀ e, o = Threw e →
       (∃ t i c r, tr = t ++ [Settle (Task i) c r] ∧ bad_answer r e) ∧
       broadcasts tr = [] ∧
       isRunning lt' = true ∧
       totalTransactions (stats lt') = 0 ∧
       successfulTransactions (stats lt') = 0 ∧
       failedTransactions (stats lt') = 0 ∧
       endTime (stats lt') = endTime (stats lt) ∧
       ∀ w'', startLoadTest respond choose lt' w''
              = (Threw (mkError "Load test is already running"), lt', w'', [])).
Proof.
  intros Hrun Hclock.
  destruct (startLoadTest_cases respond choose lt w Hrun Hclock)
    as (t1 & w1 & o_i & lt_i & w_i & tr_i & Ht1 & Hinit & Hcase).
  destruct (initializeNonces_run respond choose (childWallets (walletManager lt))
              (reset_stats t1 (set_isRunning true lt)) w1)
    as (o_i' & lt_i' & w_i' & tr_i' & Hinit' & Hnf & Hc & Hr & Hs & Hm & Hch & _ & Hiss
        & Hsettle & _ & Hthrew).
  rewrite Hinit in Hinit'. symmetry in Hinit'. simplify_eq.
  destruct o_i as [[]|e|]; [| |done].
  { destruct Hcase as (rs & lt_d & w_d & tr_d & t2 & w2 & Hdisp & Ht2 & Hstart).
    eexists _, _, _, _. split; [exact Hstart|]. done. }
  eexists _, _, _, _. split; [exact Hcase|]. intros e' [= <-].
  destruct (Hthrew e eq_refl) as (t & i & c & r & -> & Hbad).
  cbn in Hr, Hs. split; [|split; [|split; [done|]]].
  - exists ([Issue Main DateNow; Settle Main DateNow (Fulfilled (VNumber t1))] ++ t),
      i, c, r. split; [by rewrite <- app_assoc|done].
  - apply broadcasts_none. intros who req [Hin|Hin]%elem_of_app.
    + repeat (apply elem_of_cons in Hin as [?|Hin]; [done|]).
      by apply elem_of_nil in Hin.
    + by destruct (Hiss _ _ Hin) as (? & ? & _ & _ & ?).
  - rewrite Hs. cbn. do 4 (split; [done|]).
    intros w''. by apply startLoadTest_running.
Qed.
End StartLoadTestRuns.

(** ** The broadcasts of the load test *)

Section DispatchBroadcasts.
Context {World : Type}.
Variable respond : World → Call → Response * World.
Variable choose : World → list nat → nat.

(** X9: every transaction broadcast by the dispatch of the load test is
    sent from the wallet of its promise to the address of the master
    wallet with a value of exactly 10^14 wei (0.0001 ether), and only
    while [isRunning] is true; the dispatch changes neither the flag, the
    configuration, the master wallet nor the pool of wallets. *)
Theorem dispatch_broadcasts (wallets : list Wallet) (cfg : Config)
    (lt : LoadTester) (w : World) :
  ∃ o lt' w' tr,
    dispatch respond choose wallets cfg lt w = (o, lt', w', tr) ∧
    masterWallet (walletManager lt') = masterWallet (walletManager lt) ∧
    childWallets (walletManager lt') = childWallets (walletManager lt) ∧
    config lt' = config lt ∧
    isRunning lt' = isRunning lt ∧
    ∀ who req, Issue who (SendTransaction req) ∈ tr →
      isRunning lt = true ∧
      ∃ i wallet, who = Task i ∧ wallets !! i = Some wallet ∧
        tx_from req = address wallet ∧
        tx_to req = address (masterWallet (walletManager lt)) ∧
        tx_value req = 10 ^ 14.
Proof.
  destruct (dispatch respond choose wallets cfg lt w) as [[[o lt'] w'] tr] eqn:Hrun.
  destruct (dispatch_evolves respond choose _ _ _ _ _ _ _ _ Hrun)
    as (tr_pool & -> & Hev).
  destruct (evolves_dispatch _ _ _ _ _ Hev) as (H1 & H2 & H3 & H4 & _ & H6).
  exists o, lt', w', (stagger wallets lt ++ tr_pool). do 5 (split; [done|]).
  intros who req [Hin|Hin]%elem_of_app.
  - unfold stagger in Hin. apply list_elem_of_lookup in Hin as [i Hi].
    rewrite list_lookup_imap in Hi. destruct (wallets !! i); simplify_eq/=.
  - assert (∃ i, who = Task (0 + i)) as [i ->].
    { clear -Hev Hin. induction Hev as [| |]; [by apply elem_of_nil in Hin|..].
      - apply elem_of_cons in Hin as [?|Hin]; [done|].
        apply elem_of_cons in Hin as [[= -> _]|Hin]; eauto.
      - apply elem_of_cons in Hin as [?|Hin]; [done|]. eauto. }
    destruct (H6 i req Hin) as (Hr & wallet & Hw & Hf & Ht & Hv).
    split; [done|]. exists i, wallet. done.
Qed.
End DispatchBroadcasts.

(** X10: whatever happens to the tester while the loop of a wallet is
    suspended (a [stop()], for instance), the loop never changes [isRunning]
    itself and starts a broadcast only in a stretch in which it found
    [isRunning] true when it was resumed; its first request is never a
    broadcast. *)
Theorem runWalletTransactions_heeds_stop (wallet : Wallet) (walletIndex : nat)
    (lt : LoadTester) :
  respects heeds_stop (λ s0 s next, s = s0 ∧ ∀ req, next ≠ Some (SendTransaction req))
           lt lt (runWalletTransactions wallet walletIndex).
Proof.
  unfold runWalletTransactions. cbn.
  apply respects_get. apply respects_await; [done|].
  intros r s. cbn.
  match goal with
  | |- respects _ (heeds_stop ?c r) s s ?p =>
      assert (respects (wallet_step wallet) (wallet_step wallet c r) s s p) as Hloop
        by (apply wallet_loop_respects; [|intros Hrun]; solve_step)
  end.
  assert (∀ c r' a b n, wallet_step wallet c r' a b n → heeds_stop c r' a b n) as Hweak.
  { intros c r' a b n (_ & H2 & _ & _ & _ & _ & H7). split; [done|].
    intros req ->. by destruct H7. }
  eapply respects_weaken; [exact Hloop|exact Hweak|apply Hweak].
Qed.

Lemma cache_after_app i v t1 t2 :
  cache_after i v (t1 ++ t2) = cache_after i (cache_after i v t1) t2.
Proof. unfold cache_after. apply foldl_app. Qed.

Lemma cache_after_sleeps i v tr :
  (∀ e, e ∈ tr → ∃ who num den, e = Issue who (Sleep num den)) →
  cache_after i v tr = v.
Proof.
  induction tr as [|e tr IH]; intros Hall; [done|].
  destruct (Hall e ltac:(by left)) as (who & num & den & ->).
  unfold cache_after. cbn. destruct who; apply IH; intros; apply Hall; by right.
Qed.

Lemma wallets_distinct (wallets : list Wallet) i j wi wj :
  NoDup (address <$> wallets) →
  wallets !! i = Some wi → wallets !! j = Some wj →
  address wi = address wj → i = j.
Proof.
  intros Hnd Hi Hj Heq.
  apply (NoDup_lookup _ i j (address wi) Hnd); rewrite list_lookup_fmap.
  - by rewrite Hi.
  - by rewrite Hj, Heq.
Qed.

Lemma evolves_nonces wallets base (s s' : LoadTester) tr :
  NoDup (address <$> wallets) →
  evolves (dispatch_step wallets) base s tr s' →
  ∀ i wallet, wallets !! i = Some wallet →
    nonces (walletManager s') !! address wallet
    = cache_after (base + i) (nonces (walletManager s) !! address wallet) tr ∧
    ∀ t1 req t2, tr = t1 ++ Issue (Task (base + i)) (SendTransaction req) :: t2 →
      tx_nonce req
      = default 0 (cache_after (base + i)
                     (nonces (walletManager s) !! address wallet) t1).
Proof.
  intros Hnd.
  induction 1 as [s|s s1 s' i0 c r c' tr (wallet0 & Hw0 & Hstep) Hev IH
                   |s s1 s' i0 c r tr (wallet0 & Hw0 & Hstep) Hev IH];
    intros i wallet Hw.
  - split; [done|]. by intros [|] ? ? ?.
  - destruct (IH i wallet Hw) as [IH1 IH2].
    destruct Hstep as (_ & _ & _ & _ & _ & Hother & Hown).
    destruct (decide (i = i0)) as [->|Hne].
    + rewrite Hw0 in Hw. injection Hw as ->.
      set (v := nonces (walletManager s) !! address wallet) in *.
      assert (cache_step (base + i0) v (Settle (Task (base + i0)) c r) = resynced c r v)
        as Hsettle.
      { unfold cache_step, resynced.
        destruct c; try done. destruct r as [[]|]; try done. by rewrite decide_True. }
      assert (nonces (walletManager s1) !! address wallet
              = cache_step (base + i0) (resynced c r v) (Issue (Task (base + i0)) c'))
        as Hissue.
      { unfold cache_step. destruct c'; try done.
        destruct Hown as (_ & -> & ->). cbn. by rewrite decide_True. }
      split.
      * rewrite IH1, Hissue. unfold cache_after. cbn [foldl]. by rewrite Hsettle.
      * intros t1 req t2 Heq.
        destruct t1 as [|e1 [|e2 t1]]; cbn [app] in Heq; simplify_eq.
        -- destruct Hown as (_ & -> & _). unfold cache_after. cbn [foldl].
           by rewrite Hsettle.
        -- rewrite (IH2 _ _ _ eq_refl), Hissue. unfold cache_after. cbn [foldl].
           by rewrite Hsettle.
    + assert (address wallet ≠ address wallet0) as Hna.
      { intros Heq. apply Hne. by eapply wallets_distinct. }
      assert (∀ v e, actor_of e = Task (base + i0) → cache_step (base + i) v e = v)
        as Hskip.
      { intros v [[|j] []|[|j] [] [[]|]] [=]; cbn; try done;
          rewrite decide_False; try done; lia. }
      split.
      * rewrite IH1, (Hother _ Hna). unfold cache_after. cbn [foldl].
        by rewrite !Hskip.
      * intros t1 req t2 Heq.
        destruct t1 as [|e1 [|e2 t1]]; cbn [app] in Heq; simplify_eq; [lia|].
        rewrite (IH2 _ _ _ eq_refl), (Hother _ Hna). unfold cache_after. cbn [foldl].
        by rewrite !Hskip.
  - destruct (IH i wallet Hw) as [IH1 IH2].
    destruct Hstep as (_ & _ & _ & _ & _ & Hother & Hown).
    destruct (decide (i = i0)) as [->|Hne].
    + rewrite Hw0 in Hw. injection Hw as ->.
      set (v := nonces (walletManager s) !! address wallet) in *.
      assert (cache_step (base + i0) v (Settle (Task (base + i0)) c r) = resynced c r v)
        as Hsettle.
      { unfold cache_step, resynced.
        destruct c; try done. destruct r as [[]|]; try done. by rewrite decide_True. }
      split.
      * rewrite IH1, Hown. unfold cache_after. cbn [foldl]. by rewrite Hsettle.
      * intros t1 req t2 Heq.
        destruct t1 as [|e1 t1]; cbn [app] in Heq; simplify_eq.
        rewrite (IH2 _ _ _ eq_refl), Hown. unfold cache_after. cbn [foldl].
        by rewrite Hsettle.
    + assert (address wallet ≠ address wallet0) as Hna.
      { intros Heq. apply Hne. by eapply wallets_distinct. }
      assert (∀ v e, actor_of e = Task (base + i0) → cache_step (base + i) v e = v)
        as Hskip.
      { intros v [[|j] []|[|j] [] [[]|]] [=]; cbn; try done;
          rewrite decide_False; try done; lia. }
      split.
      * rewrite IH1, (Hother _ Hna). unfold cache_after. cbn [foldl].
        by rewrite !Hskip.
      * intros t1 req t2 Heq.
        destruct t1 as [|e1 t1]; cbn [app] in Heq; simplify_eq.
        rewrite (IH2 _ _ _ eq_refl), (Hother _ Hna). unfold cache_after. cbn [foldl].
        by rewrite !Hskip.
Qed.

Section DispatchNonces.
Context {World : Type}.
Variable respond : World → Call → Response * World.
Variable choose : World → list nat → nat.

End DispatchNonces.

Lemma last_count_Some a tr m :
  last_count a tr = Some m →
  ∃ who, Settle who (GetTransactionCount a) (Fulfilled (VNumber m)) ∈ tr.
Proof.
  induction tr as [|e tr IH]; [done|].
  assert (last_count a tr = Some m →
          ∃ who, Settle who (GetTransactionCount a) (Fulfilled (VNumber m)) ∈ e :: tr)
    as Hrest.
  { intros [who Hin]%IH. exists who. by right. }
  destruct e as [who c|who c r]; cbn; [done|].
  destruct c; try done. destruct r as [[]|]; try done.
  destruct (last_count a tr); [done|].
  destruct (decide (_ = a)) as [->|]; [|done].
  intros [= ->]. exists who. by left.
Qed.

Lemma last_count_None a tr who m :
  last_count a tr = None →
  Settle who (GetTransactionCount a) (Fulfilled (VNumber m)) ∉ tr.
Proof.
  induction tr as [|e tr IH]; [by intros _ ?%elem_of_nil|].
  destruct e as [who' c|who' c r]; cbn.
  - intros Hn [?|Hin]%elem_of_cons; [done|]. by apply IH.
  - destruct c; try (intros Hn [?|Hin]%elem_of_cons; [done|]; by apply IH).
    destruct r as [[]|]; try (intros Hn [?|Hin]%elem_of_cons; [done|]; by apply IH).
    destruct (last_count a tr); [done|].
    destruct (decide (_ = a)) as [->|Hne]; [done|].
    intros _ [[= _ ? _]|Hin]%elem_of_cons; [done|]. by apply IH.
Qed.

Lemma local_elem_2 who c r tr : Settle who c r ∈ tr → (c, r) ∈ local who tr.
Proof.
  induction tr as [|e tr IH]; [by intros ?%elem_of_nil|].
  intros [<-|Hin]%elem_of_cons.
  - cbn. rewrite decide_True by done. by left.
  - destruct e as [a c'|a c' r']; cbn; [by apply IH|].
    destruct (decide (a = who)); [right|]; by apply IH.
Qed.

Section InitializeNoncesCache.
Context {World : Type}.
Variable respond : World → Call → Response * World.
Variable choose : World → list nat → nat.

(** X12: with pairwise distinct wallet addresses, [initializeNonces] asks
    the ledger once for the pending count of every wallet and, when it
    returns, the nonce table holds for every wallet exactly the count
    reported for it; the entries of other addresses, the counters and the
    flag are unchanged.  If a query fails it throws that error. *)
Theorem initializeNonces_caches_counts (wallets : list Wallet)
    (lt : LoadTester) (w : World) :
  NoDup (address <$> wallets) →
  ∃ o lt' w' tr,
    initializeNonces respond choose wallets lt w = (o, lt', w', tr) ∧
    o ≠ OutOfFuel ∧
    stats lt' = stats lt ∧
    isRunning lt' = isRunning lt ∧
    childWallets (walletManager lt') = childWallets (walletManager lt) ∧
    (∀ a, a ∉ address <$> wallets →
       nonces (walletManager lt') !! a = nonces (walletManager lt) !! a) ∧
    (o = Returned tt →
       ∀ i wallet, wallets !! i = Some wallet →
         ∃ n, local (Task i) tr
              = [(GetTransactionCount (address wallet), Fulfilled (VNumber n))] ∧
              nonces (walletManager lt') !! address wallet = Some n) ∧
    (∀ e, o = Threw e →
       ∃ t i c r, tr = t ++ [Settle (Task i) c r] ∧ bad_answer r e).
Proof.
  intros Hnd.
  destruct (initializeNonces_run respond choose wallets lt w)
    as (o & lt' & w' & tr & Hinit & Hnf & Hc & Hr & Hs & Hm & Hch & Hn & Hiss
        & Hsettle & Hret & Hthrew).
  exists o, lt', w', tr. do 5 (split; [done|]). split; [|split; [|done]].
  - intros a Hnin. rewrite Hn.
    destruct (last_count a tr) as [m|] eqn:Hl; [|done].
    apply last_count_Some in Hl as [who Hin].
    destruct (Hsettle _ _ _ Hin) as (i & wallet & _ & Hw & [= ->]).
    exfalso. apply Hnin. apply list_elem_of_fmap_2.
    by eapply list_elem_of_lookup_2.
  - intros Ho i wallet Hw.
    destruct (Hret Ho i wallet Hw) as [n Hl]. exists n. split; [done|].
    rewrite Hn.
    assert (Settle (Task i) (GetTransactionCount (address wallet))
                   (Fulfilled (VNumber n)) ∈ tr) as Hin.
    { apply local_elem. rewrite Hl. by left. }
    destruct (last_count (address wallet) tr) as [m|] eqn:Hlc.
    + apply last_count_Some in Hlc as [who Hin'].
      destruct (Hsettle _ _ _ Hin') as (j & wallet' & -> & Hw' & [= Heq]).
      assert (i = j) as <- by (by eapply wallets_distinct).
      apply local_elem_2 in Hin'. rewrite Hl in Hin'.
      apply list_elem_of_singleton in Hin'. by simplify_eq.
    + by apply (last_count_None _ _ (Task i) n) in Hlc.
Qed.
End InitializeNoncesCache.

Lemma initializeNonces_caches_counts_witness :
  NoDup (address <$> childWallets (demo_manager 2)) ∧
  ∃ o lt' w' tr,
    initializeNonces obliging_respond in_order (childWallets (demo_manager 2))
      (LoadTester_new (demo_manager 2) (mkConfig 2 0)) 0%nat = (o, lt', w', tr) ∧
    o ≠ OutOfFuel ∧
    (o = Returned tt →
       ∀ i wallet, childWallets (demo_manager 2) !! i = Some wallet →
         ∃ n, local (Task i) tr
              = [(GetTransactionCount (address wallet), Fulfilled (VNumber n))] ∧
              nonces (walletManager lt') !! address wallet = Some n).
Proof.
  assert (NoDup (address <$> childWallets (demo_manager 2))) as Hnd.
  { apply (bool_decide_unpack (NoDup _)). vm_compute. exact I. }
  split; [exact Hnd|].
  destruct (initializeNonces_caches_counts obliging_respond in_order
              (childWallets (demo_manager 2))
              (LoadTester_new (demo_manager 2) (mkConfig 2 0)) 0%nat Hnd)
    as (o & lt' & w' & tr & Hrun & Hnf & _ & _ & _ & _ & Hret & _).
  exists o, lt', w', tr. split; [exact Hrun|]. split; [exact Hnf|exact Hret].
Defined.

Lemma startLoadTest_counts_witness :
  isRunning (LoadTester_new (demo_manager 2) (mkConfig 2 0)) = false ∧
  (∀ w0, ∃ t w1, obliging_respond w0 DateNow = (Fulfilled (VNumber t), w1)) ∧
  ∃ o lt' w' tr,
    startLoadTest obliging_respond in_order
      (LoadTester_new (demo_manager 2) (mkConfig 2 0)) 0%nat = (o, lt', w', tr) ∧
    (o = Returned tt →
       isRunning lt' = false ∧
       totalTransactions (stats lt') = weigh accepted tr ∧
       successfulTransactions (stats lt') = weigh confirmed_ok tr ∧
       failedTransactions (stats lt')
         = weigh reverted tr + 2 * weigh failed_request tr).
Proof.
  assert (∀ w0, ∃ t w1, obliging_respond w0 DateNow = (Fulfilled (VNumber t), w1))
    as Hclock.
  { intros w0. eexists _, _. reflexivity. }
  split; [reflexivity|]. split; [exact Hclock|].
  destruct (startLoadTest_counts obliging_respond in_order
              (LoadTester_new (demo_manager 2) (mkConfig 2 0)) 0%nat eq_refl Hclock)
    as (o & lt' & w' & tr & Hrun & _ & Hret).
  exists o, lt', w', tr. split; [exact Hrun|].
  intros Ho. destruct (Hret Ho) as (H1 & _ & _ & _ & _ & H2 & H3 & H4 & _).
  split; [exact H1|]. split; [exact H2|]. split; [exact H3|exact H4].
Defined.

(** The run of the witness, evaluated: two wallets, two transactions
    each, every request answered favourably. *)
Lemma startLoadTest_obliging_run :
  let run := startLoadTest obliging_respond in_order
               (LoadTester_new (demo_manager 2) (mkConfig 2 0)) 0%nat in
  run.1.1.1 = Returned tt ∧
  totalTransactions (stats run.1.1.2) = 4 ∧
  successfulTransactions (stats run.1.1.2) = 4 ∧
  failedTransactions (stats run.1.1.2) = 0 ∧
  tx_nonce <$> broadcasts run.2 = [7; 8; 7; 8].
Proof. vm_compute. done. Qed.

Lemma startLoadTest_failed_initialization_witness :
  isRunning (LoadTester_new (demo_manager 2) (mkConfig 2 0)) = false ∧
  (∀ w0, ∃ t w1, refusing_respond w0 DateNow = (Fulfilled (VNumber t), w1)) ∧
  ∃ o lt' w' tr,
    startLoadTest refusing_respond in_order
      (LoadTester_new (demo_manager 2) (mkConfig 2 0)) 0%nat = (o, lt', w', tr) ∧
    (∀ e, o = Threw e →
       isRunning lt' = true ∧
       ∀ w'', startLoadTest refusing_respond in_order lt' w''
              = (Threw (mkError "Load test is already running"), lt', w'', [])).
Proof.
  assert (∀ w0, ∃ t w1, refusing_respond w0 DateNow = (Fulfilled (VNumber t), w1))
    as Hclock.
  { intros w0. eexists _, _. reflexivity. }
  split; [reflexivity|]. split; [exact Hclock|].
  destruct (startLoadTest_failed_initialization refusing_respond in_order
              (LoadTester_new (demo_manager 2) (mkConfig 2 0)) 0%nat eq_refl Hclock)
    as (o & lt' & w' & tr & Hrun & Hthrew).
  exists o, lt', w', tr. split; [exact Hrun|].
  intros e Ho. destruct (Hthrew e Ho) as (_ & _ & H1 & _ & _ & _ & _ & H2).
  split; [exact H1|exact H2].
Defined.

(** The run of the witness, evaluated: the first nonce query is
    rejected, and the tester is left running. *)
Lemma startLoadTest_refused_run :
  let run := startLoadTest refusing_respond in_order
               (LoadTester_new (demo_manager 2) (mkConfig 2 0)) 0%nat in
  run.1.1.1 = Threw (mkError "connection refused") ∧
  isRunning run.1.1.2 = true ∧
  broadcasts run.2 = [].
Proof. vm_compute. done. Qed.


Section PoolActors.
Context {World St A : Type}.
Variable respond : World → Call → Response * World.
Variable choose : World → list nat → nat.

Lemma issue_of_task who (q : prog St A) e :
  e ∈ issue_of (Task who) q → actor_of e = Task who.
Proof. destruct q; cbn; try by intros ?%elem_of_nil. by intros ->%list_elem_of_singleton. Qed.

Lemma start_all_tasks (ps : list (prog St A)) : ∀ who s e,
  e ∈ (start_all who ps s).2 → ∃ j, actor_of e = Task j.
Proof.
  induction ps as [|p ps IH]; intros who s e; cbn; [by intros ?%elem_of_nil|].
  destruct (start p s) as [s1 q].
  specialize (IH (S who) s1 e).
  destruct (start_all (S who) ps s1) as [[s2 qs] evs]. cbn in *.
  intros [He|He]%elem_of_app; [|by apply IH].
  exists who. by eapply issue_of_task.
Qed.

Lemma pool_run_tasks fuel : ∀ base (pool : list (prog St A)) s w e,
  e ∈ (pool_run respond choose fuel base pool s w).2 → ∃ j, actor_of e = Task j.
Proof.
  induction fuel as [|fuel IH]; intros base pool s w e; cbn;
    destruct (all_done pool); cbn; try by intros ?%elem_of_nil.
  destruct (pick choose w (pending_ids pool) ≫= _) as [[i [a|e0|c k|k|s' k]]|];
    cbn; try by intros ?%elem_of_nil.
  destruct (respond w c) as [r w1].
  destruct (start (k r) s) as [s1 q] eqn:Hq.
  specialize (IH base (<[i := q]> pool) s1 w1 e).
  assert (∀ tr, e ∈ Settle (Task (base + i)) c r :: issue_of (Task (base + i)) q ++ tr →
                (e ∈ tr → ∃ j, actor_of e = Task j) → ∃ j, actor_of e = Task j) as Hev.
  { intros tr [->|[He|He]%elem_of_app]%elem_of_cons Htr; [by eexists| |by apply Htr].
    eexists. by eapply issue_of_task. }
  destruct q; cbn;
    try (destruct (pool_run _ _ _ _ _ _ _) as [[[o s2] w2] tr]; cbn in *;
         intros He; by apply (Hev tr)).
  intros He. apply (Hev []); [by rewrite app_nil_r|by intros ?%elem_of_nil].
Qed.

Lemma promise_all_tasks fuel base (ps : list (prog St A)) s w e :
  e ∈ (promise_all respond choose fuel base ps s w).2 → ∃ j, actor_of e = Task j.
Proof.
  unfold promise_all.
  pose proof (start_all_tasks ps base s e) as Hs.
  destruct (start_all base ps s) as [[s1 pool] evs]. cbn in Hs.
  destruct (first_failed pool); cbn; [done|].
  pose proof (pool_run_tasks fuel base pool s1 w e) as Hp.
  destruct (pool_run _ _ _ _ _ _ _) as [[[o s2] w2] tr]. cbn in *.
  intros [He|He]%elem_of_app; auto.
Qed.
End PoolActors.

Lemma generated_tasks tr :
  (∀ e, e ∈ tr → ∃ j, actor_of e = Task j) → generated tr = [].
Proof.
  induction tr as [|e tr IH]; intros Hall; [done|].
  destruct (Hall e ltac:(by left)) as [j Hj].
  rewrite <- (IH (λ e0 H0, Hall e0 (list_elem_of_further _ _ _ H0))).
  by destruct e as [[|?] ?|[|?] ? ?].
Qed.

Section Totality.
Context {World : Type}.
Variable respond : World → Call → Response * World.
Variable choose : World → list nat → nat.

Lemma createWallets_total (n : Z) (wm : WalletManager) w :
  ∃ o wm' w' tr,
    createWallets respond n wm w = (o, wm', w', tr) ∧ o ≠ OutOfFuel ∧
    masterWallet wm' = masterWallet wm.
Proof.
  destruct (createWallets_loop_run respond (Z.to_nat n) wm w)
    as (o & wm' & w' & tr & Hrun & Hnf & _ & Hm & _).
  unfold createWallets. rewrite M_bind_unfold, Hrun.
  destruct o as [[]|e|]; [|by eexists _, _, _, _|done].
  rewrite M_bind_unfold. cbn. by eexists _, _, _, _.
Qed.

Lemma distributeFunds_total (wm : WalletManager) w :
  ∃ o w' tr,
    distributeFunds respond choose wm w = (o, wm, w', tr) ∧ o ≠ OutOfFuel ∧
    generated tr = [].
Proof.
  destruct (respond w (GetBalance (address (masterWallet wm)))) as [r w1] eqn:Hbal.
  destruct r as [[B| | | | | |]|e];
    try (unfold distributeFunds; rewrite M_bind_unfold; cbn [get_state];
         rewrite M_bind_unfold; cbn [exec getBalance]; rewrite Hbal;
         by eexists _, _, _).
  rewrite (distributeFunds_funds_check respond choose wm w w1 B Hbal). cbn zeta.
  destruct (B =? 0); [by eexists _, _, _|].
  destruct (gasReserve _) as [reserve|]; [|by eexists _, _, _].
  destruct (B - reserve <=? 0); [by eexists _, _, _|].
  case_bool_decide; [by eexists _, _, _|].
  rewrite M_bind_unfold. cbn [exec getTransactionCount].
  destruct (respond w1 (GetTransactionCount _)) as [r2 w2].
  destruct r2 as [[|n0| | | | |]|e]; try by eexists _, _, _.
  cbn.
  destruct (distribute_batches respond choose (length (childWallets wm)) _ 0 n0 wm w2)
    as [[[o s] w'] tr] eqn:Hrun.
  eapply (distribute_batches_sound respond choose _ n0) in Hrun
    as (-> & Hnf & _ & Htasks & _); [|done|lia|intros; lia].
  eexists _, _, _. split; [reflexivity|]. split; [done|].
  assert (generated tr = []) as Hg.
  { apply generated_tasks. intros e He. destruct (Htasks e He) as (j & Hj & _). eauto. }
  cbn. by rewrite ?generated_app, Hg.
Qed.

Lemma collectAllFunds_total (wm : WalletManager) w :
  ∃ o w' tr,
    collectAllFunds respond choose wm w = (o, wm, w', tr) ∧ o ≠ OutOfFuel ∧
    generated tr = [].
Proof.
  unfold collectAllFunds. rewrite M_bind_unfold. cbn [get_state].
  set (tasks := map (collectOne (address (masterWallet wm))) (childWallets wm)).
  assert (Forall stateless tasks) as Hst.
  { apply Forall_forall. intros p (wallet & -> & _)%list_elem_of_fmap.
    apply collectOne_stateless. }
  pose proof (promise_all_stateless respond choose (5 * length (childWallets wm)) 0
                tasks wm w Hst) as Hs.
  pose proof (promise_all_fuel respond choose (5 * length (childWallets wm)) 0
                tasks 5 wm w) as Hfuel.
  rewrite M_bind_unfold.
  destruct (promise_all respond choose (5 * length (childWallets wm)) 0 tasks wm w)
    as [[[o1 s1] w1] tr1] eqn:Hrun.
  pose proof (λ e, promise_all_tasks respond choose (5 * length (childWallets wm)) 0
                     tasks wm w e) as Htasks.
  rewrite Hrun in Htasks.
  cbn in Hs, Hfuel, Htasks. subst s1. apply generated_tasks in Htasks.
  assert (o1 ≠ OutOfFuel) as Hnf.
  { apply Hfuel.
    - intros p (wallet & -> & _)%list_elem_of_fmap. apply collectOne_depth.
    - unfold tasks. rewrite length_map. lia. }
  destruct o1 as [results|e|]; [|by eexists _, _, _|done].
  destruct (aggregate results) as [successful total].
  rewrite M_bind_unfold. cbn [exec getBalance].
  destruct (respond w1 (GetBalance _)) as [r w'].
  destruct r as [[]|]; cbn; eexists _, _, _; (split; [reflexivity|]); (split; [done|]);
    cbn; by rewrite ?generated_app, Htasks.
Qed.

Lemma verify_balances_total wallets (wm : WalletManager) w :
  ∃ o w' tr,
    verify_balances respond wallets wm w = (o, wm, w', tr) ∧ o ≠ OutOfFuel ∧
    generated tr = [].
Proof.
  revert w. induction wallets as [|wallet wallets IH]; intros w.
  - by eexists _, _, _.
  - cbn [verify_balances]. rewrite M_bind_unfold. cbn [exec getWalletBalance getBalance].
    destruct (respond w (GetBalance _)) as [r w1].
    destruct r as [[]|]; cbn; try by eexists _, _, _.
    destruct (IH w1) as (o & w' & tr & -> & Hnf & Hg).
    eexists _, _, _. split; [reflexivity|]. split; [done|].
    cbn. by rewrite ?generated_app, Hg.
Qed.
End Totality.
Section StartLoadTestTotal.
Context {World : Type}.
Variable respond : World → Call → Response * World.
Variable choose : World → list nat → nat.

Lemma date_now_total (lt : LoadTester) w :
  ∃ o w' tr, date_now respond lt w = (o, lt, w', tr) ∧ o ≠ OutOfFuel ∧
             generated tr = [].
Proof.
  unfold date_now. rewrite M_bind_unfold. unfold ask.
  destruct (respond w DateNow) as [[[]|] w1]; cbn; by eexists _, _, _.
Qed.

Lemma startLoadTest_total (lt : LoadTester) w :
  ∃ o lt' w' tr,
    startLoadTest respond choose lt w = (o, lt', w', tr) ∧ o ≠ OutOfFuel ∧
    masterWallet (walletManager lt') = masterWallet (walletManager lt) ∧
    childWallets (walletManager lt') = childWallets (walletManager lt) ∧
    generated tr = [].
Proof.
  destruct (isRunning lt) eqn:Hrun.
  { rewrite startLoadTest_running by done. by eexists _, _, _, _. }
  unfold startLoadTest. rewrite M_bind_unfold. cbn [get_state]. rewrite Hrun.
  rewrite M_bind_unfold. cbn [put_state].
  rewrite M_bind_unfold.
  destruct (date_now_total (set_isRunning true lt) w)
    as (o1 & w1 & tr1 & -> & Hnf1 & Hg1).
  destruct o1 as [t1|e|]; [|by eexists _, _, _, _|done].
  rewrite M_bind_unfold. cbn [get_state].
  rewrite M_bind_unfold. cbn [put_state].
  rewrite M_bind_unfold. cbn [get_state].
  change (childWallets (walletManager (reset_stats t1 (set_isRunning true lt))))
    with (childWallets (walletManager lt)).
  change (config (reset_stats t1 (set_isRunning true lt))) with (config lt).
  destruct (initializeNonces_run respond choose (childWallets (walletManager lt))
              (reset_stats t1 (set_isRunning true lt)) w1)
    as (o_i & lt_i & w_i & tr_i & Hinit & Hnf & Hc & _ & _ & Hm & Hw & _ & Hi & Hs & _).
  assert (generated tr_i = []) as Hg_i.
  { apply generated_tasks. intros [who c|who c r] He.
    - destruct (Hi _ _ He) as (i & _ & -> & _). by eexists.
    - destruct (Hs _ _ _ He) as (i & _ & -> & _). by eexists. }
  rewrite M_bind_unfold, Hinit.
  destruct o_i as [[]|e|]; [| |done].
  2:{ eexists _, _, _, _. split; [reflexivity|]. split; [done|].
      split; [done|]. split; [done|]. cbn. by rewrite ?generated_app, Hg1, Hg_i. }
  destruct (dispatch_account respond choose (childWallets (walletManager lt)) lt_i w_i)
    as (rs & lt_d & w_d & tr_d & Hdisp & _ & _ & Hm' & Hw' & _).
  rewrite Hc in Hdisp. cbn in Hdisp.
  assert (generated tr_d = []) as Hg_d.
  { apply generated_tasks. intros e He.
    eapply (promise_all_tasks respond choose). unfold dispatch in Hdisp.
    rewrite Hdisp. exact He. }
  unfold M_finally, M_catch. rewrite M_bind_unfold, Hdisp.
  cbn [mret M_mret M_ret].
  rewrite M_bind_unfold. cbn [get_state].
  rewrite M_bind_unfold. cbn [put_state].
  rewrite M_bind_unfold.
  destruct (date_now_total (set_isRunning false lt_d) w_d)
    as (o2 & w2 & tr2 & -> & Hnf2 & Hg2).
  destruct o2 as [t2|e|]; [| |done].
  - rewrite M_bind_unfold. cbn [get_state]. cbn.
    eexists _, _, _, _. split; [reflexivity|]. split; [done|].
    cbn. rewrite Hm', Hw', Hm, Hw. do 2 (split; [done|]).
    by rewrite ?generated_app, Hg1, Hg_i, Hg_d, Hg2.
  - cbn. eexists _, _, _, _. split; [reflexivity|]. split; [done|].
    cbn. rewrite Hm', Hw', Hm, Hw. do 2 (split; [done|]).
    by rewrite ?generated_app, Hg1, Hg_i, Hg_d, Hg2.
Qed.
End StartLoadTestTotal.

Section MainStages.
Context {World : Type}.
Variable respond : World → Call → Response * World.
Variable choose : World → list nat → nat.

Lemma tidy_bind {A B} (m : @M World WalletManager A) (f : A → @M World WalletManager B) :
  tidy m → (∀ a, tidy (f a)) → tidy (m ≫= f).
Proof.
  intros Hm Hf wm w o wm' w' tr. rewrite M_bind_unfold.
  destruct (m wm w) as [[[o1 wm1] w1] tr1] eqn:H1.
  destruct (Hm _ _ _ _ _ _ H1) as (Hnf & Hmw & Hcw).
  destruct o1 as [a|e|]; [|by intros [= <- <- <- <-]|done].
  destruct (f a wm1 w1) as [[[o2 wm2] w2] tr2] eqn:H2.
  destruct (Hf a _ _ _ _ _ _ H2) as (Hnf2 & Hmw2 & Hcw2).
  intros [= <- <- <- <-]. split; [done|]. split; [congruence|].
  by rewrite Hcw2, Hcw, generated_app, app_assoc.
Qed.

Lemma tidy_getBalance a : tidy (exec respond (getBalance a)).
Proof.
  intros wm w o wm' w' tr. cbn.
  destruct (respond w (GetBalance a)) as [[[]|] w1]; cbn;
    intros [= <- <- <- <-]; by rewrite app_nil_r.
Qed.

Lemma tidy_createWallets n : tidy (createWallets respond n).
Proof.
  intros wm w o wm' w' tr.
  destruct (createWallets_loop_run respond (Z.to_nat n) wm w)
    as (o1 & wm1 & w1 & tr1 & Hrun & Hnf & Hcw & Hm & _).
  unfold createWallets. rewrite M_bind_unfold, Hrun.
  destruct o1 as [[]|e|]; [|by intros [= <- <- <- <-]|done].
  rewrite M_bind_unfold. cbn. intros [= <- <- <- <-]. by rewrite app_nil_r.
Qed.

Lemma tidy_distributeFunds : tidy (distributeFunds respond choose).
Proof.
  intros wm w o wm' w' tr.
  destruct (distributeFunds_total respond choose wm w) as (o1 & w1 & tr1 & -> & Hnf & Hg).
  intros [= <- <- <- <-]. by rewrite Hg, app_nil_r.
Qed.

Lemma tidy_verify :
  tidy (wm ← get_state; verify_balances respond (take 3 (childWallets wm))).
Proof.
  intros wm w o wm' w' tr. rewrite M_bind_unfold. cbn [get_state].
  destruct (verify_balances_total respond (take 3 (childWallets wm)) wm w)
    as (o1 & w1 & tr1 & -> & Hnf & Hg).
  cbn. intros [= <- <- <- <-]. by rewrite Hg, app_nil_r.
Qed.

Lemma tidy_startLoadTest cfg :
  tidy (with_loadTester cfg (startLoadTest respond choose)).
Proof.
  intros wm w o wm' w' tr. unfold with_loadTester.
  destruct (startLoadTest_total respond choose (LoadTester_new wm cfg) w)
    as (o1 & lt1 & w1 & tr1 & -> & Hnf & Hm & Hcw & Hg).
  intros [= <- <- <- <-]. by rewrite Hg, app_nil_r.
Qed.

Lemma orderly_bind {A B} (m : @M World MainVars A) (f : A → @M World MainVars B) :
  orderly m → (∀ a, orderly (f a)) → orderly (m ≫= f).
Proof.
  intros Hm Hf vars w o vars' w' tr. rewrite M_bind_unfold.
  destruct (m vars w) as [[[o1 vars1] w1] tr1] eqn:H1.
  destruct (Hm _ _ _ _ _ _ H1) as (Hnf & He & Hx & Hcw).
  destruct o1 as [a|e|]; [|by intros [= <- <- <- <-]|done].
  destruct (f a vars1 w1) as [[[o2 vars2] w2] tr2] eqn:H2.
  destruct (Hf a _ _ _ _ _ _ H2) as (Hnf2 & He2 & Hx2 & Hcw2).
  intros [= <- <- <- <-]. split; [done|]. do 2 (split; [congruence|]).
  by rewrite Hcw2, Hcw, generated_app, app_assoc.
Qed.

Lemma orderly_throw {A} e : orderly (throw e : @M World MainVars A).
Proof. intros vars w o vars' w' tr [= <- <- <- <-]. by rewrite app_nil_r. Qed.

Lemma orderly_on_manager {A} (m : @M World WalletManager A) :
  tidy m → orderly (on_manager m).
Proof.
  intros Hm vars w o vars' w' tr. unfold on_manager, wallets_of.
  destruct (walletManager_var vars) as [wm|] eqn:Hwm.
  - destruct (m wm w) as [[[o1 wm1] w1] tr1] eqn:H1.
    destruct (Hm _ _ _ _ _ _ H1) as (Hnf & _ & Hcw).
    by intros [= <- <- <- <-].
  - intros [= <- <- <- <-]. by rewrite Hwm.
Qed.
End MainStages.

Section CollectionAsks.
Context {World : Type}.
Variable respond : World → Call → Response * World.
Variable choose : World → list nat → nat.

Lemma start_all_issue {St A} (ps : list (prog St A)) : ∀ who s i p c,
  ps !! i = Some p →
  (∀ q, q ∈ ps → ∀ s0, (start q s0).1 = s0) →
  (∃ k, (start p s).2 = Await c k) →
  Issue (Task (who + i)) c ∈ (start_all who ps s).2.
Proof.
  induction ps as [|p0 ps IH]; intros who s i p c Hi Hro Hk; [done|].
  cbn. pose proof (Hro p0 ltac:(by left) s) as Hs.
  destruct (start p0 s) as [s1 q] eqn:Hq. cbn in Hs. subst s1.
  specialize (IH (S who) s).
  destruct (start_all (S who) ps s) as [[s2 qs] evs]. cbn in *.
  destruct i as [|i]; cbn in Hi.
  - injection Hi as ->. destruct Hk as [k Hk]. rewrite Hq in Hk. cbn in Hk. subst q.
    rewrite Nat.add_0_r. by left.
  - apply elem_of_app. right.
    replace (who + S i)%nat with (S who + i)%nat by lia.
    apply (IH i p c Hi); [|done]. intros; apply Hro. by right.
Qed.

Lemma collectAllFunds_asks (wm : WalletManager) w i wallet :
  childWallets wm !! i = Some wallet →
  Issue (Task i) (GetBalance (address wallet))
    ∈ (collectAllFunds respond choose wm w).2.
Proof.
  intros Hi. unfold collectAllFunds. rewrite M_bind_unfold. cbn [get_state].
  set (tasks := map (collectOne (address (masterWallet wm))) (childWallets wm)).
  assert (Issue (Task i) (GetBalance (address wallet))
            ∈ (promise_all respond choose (5 * length (childWallets wm)) 0 tasks wm w).2)
    as Hin.
  { unfold promise_all.
    pose proof (start_all_issue tasks 0 wm i
                  (collectOne (address (masterWallet wm)) wallet)
                  (GetBalance (address wallet))) as Hs.
    destruct (start_all 0 tasks wm) as [[s1 pool] evs]. cbn in Hs.
    assert (Issue (Task i) (GetBalance (address wallet)) ∈ evs) as Hev.
    { apply Hs.
      - unfold tasks. by rewrite list_lookup_fmap, Hi.
      - intros q (x & -> & _)%list_elem_of_fmap s0. done.
      - by eexists. }
    destruct (first_failed pool); [done|].
    destruct (pool_run _ _ _ _ _ _ _) as [[[o s2] w2] tr]. cbn.
    apply elem_of_app. by left. }
  rewrite M_bind_unfold.
  destruct (promise_all _ _ _ _ _ _ _) as [[[o1 s1] w1] tr1]. cbn in Hin.
  destruct o1 as [results|e|]; try done.
  destruct (aggregate results) as [successful total].
  rewrite M_bind_unfold.
  destruct (exec respond _ s1 w1) as [[[o2 s2] w2] tr2].
  destruct o2; cbn; apply elem_of_app; by left.
Qed.
End CollectionAsks.

Section MainRun.
Context {World : Type}.
Variable respond : World → Call → Response * World.
Variable choose : World → list nat → nat.
Variable getNetwork : World → World.
Variable wallet_of_key : string → Wallet + Error.

Lemma main_try_run config w :
  ∃ o vars' w' tr,
    main_try respond choose getNetwork wallet_of_key config MainVars_init w
    = (o, vars', w', tr) ∧
    o ≠ OutOfFuel ∧ error_var vars' = None ∧ exit_code vars' = None ∧
    wallets_of vars' = generated tr.
Proof.
  unfold main_try.
  destruct (validateConfig config) as [[]|e|] eqn:Hv; [| |unfold validateConfig in Hv; by destruct (config_errors config)].
  2:{ by eexists _, _, _, _. }
  rewrite M_bind_unfold.
  destruct (wallet_of_key _) as [master|e]; [|by eexists _, _, _, _].
  rewrite M_bind_unfold. cbn [get_state].
  rewrite M_bind_unfold. cbn [put_state].
  match goal with
  | |- context [mbind ?f ?m ?vars ?w0] =>
      assert (orderly (mbind f m)) as Hord; [|
        destruct (mbind f m vars w0) as [[[o vars'] w'] tr] eqn:Hrun;
        destruct (Hord _ _ _ _ _ _ Hrun) as (Hnf & He & Hx & Hw)]
  end.
  { apply orderly_bind; [apply orderly_on_manager, tidy_getBalance|].
    intros balance. destruct (balance =? 0); [apply orderly_throw|].
    apply orderly_bind; [apply orderly_on_manager, tidy_createWallets|]. intros _.
    apply orderly_bind; [apply orderly_on_manager, tidy_distributeFunds|]. intros _.
    apply orderly_bind; [apply orderly_on_manager, tidy_verify|]. intros _.
    apply orderly_on_manager, tidy_startLoadTest. }
  cbn -[generated]. eexists _, _, _, _. split; [reflexivity|]. done.
Qed.

Lemma main_finally_run vars w :
  ∃ vars' w' tr,
    main_finally respond choose vars w = (Returned tt, vars', w', tr) ∧
    walletManager_var vars' = walletManager_var vars ∧
    error_var vars' = error_var vars ∧
    exit_code vars' = match error_var vars with
                      | Some _ => Some 1
                      | None => exit_code vars
                      end ∧
    generated tr = [] ∧
    match walletManager_var vars with
    | Some wm =>
        if bool_decide (0 < length (childWallets wm))%nat
        then ∃ o, collectAllFunds respond choose wm w = (o, wm, w', tr)
        else tr = [] ∧ w' = w
    | None => tr = [] ∧ w' = w
    end.
Proof.
  unfold main_finally. rewrite M_bind_unfold. unfold M_catch.
  rewrite M_bind_unfold. cbn [get_state].
  destruct (walletManager_var vars) as [wm|] eqn:Hwm.
  2:{ cbn. rewrite M_bind_unfold. cbn [get_state].
      destruct (error_var vars) eqn:He; cbn; eexists _, _, _;
        (split; [reflexivity|]); cbn; by rewrite ?Hwm, ?He. }
  case_bool_decide as Hlen.
  2:{ cbn. rewrite M_bind_unfold. cbn [get_state].
      destruct (error_var vars) eqn:He; cbn; eexists _, _, _;
        (split; [reflexivity|]); cbn; by rewrite ?Hwm, ?He. }
  rewrite M_bind_unfold. unfold on_manager at 1. rewrite Hwm.
  destruct (collectAllFunds_total respond choose wm w) as (o & w1 & tr1 & Hrun & Hnf & Hg).
  rewrite Hrun.
  destruct o as [summary|e|]; [| |done].
  - cbn [mret M_mret M_ret]. rewrite M_bind_unfold. cbn [get_state].
    cbn [error_var set_walletManager_var].
    destruct (error_var vars) eqn:He; cbn; eexists _, _, _;
      (split; [reflexivity|]); cbn; rewrite ?app_nil_r, ?He; eauto 10.
  - cbn [mret M_mret M_ret]. rewrite M_bind_unfold. cbn [get_state].
    cbn [error_var set_walletManager_var].
    destruct (error_var vars) eqn:He; cbn; eexists _, _, _;
      (split; [reflexivity|]); cbn; rewrite ?app_nil_r, ?He; eauto 10.
Qed.

Lemma main_run config w :
  ∃ o1 vars1 w1 tr1 vars' w' tr2,
    main_try respond choose getNetwork wallet_of_key config MainVars_init w
    = (o1, vars1, w1, tr1) ∧
    o1 ≠ OutOfFuel ∧
    main respond choose getNetwork wallet_of_key config MainVars_init w
    = (Returned tt, vars', w', tr1 ++ tr2) ∧
    error_var vars' = match o1 with Threw e => Some e | _ => None end ∧
    exit_code vars' = match o1 with Threw _ => Some 1 | _ => None end ∧
    walletManager_var vars' = walletManager_var vars1 ∧
    wallets_of vars1 = generated tr1 ∧
    generated tr2 = [] ∧
    match walletManager_var vars1 with
    | Some wm =>
        if bool_decide (0 < length (childWallets wm))%nat
        then ∃ o, collectAllFunds respond choose wm w1 = (o, wm, w', tr2)
        else tr2 = [] ∧ w' = w1
    | None => tr2 = [] ∧ w' = w1
    end.
Proof.
  destruct (main_try_run config w) as (o1 & vars1 & w1 & tr1 & Htry & Hnf & He & Hx & Hw).
  exists o1, vars1, w1, tr1.
  unfold main, M_finally, M_catch. rewrite Htry.
  destruct o1 as [[]|e|]; [| |done].
  - destruct (main_finally_run vars1 w1)
      as (vars' & w' & tr2 & -> & Hwm & He' & Hx' & Hg & Hcol).
    exists vars', w', tr2. rewrite He in Hx'. rewrite He', He, Hx', Hx. done.
  - rewrite M_bind_unfold. cbn [get_state put_state]. 
    destruct (main_finally_run (set_error_var e vars1) w1)
      as (vars' & w' & tr2 & Hfin & Hwm & He' & Hx' & Hg & Hcol).
    cbn. rewrite Hfin.
    exists vars', w', tr2. cbn in *. rewrite app_nil_r, He', Hx'. done.
Qed.
End MainRun.

Section MainTheorems.
Context {World : Type}.
Variable respond : World → Call → Response * World.
Variable choose : World → list nat → nat.
Variable getNetwork : World → World.
Variable wallet_of_key : string → Wallet + Error.

(** X13: [main] always returns; the error variable holds exactly what
    the [try] block threw, and the process is told to exit with code 1
    exactly when there is such an error.  What happens during the final
    collection of funds changes neither. *)
Theorem main_exit_code (config : AppConfig) (w : World) :
  ∃ vars' w' tr,
    main respond choose getNetwork wallet_of_key config MainVars_init w
    = (Returned tt, vars', w', tr) ∧
    error_var vars'
    = match (main_try respond choose getNetwork wallet_of_key config
               MainVars_init w).1.1.1 with
      | Threw e => Some e
      | _ => None
      end ∧
    exit_code vars' = match error_var vars' with
                      | Some _ => Some 1
                      | None => None
                      end.
Proof.
  destruct (main_run respond choose getNetwork wallet_of_key config w)
    as (o1 & vars1 & w1 & tr1 & vars' & w' & tr2 & Htry & Hnf & Hmain & He & Hx & _).
  exists vars', w', (tr1 ++ tr2). split; [done|].
  rewrite Htry, He, Hx. cbn. by destruct o1.
Qed.

(** X14: the child wallets [main] ends with are the wallets the
    generator handed out during the run.  If there is one, the run
    ends with a collection of funds over exactly these wallets,
    whatever the [try] block did before, and the collection asks the
    balance of each of them; if there is none, nothing is requested
    after the [try] block. *)
Theorem main_collects (config : AppConfig) (w : World) :
  ∃ vars' w' tr,
    main respond choose getNetwork wallet_of_key config MainVars_init w
    = (Returned tt, vars', w', tr) ∧
    wallets_of vars' = generated tr ∧
    (generated tr ≠ [] →
       ∃ wm w1 o tr2,
         walletManager_var vars' = Some wm ∧
         childWallets wm = generated tr ∧
         tr = (main_try respond choose getNetwork wallet_of_key config
                 MainVars_init w).2 ++ tr2 ∧
         collectAllFunds respond choose wm w1 = (o, wm, w', tr2) ∧
         ∀ i wallet, generated tr !! i = Some wallet →
           Issue (Task i) (GetBalance (address wallet)) ∈ tr2) ∧
    (generated tr = [] →
       tr = (main_try respond choose getNetwork wallet_of_key config
               MainVars_init w).2).
Proof.
  destruct (main_run respond choose getNetwork wallet_of_key config w)
    as (o1 & vars1 & w1 & tr1 & vars' & w' & tr2 & Htry & Hnf & Hmain & He & Hx
        & Hwm & Hw & Hg & Hcol).
  exists vars', w', (tr1 ++ tr2). split; [done|].
  rewrite Htry, generated_app, Hg, app_nil_r. cbn [snd].
  unfold wallets_of in *. rewrite Hwm.
  split; [done|].
  destruct (walletManager_var vars1) as [wm|]; cbn in Hw.
  - case_bool_decide as Hlen.
    + destruct Hcol as [o Hcol]. split.
      * intros _. exists wm, w1, o, tr2. do 4 (split; [done|]).
        intros i wallet Hi. rewrite <- Hw in Hi.
        pose proof (collectAllFunds_asks respond choose wm w1 i wallet Hi) as Hin.
        by rewrite Hcol in Hin.
      * intros Hnil. rewrite Hw, Hnil in Hlen. cbn in Hlen. lia.
    + destruct Hcol as [-> ->]. split; [|by rewrite app_nil_r].
      intros Hne. destruct (childWallets wm); [by rewrite <- Hw in Hne|].
      cbn in Hlen. lia.
  - destruct Hcol as [-> ->]. split; [by rewrite <- Hw|by rewrite app_nil_r].
Qed.

(** X15: with a configuration that fails validation, [main] makes no
    request at all, constructs no wallet manager, and exits with code 1
    holding the validation error. *)
Theorem main_invalid_config (config : AppConfig) (w : World) e :
  validateConfig config = Threw e →
  main respond choose getNetwork wallet_of_key config MainVars_init w
  = (Returned tt,
     {| walletManager_var := None; error_var := Some e; exit_code := Some 1 |},
     w, []).
Proof.
  intros Hv. unfold main, M_finally, M_catch, main_try. rewrite Hv. cbn.
  reflexivity.
Qed.

(** X16: when the master wallet's balance is reported as zero, the
    balance request is the only request of the run: no wallet is
    created, no collection is attempted, and [main] exits with code 1. *)
Theorem main_unfunded (config : AppConfig) (w w1 : World) master :
  validateConfig config = Returned tt →
  wallet_of_key (default ""%string (privateKey config)) = inl master →
  respond (getNetwork w) (GetBalance (address master)) = (Fulfilled (VBigInt 0), w1) →
  main respond choose getNetwork wallet_of_key config MainVars_init w
  = (Returned tt,
     {| walletManager_var := Some (WalletManager_new master);
        error_var := Some (mkError "Master wallet has no funds. Please fund the wallet before running the load test.");
        exit_code := Some 1 |},
     w1,
     [Issue Main (GetBalance (address master));
      Settle Main (GetBalance (address master)) (Fulfilled (VBigInt 0))]).
Proof.
  intros Hv Hkey Hbal.
  unfold main, M_finally, M_catch, main_try. rewrite Hv, Hkey.
  rewrite M_bind_unfold. cbn [fst snd].
  rewrite M_bind_unfold. cbn [get_state].
  rewrite M_bind_unfold. cbn [put_state].
  rewrite M_bind_unfold. unfold on_manager at 1.
  cbn [walletManager_var set_walletManager_var exec getBalance]. rewrite Hbal.
  cbn. reflexivity.
Qed.
End MainTheorems.

Lemma main_invalid_config_witness :
  validateConfig (mkAppConfig None "http://127.0.0.1:8545" 2 2 0)
  = Threw (mkError ("Configuration validation failed:" +:+ newline
                    +:+ "PRIVATE_KEY is required in .env file")) ∧
  main obliging_respond in_order S any_key
    (mkAppConfig None "http://127.0.0.1:8545" 2 2 0) MainVars_init 0%nat
  = (Returned tt,
     {| walletManager_var := None;
        error_var := Some (mkError ("Configuration validation failed:" +:+ newline
                                    +:+ "PRIVATE_KEY is required in .env file"));
        exit_code := Some 1 |},
     0%nat, []).
Proof.
  split; [reflexivity|].
  apply (main_invalid_config obliging_respond in_order S any_key). reflexivity.
Defined.

Lemma main_unfunded_witness :
  validateConfig demo_config = Returned tt ∧
  any_key (default ""%string (privateKey demo_config)) = inl (mkWallet "0xKEY") ∧
  penniless_respond 1%nat (GetBalance "0xKEY") = (Fulfilled (VBigInt 0), 2%nat) ∧
  main penniless_respond in_order S any_key demo_config MainVars_init 0%nat
  = (Returned tt,
     {| walletManager_var := Some (WalletManager_new (mkWallet "0xKEY"));
        error_var := Some (mkError "Master wallet has no funds. Please fund the wallet before running the load test.");
        exit_code := Some 1 |},
     2%nat,
     [Issue Main (GetBalance "0xKEY");
      Settle Main (GetBalance "0xKEY") (Fulfilled (VBigInt 0))]).
Proof.
  split; [reflexivity|]. split; [reflexivity|]. split; [reflexivity|].
  apply (main_unfunded penniless_respond in_order S any_key demo_config 0%nat 2%nat
           (mkWallet "0xKEY")); reflexivity.
Defined.

(** Two runs of [main], evaluated: with every request answered
    favourably, and with a ledger that refuses to report nonces. *)
Lemma main_obliging_run :
  let run := main obliging_respond in_order S any_key demo_config MainVars_init 0%nat in
  run.1.1.1 = Returned tt ∧
  exit_code run.1.1.2 = None ∧
  length (wallets_of run.1.1.2) = 2%nat ∧
  length (broadcasts run.2) = 8%nat.
Proof. vm_compute. done. Qed.

Lemma main_refused_run :
  let run := main refusing_respond in_order S any_key demo_config MainVars_init 0%nat in
  run.1.1.1 = Returned tt ∧
  error_var run.1.1.2 = Some (mkError "connection refused") ∧
  exit_code run.1.1.2 = Some 1 ∧
  length (wallets_of run.1.1.2) = 2%nat ∧
  broadcasts run.2 = [] ∧
  Issue (Task 1) (GetBalance "3") ∈ run.2.
Proof.
  vm_compute. do 5 (split; [done|]).
  apply list_elem_of_lookup. by exists 11%nat.
Qed.

Section LoadConfigTheorems.
Variable parseInt : option string → option Z.

(** X17: the configuration read from the environment passes
    validation exactly when PRIVATE_KEY is a non-empty string and none
    of NUM_WALLETS, TRANSACTIONS_PER_WALLET and TRANSACTION_INTERVAL_MS
    parses to a negative integer.  A missing RPC_URL is never
    reported, and a variable that is missing, not a number or zero
    gives the default, so that none of the three numbers is ever zero. *)
Theorem load_config_accepts_iff (env : Env) :
  let config := load_config parseInt env in
  (validateConfig config = Returned tt ↔
     falsy (PRIVATE_KEY env) = false ∧
     not_negative (parseInt (NUM_WALLETS env)) ∧
     not_negative (parseInt (TRANSACTIONS_PER_WALLET env)) ∧
     not_negative (parseInt (TRANSACTION_INTERVAL_MS env))) ∧
  ("RPC_URL is required in .env file"%string ∉ config_errors config) ∧
  numWallets config ≠ 0 ∧
  cfg_transactionsPerWallet config ≠ 0 ∧
  cfg_intervalMs config ≠ 0.
Proof.
  cbn zeta.
  assert (∀ n d, d ≠ 0 → or_number n d ≠ 0) as Hnz.
  { intros [n|] d Hd; cbn; [|done]. destruct (n =? 0) eqn:Hn; lia. }
  assert (∀ n d, 0 < d → (or_number n d <=? 0) = false ↔ not_negative n) as Hpos.
  { intros [n|] d Hd; cbn; [|split; [done|lia]].
    destruct (n =? 0) eqn:Hn; lia. }
  assert (∀ n d, 0 < d → (or_number n d <? 0) = false ↔ not_negative n) as Hnn.
  { intros [n|] d Hd; cbn; [|split; [done|lia]].
    destruct (n =? 0) eqn:Hn; lia. }
  assert (falsy (Some (or_string (RPC_URL env) "http://127.0.0.1:8545")) = false) as Hurl.
  { unfold or_string. destruct (RPC_URL env) as [s|]; cbn; [|reflexivity].
    destruct (bool_decide (s = ""%string)) eqn:Hs; cbn; [reflexivity|exact Hs]. }
  split; [|split; [|repeat split; by apply Hnz]].
  - unfold validateConfig, config_errors. cbn [privateKey rpcUrl numWallets
      cfg_transactionsPerWallet cfg_intervalMs load_config].
    rewrite Hurl.
    rewrite <- (Hpos (parseInt (NUM_WALLETS env)) 10),
      <- (Hpos (parseInt (TRANSACTIONS_PER_WALLET env)) 100),
      <- (Hnn (parseInt (TRANSACTION_INTERVAL_MS env)) 1000) by lia.
    destruct (falsy (PRIVATE_KEY env)), (_ <=? 0), (_ <=? 0), (_ <? 0); cbn;
      split; first [done | by intros (? & ? & ? & ?)].
  - unfold config_errors. cbn [privateKey rpcUrl numWallets
      cfg_transactionsPerWallet cfg_intervalMs load_config].
    rewrite Hurl.
    destruct (falsy (PRIVATE_KEY env)), (_ <=? 0), (_ <=? 0), (_ <? 0); cbn;
      rewrite ?elem_of_cons, ?elem_of_nil; intros H;
      repeat destruct H as [H|H]; done.
Qed.
End LoadConfigTheorems.

Section AssumingFacts.
Context {World St A : Type}.
Variable respond : World → Call → Response * World.
Variable choose : World → list nat → nat.
Variable inv : St → Prop.
Variable normal : St → St.
Hypothesis normal_inv : ∀ s, inv s → normal s = s.

Lemma start_assuming (p : prog St A) : ∀ s,
  inv s → preserves inv p →
  inv (start p s).1 ∧ preserves inv (start p s).2 ∧
  start (assuming normal p) s = ((start p s).1, assuming normal (start p s).2).
Proof.
  intros s Hs Hp. revert s Hs.
  induction Hp as [a|e|c k Hk IH|k Hk IH|s' k Hs' Hk IH]; intros s Hs; cbn.
  - split; [done|]. split; [constructor|done].
  - split; [done|]. split; [constructor|done].
  - split; [done|]. split; [by constructor|done].
  - rewrite (normal_inv s Hs). by apply IH.
  - by apply IH.
Qed.

Lemma result_of_assuming (p : prog St A) :
  result_of (assuming normal p) = result_of p.
Proof. by destruct p. Qed.

Lemma all_done_assuming (pool : list (prog St A)) :
  all_done (assuming normal <$> pool) = all_done pool.
Proof.
  unfold all_done. induction pool as [|p pool IH]; [done|].
  cbn. rewrite result_of_assuming. destruct (result_of p); [|done]. cbn.
  by rewrite IH.
Qed.

Lemma pending_from_assuming (pool : list (prog St A)) b :
  pending_from b (assuming normal <$> pool) = pending_from b pool.
Proof.
  revert b. induction pool as [|p pool IH]; intros b; [done|].
  cbn. rewrite IH. by destruct p.
Qed.

Lemma first_failed_assuming (pool : list (prog St A)) :
  first_failed (assuming normal <$> pool) = first_failed pool.
Proof.
  unfold first_failed.
  assert (∀ x : option (nat * prog St A),
            (prod_map S id <$> x) ≫= (λ ip, failure_of ip.2)
            = x ≫= (λ ip, failure_of ip.2)) as Hshift.
  { by intros [[]|]. }
  induction pool as [|p pool IH]; [done|].
  destruct p as [a|e|c k|k|s k]; cbn; try done;
    (destruct (decide (is_Some (@None Error))) as [[? [=]]|_]; by rewrite !Hshift, IH).
Qed.

Lemma issue_of_assuming who (q : prog St A) :
  issue_of who (assuming normal q) = issue_of who q.
Proof. by destruct q. Qed.

Lemma pool_run_assuming fuel : ∀ base (pool : list (prog St A)) s w,
  inv s → Forall (preserves inv) pool →
  pool_run respond choose fuel base (assuming normal <$> pool) s w
  = pool_run respond choose fuel base pool s w.
Proof.
  induction fuel as [|fuel IH]; intros base pool s w Hs Hpool; cbn;
    rewrite all_done_assuming; [done|].
  destruct (all_done pool); [done|].
  unfold pending_ids. rewrite pending_from_assuming.
  destruct (pick choose w (pending_from 0 pool)) as [i|]; cbn; [|done].
  rewrite list_lookup_fmap.
  destruct (pool !! i) as [p|] eqn:Hp; cbn; [|done].
  pose proof (proj1 (Forall_lookup _ _) Hpool i p Hp) as Hpres.
  destruct p as [a|e|c k|k|s0 k]; cbn; try done.
  destruct (respond w c) as [r w1].
  inversion Hpres as [| |c0 k0 Hk| |]; subst.
  destruct (start_assuming (k r) s Hs (Hk r)) as (Hs1 & Hq & ->).
  destruct (start (k r) s) as [s1 q]. cbn in *.
  rewrite issue_of_assuming.
  rewrite <- list_fmap_insert.
  rewrite IH; [|done|].
  - by destruct q.
  - apply Forall_insert; done.
Qed.

Lemma start_all_assuming (ps : list (prog St A)) : ∀ who s,
  inv s → Forall (preserves inv) ps →
  inv (start_all who ps s).1.1 ∧
  Forall (preserves inv) (start_all who ps s).1.2 ∧
  start_all who (assuming normal <$> ps) s
  = ((start_all who ps s).1.1, assuming normal <$> (start_all who ps s).1.2,
     (start_all who ps s).2).
Proof.
  induction ps as [|p ps IH]; intros who s Hs Hps; [done|].
  apply Forall_cons in Hps as [Hp Hps]. cbn.
  destruct (start_assuming p s Hs Hp) as (Hs1 & Hq & ->).
  destruct (start p s) as [s1 q]. cbn in *.
  destruct (IH (S who) s1 Hs1 Hps) as (Hs2 & Hqs & ->).
  destruct (start_all (S who) ps s1) as [[s2 qs] evs]. cbn in *.
  rewrite issue_of_assuming. split; [done|]. split; [by constructor|done].
Qed.

Lemma promise_all_assuming fuel base (ps : list (prog St A)) s w :
  inv s → Forall (preserves inv) ps →
  promise_all respond choose fuel base (assuming normal <$> ps) s w
  = promise_all respond choose fuel base ps s w.
Proof.
  intros Hs Hps. unfold promise_all.
  destruct (start_all_assuming ps base s Hs Hps) as (Hs1 & Hqs & ->).
  destruct (start_all base ps s) as [[s1 pool] evs]. cbn [fst snd] in *.
  rewrite first_failed_assuming. destruct (first_failed pool); [done|].
  by rewrite pool_run_assuming.
Qed.
End AssumingFacts.

Lemma put_in_test_id cfg (lt : LoadTester) : in_test cfg lt → put_in_test cfg lt = lt.
Proof. destruct lt. unfold in_test, put_in_test. cbn. intros [H1 H2]. by subst. Qed.

Ltac walk_inv IH :=
  repeat (cbn;
    first
      [ apply preserves_get; intros ? [? ?]
      | apply preserves_put; [by split|]
      | apply preserves_done
      | apply preserves_fail
      | apply preserves_await; intros ?
      | apply IH
      | match goal with
        | |- context [match ?r with Fulfilled _ => _ | Rejected _ => _ end] =>
            destruct r as [[]|]
        | |- context [is_nonce_issue ?e] => destruct (is_nonce_issue e) eqn:?
        | |- context [if ?b then _ else _] => destruct b eqn:?
        end ]).

Lemma wallet_loop_preserves cfg wallet cfg' n :
  ∀ i, preserves (in_test cfg) (wallet_loop wallet cfg' n i).
Proof.
  induction n as [|n IH]; intros i; [by constructor|].
  cbn [wallet_loop]. walk_inv IH.
Qed.

Lemma runWalletTransactions_preserves cfg wallet index :
  preserves (in_test cfg) (runWalletTransactions wallet index).
Proof.
  unfold runWalletTransactions. cbn.
  apply preserves_get. intros lt _. apply preserves_await. intros r. cbn.
  apply wallet_loop_preserves.
Qed.

Ltac solve_count :=
  rewrite ?weigh_hist_app; cbn; lia.

Ltac walk_count IH :=
  repeat (cbn;
    first
      [ apply obeys_get; intros ?
      | apply obeys_put
      | apply obeys_done; solve [solve_count]
      | apply obeys_await; [done|intros ?]
      | apply IH; solve [solve_count]
      | match goal with
        | |- context [match ?r with Fulfilled _ => _ | Rejected _ => _ end] =>
            destruct r as [[]|]
        | |- context [is_nonce_issue ?e] => destruct (is_nonce_issue e) eqn:?
        | |- context [if ?b then _ else _] => destruct b eqn:?
        end ]).

Lemma wallet_loop_attempts cfg wallet cfg' n (total : Z) : ∀ i h,
  weigh_hist attempted h + Z.of_nat n = total →
  obeys (λ _ _, True) (λ h' (_ : unit), weigh_hist attempted h' = total) (λ _ _, False) h
        (assuming (put_in_test cfg) (wallet_loop wallet cfg' n i)).
Proof.
  induction n as [|n IH]; intros i h Hh; [constructor; lia|].
  cbn [wallet_loop]. walk_count IH.
Qed.

Lemma runWalletTransactions_attempts cfg wallet index :
  obeys (λ _ _, True)
        (λ h' (_ : unit),
           weigh_hist attempted h' = Z.of_nat (Z.to_nat (transactionsPerWallet cfg)))
        (λ _ _, False) []
        (assuming (put_in_test cfg) (runWalletTransactions wallet index)).
Proof.
  unfold runWalletTransactions. cbn.
  apply obeys_get. intros lt. apply obeys_await; [done|].
  intros r. cbn. apply wallet_loop_attempts. solve_count.
Qed.

Lemma sum_upto_const n a : sum_upto n (λ _, a) = Z.of_nat n * a.
Proof.
  unfold sum_upto. generalize 0%nat. induction n as [|n IH]; intros b; [cbn; lia|].
  cbn [seq foldr]. rewrite IH. lia.
Qed.

Lemma weigh_le φ ψ tr : (∀ c r, φ c r ≤ ψ c r) → weigh φ tr ≤ weigh ψ tr.
Proof.
  intros Hle. induction tr as [|e tr IH]; [done|].
  destruct e as [a c|[|i] c r]; cbn; try done. specialize (Hle c r). lia.
Qed.

Section DispatchAttempts.
Context {World : Type}.
Variable respond : World → Call → Response * World.
Variable choose : World → list nat → nat.

(** With the flag set and nobody to clear it, every wallet's loop
    runs to its last iteration. *)
Lemma dispatch_attempts wallets (lt : LoadTester) w rs lt' w' tr :
  isRunning lt = true →
  dispatch respond choose wallets (config lt) lt w = (Returned rs, lt', w', tr) →
  (∀ i, (i < length wallets)%nat →
     weigh_hist attempted (local (Task i) tr)
     = Z.of_nat (Z.to_nat (transactionsPerWallet (config lt)))) ∧
  weigh attempted tr
  = Z.of_nat (length wallets) * Z.of_nat (Z.to_nat (transactionsPerWallet (config lt))).
Proof.
  intros Hflag Hrun. unfold dispatch in Hrun.
  set (cfg := config lt) in *.
  set (ps := imap (λ index wallet, runWalletTransactions wallet index) wallets) in *.
  rewrite <- (promise_all_assuming respond choose (in_test cfg) (put_in_test cfg)
                (put_in_test_id cfg)) in Hrun.
  2:{ by split. }
  2:{ apply Forall_forall. intros p [i Hi]%list_elem_of_lookup.
      apply dispatch_tasks_lookup in Hi as (wallet & _ & ->).
      apply runWalletTransactions_preserves. }
  assert (∀ i p,
            (assuming (put_in_test cfg) <$> ps) !! i = Some p →
            obeys (λ _ _, True)
              (λ h' (_ : unit),
                 weigh_hist attempted h' = Z.of_nat (Z.to_nat (transactionsPerWallet cfg)))
              (λ _ _, False) [] p) as Hob.
  { intros i p. rewrite list_lookup_fmap.
    destruct (ps !! i) as [q|] eqn:Hq; intros [= <-].
    apply dispatch_tasks_lookup in Hq as (wallet & _ & ->).
    apply runWalletTransactions_attempts. }
  destruct (promise_all_sound respond choose
              (λ _ _ _, True)
              (λ _ h' (_ : unit),
                 weigh_hist attempted h' = Z.of_nat (Z.to_nat (transactionsPerWallet cfg)))
              (λ _ _ _, False)
              _ _ _ _ _ _ _ _ _ Hob Hrun)
    as (pool & tr_pool & Htr & HF & Hev & HR & _).
  destruct (HR rs eq_refl) as [Hlen HQ].
  rewrite length_fmap in Hlen. unfold ps in Hlen. rewrite length_imap in Hlen.
  assert (∀ i, (i < length wallets)%nat →
            weigh_hist attempted (local (Task i) tr)
            = Z.of_nat (Z.to_nat (transactionsPerWallet cfg))) as Hall.
  { intros i Hi. destruct (lookup_lt_is_Some_2 rs i) as [a Ha]; [lia|].
    by apply (HQ i a). }
  split; [exact Hall|].
  assert (∀ e, e ∈ tr → ∃ i, (i < length wallets)%nat ∧ actor_of e = Task (0 + i))
    as Hact.
  { rewrite Htr. intros e [Hin|Hin]%elem_of_app.
    - apply issues_elem in Hin as (i & c & k & Hi & ->).
      exists i. split; [|done].
      apply lookup_lt_Some in Hi.
      rewrite <- (Forall2_length _ _ _ HF), length_fmap in Hi.
      unfold ps in Hi. by rewrite length_imap in Hi.
    - apply list_elem_of_split in Hin as (t1 & t2 & Heq).
      destruct (Hev _ _ _ Heq) as [(i & h & Ha & Hh & _) _].
      exists i. split; [|done].
      apply lookup_replicate in Hh as [_ Hi].
      rewrite length_fmap in Hi. unfold ps in Hi. by rewrite length_imap in Hi. }
  rewrite (weigh_partition attempted (length wallets) 0 tr Hact).
  rewrite (sum_upto_ext _ _ (λ _, Z.of_nat (Z.to_nat (transactionsPerWallet cfg))))
    by (intros i Hi; by apply Hall).
  apply sum_upto_const.
Qed.
End DispatchAttempts.

Section StartLoadTestAttempts.
Context {World : Type}.
Variable respond : World → Call → Response * World.
Variable choose : World → list nat → nat.

(** X18: a load test that returns has made, for every wallet, exactly
    [transactionsPerWallet] broadcast attempts (none for a count that
    is not positive): each of its promises received that many answers
    to broadcast requests, accepted or rejected, and the run
    [wallets * transactionsPerWallet] in all.  So [totalTransactions],
    which counts the accepted ones, never exceeds this product. *)
Theorem startLoadTest_attempts (lt : LoadTester) (w : World) :
  isRunning lt = false →
  (∀ w0, ∃ t w1, respond w0 DateNow = (Fulfilled (VNumber t), w1)) →
  ∃ o lt' w' tr,
    startLoadTest respond choose lt w = (o, lt', w', tr) ∧
    (o = Returned tt →
       let per_wallet := Z.max 0 (transactionsPerWallet (config lt)) in
       let wallets := childWallets (walletManager lt) in
       (∀ i, (i < length wallets)%nat →
          weigh_hist attempted (local (Task i) tr) = per_wallet) ∧
       weigh attempted tr = Z.of_nat (length wallets) * per_wallet ∧
       totalTransactions (stats lt') = weigh accepted tr ∧
       totalTransactions (stats lt') ≤ Z.of_nat (length wallets) * per_wallet).
Proof.
  intros Hrun Hclock.
  destruct (startLoadTest_cases respond choose lt w Hrun Hclock)
    as (t1 & w1 & o_i & lt_i & w_i & tr_i & Ht1 & Hinit & Hcase).
  destruct (initializeNonces_run respond choose (childWallets (walletManager lt))
              (reset_stats t1 (set_isRunning true lt)) w1)
    as (o_i' & lt_i' & w_i' & tr_i' & Hinit' & Hnf & Hc & Hr & Hs & Hm & Hch & Hn & Hissue
        & Hsettle & _).
  rewrite Hinit in Hinit'. symmetry in Hinit'. simplify_eq.
  destruct o_i as [[]|e|]; [| |done].
  2:{ eexists _, _, _, _. split; [exact Hcase|]. done. }
  destruct Hcase as (rs & lt_d & w_d & tr_d & t2 & w2 & Hdisp & Ht2 & Hstart).
  destruct (dispatch_account respond choose (childWallets (walletManager lt)) lt_i w_i)
    as (rs' & lt_d' & w_d' & tr_d' & Hdisp' & D1 & D2 & D3 & D4 & D5 & D6).
  rewrite Hc in Hdisp'. cbn in Hdisp'. rewrite Hdisp in Hdisp'. symmetry in Hdisp'.
  simplify_eq.
  cbn in Hc, Hr, Hs, Hm, Hch.
  rewrite <- Hc in Hdisp.
  destruct (dispatch_attempts respond choose _ _ _ _ _ _ _ Hr Hdisp) as [Hper Htot].
  rewrite Hc in Hper, Htot.
  eexists _, _, _, _. split; [exact Hstart|]. intros _. cbn zeta.
  replace (Z.max 0 (transactionsPerWallet (config lt)))
    with (Z.of_nat (Z.to_nat (transactionsPerWallet (config lt)))) by lia.
  assert (∀ φ, (∀ a r, φ (GetTransactionCount a) r = 0) →
            weigh φ ([Issue Main DateNow; Settle Main DateNow (Fulfilled (VNumber t1))]
                     ++ tr_i ++ tr_d
                     ++ [Issue Main DateNow; Settle Main DateNow (Fulfilled (VNumber t2))])
            = weigh φ tr_d) as Hw.
  { intros φ Hφ. rewrite !weigh_app. cbn.
    rewrite (weigh_zero φ tr_i); [lia|].
    intros who c r (i & wallet & _ & _ & ->)%Hsettle. apply Hφ. }
  rewrite !Hw by done.
  assert (totalTransactions (stats (set_endTime t2 (set_isRunning false lt_d)))
          = weigh accepted tr_d) as Htotal.
  { cbn. rewrite D5, Hs. cbn. lia. }
  split; [|split; [done|split; [done|]]].
  - intros i Hi. rewrite !local_app. cbn [local].
    rewrite !decide_False by done. rewrite app_nil_l, app_nil_r.
    rewrite weigh_hist_app, (Hper i Hi).
    assert (weigh_hist attempted (local (Task i) tr_i) = 0) as ->; [|cbn; lia].
    assert (∀ c r, (c, r) ∈ local (Task i) tr_i → attempted c r = 0) as Hz.
    { intros c r Hin%local_elem.
      by destruct (Hsettle _ _ _ Hin) as (j & wallet & _ & _ & ->). }
    induction (local (Task i) tr_i) as [|[c r] h IH]; [done|].
    unfold weigh_hist in *. cbn [foldr fst snd].
    rewrite (Hz c r) by (by left). rewrite IH; [done|].
    intros; apply Hz; by right.
  - rewrite Htotal, <- Htot. apply weigh_le.
    intros [] [[]|]; cbn; lia.
Qed.
End StartLoadTestAttempts.

Lemma startLoadTest_attempts_witness :
  isRunning (LoadTester_new (demo_manager 2) (mkConfig 2 0)) = false ∧
  (∀ w0, ∃ t w1, obliging_respond w0 DateNow = (Fulfilled (VNumber t), w1)) ∧
  ∃ o lt' w' tr,
    startLoadTest obliging_respond in_order
      (LoadTester_new (demo_manager 2) (mkConfig 2 0)) 0%nat = (o, lt', w', tr) ∧
    (o = Returned tt → weigh attempted tr = 4).
Proof.
  assert (∀ w0, ∃ t w1, obliging_respond w0 DateNow = (Fulfilled (VNumber t), w1))
    as Hclock.
  { intros w0. eexists _, _. reflexivity. }
  split; [reflexivity|]. split; [exact Hclock|].
  destruct (startLoadTest_attempts obliging_respond in_order
              (LoadTester_new (demo_manager 2) (mkConfig 2 0)) 0%nat eq_refl Hclock)
    as (o & lt' & w' & tr & Hrun & Hret).
  exists o, lt', w', tr. split; [exact Hrun|].
  intros Ho. destruct (Hret Ho) as (_ & H2 & _). exact H2.
Defined.
